(** * warefs-duden: the entry completion and alternatives pipeline

    A shallow embedding of [api/src/index.js] (the Express handlers and
    their helper functions) and the properties of its morphology
    normalizer, field completion, spelling review and situational
    alternatives engine. *)

From Stdlib Require Import Ascii String ZArith DecimalString.
From stdpp Require Import gmap strings list sorting.

Set Default Proof Using "Type".
#[local] Set Warnings "-register-all,-clear-no-such-hyp".

(** ** The JavaScript values the handlers see

    Request bodies come from [express.json()] and oracle answers from
    [JSON.parse], so every value is a JSON value, or [undefined] when a
    property is read that is not there.

    A string is the sequence of its UTF-16 code units, a code unit being
    kept in the range 0..255 (Basic Latin and Latin-1, which holds the
    German letters).  Case mapping follows the Unicode tables and numbers
    are IEEE doubles: both are an interface of the host, [Host], and
    every definition is executable once an instance is chosen
    ([latin_host] below maps the Basic Latin letters). *)

Class Host : Type := {
  number : Type;
  number_truthy : number → bool;
  number_toString : number → string;
  toLowerCase : string → string;
  toUpperCase : string → string
}.

(** What an evaluation ends in: a value, or a thrown exception with its
    message. *)
Inductive outcome (A : Type) : Type :=
  | Done (a : A)
  | Thrown (message : string).
Arguments Done {A} a.
Arguments Thrown {A} message.

#[global] Instance outcome_ret : MRet outcome := λ A a, Done a.
#[global] Instance outcome_bind : MBind outcome := λ A B f m,
  match m with
  | Done a => f a
  | Thrown e => Thrown e
  end.

Definition TypeError : string := "TypeError".

Module JS.
Section values.
Context `{Host}.

Inductive value : Type :=
  | VUndefined
  | VNull
  | VBool (b : bool)
  | VNum (n : number)
  | VStr (s : string)
  | VArr (items : list value)
  | VObj (props : gmap string value).

(** [!!v] *)
Definition truthy (v : value) : bool :=
  match v with
  | VUndefined | VNull => false
  | VBool b => b
  | VNum n => number_truthy n
  | VStr s => negb (String.eqb s "")
  | VArr _ | VObj _ => true
  end.

(** [typeof v === "object"], which holds of [null] and of arrays too. *)
Definition typeof_object (v : value) : bool :=
  match v with
  | VNull | VArr _ | VObj _ => true
  | _ => false
  end.

(** [v && typeof v === "object"] *)
Definition isObject (v : value) : bool := truthy v && typeof_object v.

(** [a ?? b] *)
Definition nullish (a b : value) : value :=
  match a with
  | VUndefined | VNull => b
  | _ => a
  end.

(** [a || b] *)
Definition or_else (a b : value) : value :=
  if truthy a then a else b.

(** [v[k]] for the property names this program reads, none of which is
    an array index, [length] or a name the prototypes define: an object
    answers with its own property, any other value with [undefined]. *)
Definition prop (k : string) (v : value) : value :=
  match v with
  | VObj m => default VUndefined (m !! k)
  | _ => VUndefined
  end.

(** [v.k] where [v] may be [null] or [undefined]: reading a property of
    those throws. *)
Definition get (k : string) (v : value) : outcome value :=
  match v with
  | VUndefined | VNull => Thrown TypeError
  | _ => Done (prop k v)
  end.

(** [String(v)].  An array joins the conversions of its items with a
    comma, [null] and [undefined] items giving the empty string.  A
    plain object gives ["[object Object]"] through
    [Object.prototype.toString], unless it has an own property
    [toString]: that one is JSON data, not callable, and the inherited
    [valueOf] returns no primitive, so the conversion throws. *)
Fixpoint String_ (v : value) : outcome string :=
  match v with
  | VUndefined => Done "undefined"
  | VNull => Done "null"
  | VBool b => Done (if b then "true" else "false")
  | VNum n => Done (number_toString n)
  | VStr s => Done s
  | VArr items =>
      let item (x : value) : outcome string :=
        match x with
        | VUndefined | VNull => Done ""
        | _ => String_ x
        end in
      (fix join (l : list value) : outcome string :=
         match l with
         | [] => Done ""
         | [x] => item x
         | x :: rest => s ← item x; t ← join rest; Done (s +:+ "," +:+ t)
         end) items
  | VObj m =>
      match m !! "toString" with
      | Some _ => Thrown TypeError
      | None => Done "[object Object]"
      end
  end.

End values.
End JS.
Export JS.

(** ** Strings *)

(** [WhiteSpace] and [LineTerminator] code units below 256: TAB, LF, VT,
    FF, CR, SP and NBSP. *)
Definition isWhiteSpace (c : ascii) : bool :=
  let n := nat_of_ascii c in
  (Nat.leb 9 n && Nat.leb n 13) || Nat.eqb n 32 || Nat.eqb n 160.

Fixpoint trimStart (s : string) : string :=
  match s with
  | EmptyString => EmptyString
  | String c rest => if isWhiteSpace c then trimStart rest else s
  end.

Fixpoint trimEnd (s : string) : string :=
  match s with
  | EmptyString => EmptyString
  | String c rest =>
      match trimEnd rest with
      | EmptyString => if isWhiteSpace c then EmptyString else String c EmptyString
      | kept => String c kept
      end
  end.

(** [s.trim()] *)
Definition trim (s : string) : string := trimEnd (trimStart s).

(** [Boolean(s)] of a string, as in [.filter(Boolean)]. *)
Definition nonEmpty (s : string) : bool := negb (String.eqb s "").

(** A host for running the definitions: numbers are integers, and the
    case mappings are those of the Basic Latin letters, every other code
    unit being left as it is. *)
Definition latin_lower (c : ascii) : ascii :=
  let n := nat_of_ascii c in
  if Nat.leb 65 n && Nat.leb n 90 then ascii_of_nat (n + 32) else c.
Definition latin_upper (c : ascii) : ascii :=
  let n := nat_of_ascii c in
  if Nat.leb 97 n && Nat.leb n 122 then ascii_of_nat (n - 32) else c.
Fixpoint map_string (f : ascii → ascii) (s : string) : string :=
  match s with
  | EmptyString => EmptyString
  | String c rest => String (f c) (map_string f rest)
  end.
Definition decimal (n : Z) : string :=
  NilZero.string_of_int (Z.to_int n).

Definition latin_host : Host := {|
  number := Z;
  number_truthy n := negb (Z.eqb n 0);
  number_toString := decimal;
  toLowerCase := map_string latin_lower;
  toUpperCase := map_string latin_upper
|}.

(** [requireAuth]: whether [next()] is called, which it is when the
    cookie [duden_auth] is ["1"]; otherwise the answer is 401. *)
Definition requireAuth `{Host} (authCookie : value) : bool :=
  match authCookie with
  | VStr s => String.eqb s "1"
  | _ => false
  end.

(** ** Morphology normalizer *)

Section morphology.
Context `{Host}.

Definition allowedPos : list string :=
  [ "noun"; "verb"; "adjective"; "adverb"; "interjection"; "particle";
    "conjunction"; "preposition"; "phrase" ].

(** [Array.from(new Set(l))]: the first occurrence of every element, in
    the order of the list. *)
Fixpoint unique (l : list string) : list string :=
  match l with
  | [] => []
  | x :: rest => x :: filter (λ y, y ≠ x) (unique rest)
  end.

(** [String(item).toLowerCase().trim()] *)
Definition canonical (item : value) : outcome string :=
  s ← String_ item; mret (trim (toLowerCase s)).

(** [Array.isArray(value) ? value : [value]] *)
Definition asList (value : value) : list JS.value :=
  match value with VArr items => items | _ => [value] end.

Definition normalizePartOfSpeech (value : value) : outcome (list string) :=
  if negb (truthy value) then mret [] else
  let list := asList value in
  normalized ← mapM canonical list;
  let normalized := filter (λ item, item ∈ allowedPos) normalized in
  let unique := unique normalized in
  mret (take 1 unique).

(** [value] is a string wherever the handlers call it. *)
Definition capitalizeFirst (value : string) : string :=
  match value with
  | EmptyString => value
  | String c rest => toUpperCase (String c EmptyString) +:+ rest
  end.

(** [None] is [undefined]. *)
Definition normalizeArticle (value : value) : outcome (option string) :=
  if negb (truthy value) then mret None else
  s ← String_ value;
  let normalized := trim (toLowerCase s) in
  if bool_decide (normalized ∈ ["der"; "die"; "das"])
  then mret (Some normalized) else mret None.

(** What [validateMorphology] returns: [{ error }] or
    [{ partOfSpeech, article }]. *)
Inductive morphology : Type :=
  | MorphError (error : string)
  | Morph (partOfSpeech : list string) (article : option string).

(** "Artikel ist für Nomen erforderlich." *)
Definition articleRequired : string :=
  "Artikel ist f" +:+ String (ascii_of_nat 252) "r Nomen erforderlich.".

Definition validateMorphology (partOfSpeech article : value)
  : outcome morphology :=
  normalizedPos ← normalizePartOfSpeech partOfSpeech;
  normalizedArticle ← normalizeArticle article;
  if bool_decide ("noun" ∈ normalizedPos) then
    match normalizedArticle with
    | None => mret (MorphError articleRequired)
    | Some a => mret (Morph normalizedPos (Some a))
    end
  else mret (Morph normalizedPos None).

End morphology.

(** ** Saving an entry: [POST /api/entries] and [PUT /api/entries/:id] *)

Section entries.
Context `{Host}.

(** The document handed to [Entry.create] or [Entry.findByIdAndUpdate]. *)
Record entryDoc : Type := EntryDoc {
  e_term : value;
  e_definition : value;
  e_example : value;
  e_synonyms : value;
  e_partOfSpeech : list string;
  e_article : option string
}.

(** Where the handler's own checks end: a response with an error, or the
    call of the storage with the document. *)
Inductive saveStep : Type :=
  | Reject (status : nat) (error : string)
  | Persist (doc : entryDoc).

(** The part of both handlers before the storage is called;
    [authCookie] is [req.cookies?.duden_auth]. *)
Definition saveRequest (authCookie : value) (reqBody : value)
  : outcome saveStep :=
  if negb (requireAuth authCookie) then mret (Reject 401 "unauthorized") else
  let body := or_else reqBody (VObj ∅) in
  let term := prop "term" body in
  let definition := prop "definition" body in
  if negb (truthy term) || negb (truthy definition)
  then mret (Reject 400 "term and definition are required")
  else
    morph ← validateMorphology (prop "partOfSpeech" body) (prop "article" body);
    match morph with
    | MorphError error => mret (Reject 400 error)
    | Morph partOfSpeech article =>
        mret (Persist (EntryDoc term definition (prop "example" body)
                         (prop "synonyms" body) partOfSpeech article))
    end.






End entries.

(** ** The language oracle

    What [openai.chat.completions.create] and the reading of its answer
    end in.  The request is rejected, or it answers with a model name
    ([completion.model]) and a content
    ([completion.choices?.[0]?.message?.content]): none or an empty one,
    one on which [JSON.parse] throws, or one [JSON.parse] turns into a
    value. *)

Section oracle.
Context `{Host}.

Inductive content : Type :=
  | Absent
  | Malformed (message : string)
  | Json (parsed : value).

Inductive oracle : Type :=
  | Rejected (message : string)
  | Answered (model : string) (raw : content).

(** The first lines of every [try] block: the content, parsed;
    [missing] is the message of the error thrown when there is none. *)
Definition parsedAnswer (missing : string) (o : oracle) : outcome value :=
  match o with
  | Rejected message => Thrown message
  | Answered _ Absent => Thrown missing
  | Answered _ (Malformed message) => Thrown message
  | Answered _ (Json parsed) => mret parsed
  end.

(** The gates before an oracle call: [ADMIN_PASSWORD] is set, the
    cookie is there, the client exists. *)
Record config : Type := Config {
  ADMIN_PASSWORD : string;
  openai : bool
}.

End oracle.

(** ** Field completion: [POST /api/entries/ai-complete] *)

Section completion.
Context `{Host}.

Record completed : Type := Completed {
  c_term : value;
  c_definition : value;
  c_example : value;
  c_synonyms : value;
  c_partOfSpeech : list string;
  c_article : value
}.

Inductive completeResponse : Type :=
  | CompleteError (status : nat) (error : string)
  | CompleteOk (fields : completed).

(** The object given to [res.json]; its properties are evaluated in
    this order, and an exception of any of them leaves the [try]
    block. *)
Definition mergeCompletion (body parsed : value) : outcome completed :=
  let term := prop "term" body in
  let definition := prop "definition" body in
  let example := prop "example" body in
  let synonyms := prop "synonyms" body in
  let partOfSpeech := prop "partOfSpeech" body in
  let article := prop "article" body in
  p_term ← get "term" parsed;
  p_definition ← get "definition" parsed;
  p_example ← get "example" parsed;
  p_synonyms ← get "synonyms" parsed;
  p_partOfSpeech ← get "partOfSpeech" parsed;
  pos ← normalizePartOfSpeech (nullish p_partOfSpeech partOfSpeech);
  p_article ← get "article" parsed;
  mret (Completed
          (nullish (nullish p_term term) (VStr ""))
          (nullish (nullish p_definition definition) (VStr ""))
          (nullish (nullish p_example example) (VStr ""))
          (nullish (nullish p_synonyms synonyms) (VStr ""))
          pos
          (nullish (nullish p_article article) (VStr ""))).

Definition postAiComplete (cfg : config) (authCookie reqBody : value)
    (o : oracle) : completeResponse :=
  if negb (nonEmpty (ADMIN_PASSWORD cfg))
  then CompleteError 400 "AI login is not configured" else
  if negb (requireAuth authCookie) then CompleteError 401 "unauthorized" else
  if negb (openai cfg)
  then CompleteError 400 "AI completion is not configured" else
  let body := or_else reqBody (VObj ∅) in
  if negb (truthy (prop "term" body)) && negb (truthy (prop "definition" body))
     && negb (truthy (prop "example" body)) && negb (truthy (prop "synonyms" body))
  then CompleteError 400 "Provide at least term, definition, example, or synonyms"
  else
    match parsed ← parsedAnswer "Keine Antwort erhalten" o;
          mergeCompletion body parsed with
    | Done fields => CompleteOk fields
    | Thrown _ => CompleteError 500 "AI completion failed"
    end.

End completion.

(** ** Spelling and lemma review: [POST /api/entries/spellcheck] *)

Section review.
Context `{Host}.

Record reviewResult : Type := ReviewResult {
  corrected : option string;
  suggestions : list value;
  lemma : option string;
  partOfSpeech : list string;
  article : option string
}.

(** [{ corrected: null, suggestions: [], partOfSpeech: [], article: null,
      lemma: null }] *)
Definition neutral : reviewResult := ReviewResult None [] None [] None.

Inductive reviewResponse : Type :=
  | ReviewError (status : nat) (error : string)
  | ReviewOk (result : gmap string reviewResult).

Definition allowedFields : list string :=
  ["term"; "definition"; "example"; "synonyms"].

(** [allowedFields.includes(field)] holds of strings only. *)
Definition requestedFields (body : value) : list string :=
  match prop "userFields" body with
  | VArr fields =>
      omap (λ field, match field with
                     | VStr s => if bool_decide (s ∈ allowedFields) then Some s else None
                     | _ => None
                     end) fields
  | _ => allowedFields
  end.

Definition userInputMap (body : value) : option value :=
  let userInput := prop "userInput" body in
  if isObject userInput then Some userInput else None.

Definition fieldsToReview (body : value) : list string :=
  filter (λ field,
            truthy (prop field body) &&
            match userInputMap body with
            | Some map => truthy (prop field map)
            | None => true
            end = true)
         (requestedFields body).

(** [typeof v === "string" && v.trim() ? v : null] *)
Definition filledString (v : value) : option string :=
  match v with
  | VStr s => if nonEmpty (trim s) then Some s else None
  | _ => None
  end.

(** "Großschreibung (Nomen)" *)
Definition capitalizationReason : string :=
  "Gro" +:+ String (ascii_of_nat 223) "schreibung (Nomen)".

Definition suggestion (from to reason : string) : value :=
  VObj (<["from" := VStr from]> (<["to" := VStr to]> (<["reason" := VStr reason]> ∅))).

(** [result[field].suggestions] is the very array [parsed[field].suggestions]
    when that is an array, so [push] changes the parsed answer too: a
    later pass over the same field starts from the longer array. *)
Definition pushed (parsed : value) (field : string) (longer : list value) : value :=
  match parsed with
  | VObj m =>
      match m !! field with
      | Some (VObj vm) =>
          match vm !! "suggestions" with
          | Some (VArr _) => VObj (<[field := VObj (<["suggestions" := VArr longer]> vm)]> m)
          | _ => parsed
          end
      | _ => parsed
      end
  | _ => parsed
  end.

(** One pass of [fieldsToReview.forEach]: the entry stored under
    [result[field]] and the parsed answer after it. *)
Definition reviewField (body parsed : value) (field : string)
  : outcome (reviewResult * value) :=
  value ← get field parsed;
  if isObject value then
    normalizedPos ← normalizePartOfSpeech
                      (or_else (prop "partOfSpeech" value) (prop "pos" value));
    let original := prop field body in
    let entry :=
      ReviewResult
        (filledString (prop "corrected" value))
        (match prop "suggestions" value with VArr l => l | _ => [] end)
        (trim <$> filledString (prop "lemma" value))
        normalizedPos
        ((λ s, toLowerCase (trim s)) <$> filledString (prop "article" value)) in
    if String.eqb field "term" && bool_decide ("noun" ∈ partOfSpeech entry) then
      let originalTerm := match original with VStr s => s | _ => "" end in
      let base := default originalTerm (corrected entry) in
      let capitalized := capitalizeFirst base in
      if nonEmpty capitalized && negb (String.eqb capitalized base) then
        let longer :=
          suggestions entry ++
          [suggestion (if nonEmpty originalTerm then originalTerm else base)
                      capitalized capitalizationReason] in
        mret (ReviewResult (Some capitalized) longer (lemma entry)
                           (partOfSpeech entry) (article entry),
              pushed parsed field longer)
      else mret (entry, parsed)
    else mret (entry, parsed)
  else mret (neutral, parsed).

Fixpoint reviewFields (body parsed : value) (fields : list string)
    (result : gmap string reviewResult) : outcome (gmap string reviewResult) :=
  match fields with
  | [] => mret result
  | field :: rest =>
      pass ← reviewField body parsed field;
      reviewFields body pass.2 rest (<[field := pass.1]> result)
  end.

Definition postSpellcheck (cfg : config) (authCookie reqBody : value)
    (o : oracle) : reviewResponse :=
  if negb (nonEmpty (ADMIN_PASSWORD cfg))
  then ReviewError 400 "AI login is not configured" else
  if negb (requireAuth authCookie) then ReviewError 401 "unauthorized" else
  if negb (openai cfg)
  then ReviewError 400 "Spellcheck is not configured" else
  let body := or_else reqBody (VObj ∅) in
  match fieldsToReview body with
  | [] => ReviewError 400 "Provide at least one user-entered field to review"
  | fields =>
      match parsed ← parsedAnswer "Empty response" o;
            reviewFields body parsed fields ∅ with
      | Done result => ReviewOk result
      | Thrown _ => ReviewError 500 "Spell review failed"
      end
  end.

End review.

(** ** Situational alternatives *)

Section alternatives.
Context `{Host}.

Definition AI_SITUATION_KEYS : list string :=
  ["arbeit"; "schwiegereltern"; "philosophie_3uhr"; "gasse_betrunken"; "behoerdlich"].

Definition emptyAlternativeResults : gmap string (list string) :=
  foldl (λ acc key, <[key := []]> acc) ∅ AI_SITUATION_KEYS.

(** [{ item, results }] *)
Record alternatives : Type := Alternatives {
  a_item : string;
  a_results : gmap string (list string)
}.

Definition toList (value : value) : list JS.value :=
  match value with
  | VArr items => items
  | VStr s => if nonEmpty (trim s) then [value] else []
  | _ => []
  end.

(** [values.map(...).filter(Boolean).slice(0, 3)] *)
Definition cleaned (values : list value) : list string :=
  take 3 (filter (λ s, nonEmpty s = true)
                 ((λ value, match value with VStr s => trim s | _ => "" end) <$> values)).

(** "Ungültige KI-Antwort" and "Keine Alternativen für " *)
Definition invalidAnswer : string :=
  "Ung" +:+ String (ascii_of_nat 252) "ltige KI-Antwort".
Definition noAlternatives (key : string) : string :=
  "Keine Alternativen f" +:+ String (ascii_of_nat 252) ("r " +:+ key).

(** The body of [AI_SITUATION_KEYS.forEach]. *)
Fixpoint normalizeKeys (results : value) (keys : list string)
    (normalized : gmap string (list string))
  : outcome (gmap string (list string)) :=
  match keys with
  | [] => mret normalized
  | key :: rest =>
      match cleaned (toList (prop key results)) with
      | [] => Thrown (noAlternatives key)
      | texts => normalizeKeys results rest (<[key := texts]> normalized)
      end
  end.

(** [payload.results && typeof payload.results === "object"
      ? payload.results : {}] *)
Definition resultsOf (payload : value) : value :=
  let r := prop "results" payload in
  if isObject r then r else VObj ∅.

Definition normalizeAlternativesResponse (payload : value) (itemText : string)
  : outcome alternatives :=
  if negb (truthy payload) || negb (typeof_object payload)
  then Thrown invalidAnswer else
  let results := resultsOf payload in
  normalized ← normalizeKeys results AI_SITUATION_KEYS emptyAlternativeResults;
  mret (Alternatives itemText normalized).

(** *** The stored records

    The collection is the list of its documents in the order they were
    inserted.  The schema trims [item], [alternative_text] and
    [model_version] of what is written and of the values a query
    compares with, and it refuses a document whose required strings are
    empty or whose situation is not one of the five. *)

Record alternative : Type := Alternative {
  item : string;
  situation : string;
  alternative_text : string;
  timestamp : Z;
  model_version : string
}.

Definition cast (doc : alternative) : alternative :=
  Alternative (trim (item doc)) (situation doc) (trim (alternative_text doc))
              (timestamp doc) (trim (model_version doc)).

Definition valid (doc : alternative) : bool :=
  nonEmpty (item doc) && bool_decide (situation doc ∈ AI_SITUATION_KEYS)
  && nonEmpty (alternative_text doc).

(** [Alternative.find({ item })] *)
Definition find (store : list alternative) (query : string) : list alternative :=
  filter (λ doc, item doc = trim query) store.

(** [Alternative.insertMany(docs)] *)
Definition insertMany (docs : list alternative) (store : list alternative)
  : outcome (list alternative) :=
  let docs := cast <$> docs in
  if forallb valid docs then mret (store ++ docs) else Thrown "ValidationError".

(** [Alternative.deleteMany({ item })], of
    [DELETE /api/entries/:id/ai-alternatives]. *)
Definition deleteMany (store : list alternative) (query : string) : list alternative :=
  filter (λ doc, item doc ≠ trim query) store.

(** [.sort({ timestamp: 1 })]: ascending, documents of one timestamp in
    the order of the collection. *)
Fixpoint place (doc : alternative) (sorted : list alternative) : list alternative :=
  match sorted with
  | [] => [doc]
  | d :: rest =>
      if (timestamp doc <? timestamp d)%Z then doc :: sorted
      else d :: place doc rest
  end.
Definition sortByTimestamp (docs : list alternative) : list alternative :=
  foldl (λ sorted doc, place doc sorted) [] docs.

(** The body of [docs.forEach] in [aggregateAlternatives]. *)
Definition collect (results : gmap string (list string)) (doc : alternative)
  : gmap string (list string) :=
  match results !! situation doc with
  | None => results
  | Some texts =>
      if bool_decide (alternative_text doc ∈ texts) then results
      else <[situation doc := texts ++ [alternative_text doc]]> results
  end.

Definition aggregateAlternatives (store : list alternative) (item : string)
  : alternatives :=
  let normalizedItem := trim item in
  if negb (nonEmpty normalizedItem)
  then Alternatives item emptyAlternativeResults
  else
    let docs := sortByTimestamp (find store normalizedItem) in
    Alternatives normalizedItem (foldl collect emptyAlternativeResults docs).

(** *** [POST /api/entries/ai-alternatives] *)

(** [existingDocs.reduce(...)]: per situation, the lower-cased texts
    that are stored. *)
Definition existingBySituation (existingDocs : list alternative)
  : gmap string (gset string) :=
  foldl (λ acc doc,
           let key := situation doc in
           let value := toLowerCase (alternative_text doc) in
           let set := default ∅ (acc !! key) in
           <[key := if nonEmpty value then {[value]} ∪ set else set]> acc)
        ∅ existingDocs.

(** [AI_SITUATION_KEYS.flatMap(...)] *)
Definition candidates (normalized : alternatives) (timestamp : Z)
    (modelVersion : string) : list alternative :=
  AI_SITUATION_KEYS ≫= λ key,
    (λ text, Alternative (a_item normalized) key text timestamp modelVersion)
      <$> default [] (a_results normalized !! key).

(** [docs.filter(...)], whose callback also adds to the sets it tests. *)
Fixpoint toInsert (existing : gmap string (gset string)) (docs : list alternative)
  : list alternative :=
  match docs with
  | [] => []
  | doc :: rest =>
      let key := situation doc in
      let value := toLowerCase (alternative_text doc) in
      if negb (nonEmpty value) then toInsert existing rest else
      let set := default ∅ (existing !! key) in
      if bool_decide (value ∈ set) then toInsert (<[key := set]> existing) rest
      else doc :: toInsert (<[key := {[value]} ∪ set]> existing) rest
  end.

Inductive alternativesResponse : Type :=
  | AlternativesError (status : nat) (error : string)
  | AlternativesOk (aggregated : alternatives).

(** The [try] block, from the answer to the aggregate: what is sent and
    the collection afterwards. *)
Definition generate (itemText : string) (o : oracle) (now : Z)
    (store : list alternative) : outcome (alternatives * list alternative) :=
  parsed ← parsedAnswer "Keine Antwort erhalten" o;
  normalized ← normalizeAlternativesResponse parsed itemText;
  let timestamp := now in
  let modelVersion :=
    match o with
    | Answered model _ => if nonEmpty model then model else "gpt-4o-mini"
    | Rejected _ => "gpt-4o-mini"
    end in
  let existingDocs := find store (a_item normalized) in
  let docs := candidates normalized timestamp modelVersion in
  let toInsert := toInsert (existingBySituation existingDocs) docs in
  store ← match toInsert with
          | [] => mret store
          | _ => insertMany toInsert store
          end;
  mret (aggregateAlternatives store (a_item normalized), store).

(** [typeof req.body?.item === "string" ? req.body.item : ""] *)
Definition requestedItem (reqBody : value) : string :=
  match reqBody with
  | VUndefined | VNull => ""
  | _ => match prop "item" reqBody with VStr s => s | _ => "" end
  end.

Definition postAiAlternatives (cfg : config) (reqBody : value) (o : oracle)
    (now : Z) (store : list alternative)
  : alternativesResponse * list alternative :=
  if negb (openai cfg)
  then (AlternativesError 400 "AI completion is not configured", store) else
  let itemText := requestedItem reqBody in
  if negb (nonEmpty (trim itemText))
  then (AlternativesError 400 "item is required", store) else
  match generate itemText o now store with
  | Done (aggregated, store) => (AlternativesOk aggregated, store)
  | Thrown message =>
      (AlternativesError 502
         (if nonEmpty message then message else "AI alternatives failed"), store)
  end.

End alternatives.

(** ** The session: [/api/auth/login], [/api/auth/logout], [/api/auth/status] *)

Section session.
Context `{Host}.

(** [password !== ADMIN_PASSWORD] is false of the very string only; an
    [ADMIN_PASSWORD] that is not set is the empty string of [config],
    which no truthy password equals either. *)
Definition isAdminPassword (cfg : config) (password : value) : bool :=
  match password with
  | VStr p => String.eqb p (ADMIN_PASSWORD cfg)
  | _ => false
  end.

(** What the handler answers with, and the cookie [duden_auth] the
    browser holds afterwards. *)
Definition postLogin (cfg : config) (reqBody authCookie : value) : nat * value :=
  let password := prop "password" (or_else reqBody (VObj ∅)) in
  if negb (truthy password) || negb (isAdminPassword cfg password)
  then (401, authCookie)
  else (200, VStr "1").

Definition postLogout (authCookie : value) : nat * value := (200, VUndefined).

(** [loggedIn] of [GET /api/auth/status]. *)
Definition getStatus (authCookie : value) : bool :=
  match authCookie with
  | VStr s => String.eqb s "1"
  | _ => false
  end.

End session.

(** ** The alternatives of an entry: [GET] and [DELETE]
       [/api/entries/:id/ai-alternatives], and the summary *)

Section stored_alternatives.
Context `{Host}.

(** [found] is what [Entry.findById(id)] ends in: the term of the entry,
    [null] for an unknown id, or an exception. *)
Definition getAiAlternatives (found : outcome (option string))
    (store : list alternative) : alternativesResponse :=
  match found with
  | Thrown _ => AlternativesError 500 "failed to load alternatives"
  | Done None => AlternativesError 404 "entry not found"
  | Done (Some term) => AlternativesOk (aggregateAlternatives store term)
  end.

Definition deleteAiAlternatives (found : outcome (option string))
    (store : list alternative) : alternativesResponse * list alternative :=
  match found with
  | Thrown _ => (AlternativesError 500 "failed to delete alternatives", store)
  | Done None => (AlternativesError 404 "entry not found", store)
  | Done (Some term) =>
      (AlternativesOk (Alternatives term emptyAlternativeResults),
       deleteMany store term)
  end.

(** [{ $group: { _id: "$item", count: { $sum: 1 } } }]: one group for
    every item that has documents, with their number. *)
Definition groupByItem (store : list alternative) : list (string * nat) :=
  (λ i, (i, length (filter (λ doc, item doc = i) store))) <$> unique (item <$> store).

(** [summary.reduce(...)] of [GET /api/entries/ai-alternatives/summary],
    as [res.json] writes it: the own properties of the accumulator.
    [acc[item._id] = item.count] creates or overwrites the property of
    that name, except for the name [__proto__]: assigning it on a plain
    object runs the setter of [Object.prototype], which ignores a number
    and creates nothing. *)
Definition getSummary (store : list alternative) : gmap string nat :=
  foldl (λ acc group,
           if String.eqb group.1 "__proto__" then acc
           else <[group.1 := group.2]> acc)
        ∅ (groupByItem store).

(** [countResults] of the web client, on the results of a response: the
    lengths of the five lists, added up. *)
Definition countResults (results : gmap string (list string)) : nat :=
  foldl (λ sum key, sum + length (default [] (results !! key))) 0 AI_SITUATION_KEYS.

End stored_alternatives.

(** ** The web client: the form of [App.jsx]

    The state [form] and the functions that update it or send it.  The
    values of its fields are whatever was put there: text of the inputs,
    or what the server answered with. *)

Module Web.
Section form.
Context `{Host}.

Record form : Type := Form {
  f_term : value;
  f_definition : value;
  f_example : value;
  f_synonyms : value;
  f_partOfSpeech : value;
  f_article : value
}.

Definition emptyForm : form :=
  Form (VStr "") (VStr "") (VStr "") (VStr "") (VArr []) (VStr "").

(** [typeof value === "string" ? value : value ? String(value) : ""] *)
Definition asText (value : value) : outcome string :=
  match value with
  | VStr s => mret s
  | _ => if truthy value then String_ value else mret ""
  end.

Definition asArray (value : value) : list JS.value :=
  if negb (truthy value) then [] else
  match value with
  | VArr items => filter (λ item, truthy item = true) items
  | _ => filter (λ item, truthy item = true) [value]
  end.

(** The client's [capitalizeFirst], which gives back what is not a
    string, and the empty string, as it came. *)
Definition capitalizeFirst (value : value) : JS.value :=
  match value with
  | VStr (String c rest) => VStr (toUpperCase (String c EmptyString) +:+ rest)
  | _ => value
  end.

(** [.map((p) => asText(p).trim().toLowerCase())] *)
Definition lowered (values : list value) : outcome (list string) :=
  mapM (λ p, s ← asText p; mret (toLowerCase (trim s))) values.

(** [.map(...).filter(Boolean)] *)
Definition tags (value : value) : outcome (list string) :=
  list ← lowered (asArray value);
  mret (filter (λ tag, nonEmpty tag = true) list).

(** The callback [togglePartOfSpeech(value)] gives to [setForm]. *)
Definition togglePartOfSpeech (value : string) (current : form) : outcome form :=
  currentList ← lowered (asArray (f_partOfSpeech current));
  let has := bool_decide (value ∈ currentList) in
  let next := if has then [] else [value] in
  let article := if bool_decide ("noun" ∈ next) then f_article current else VStr "" in
  let nextTerm :=
    if bool_decide ("noun" ∈ next) && truthy (f_term current)
    then capitalizeFirst (f_term current) else f_term current in
  mret (Form nextTerm (f_definition current) (f_example current)
             (f_synonyms current) (VArr (VStr <$> next)) article).

(** [applyMorphologyFromReview(reviewData)]: the form afterwards, which
    is [current] itself where the function returns early or the callback
    returns [current]. *)
Definition applyMorphologyFromReview (reviewData : value) (current : form)
  : outcome form :=
  let termReview :=
    match reviewData with
    | VUndefined | VNull => VUndefined
    | _ => prop "term" reviewData
    end in
  if negb (truthy termReview) then mret current else
  suggested ← tags (prop "partOfSpeech" termReview);
  let suggestedPos := take 1 suggested in
  article ← asText (prop "article" termReview);
  let suggestedArticle := toLowerCase (trim article) in
  if bool_decide (suggestedPos = []) && negb (nonEmpty suggestedArticle)
  then mret current else
  currentPos ← tags (f_partOfSpeech current);
  article ← asText (f_article current);
  let currentArticle := toLowerCase (trim article) in
  let fill := bool_decide (currentPos = []) && negb (bool_decide (suggestedPos = [])) in
  let nextPos := if fill then suggestedPos else currentPos in
  let nextArticle :=
    if fill && negb (bool_decide ("noun" ∈ suggestedPos))
    then VStr "" else f_article current in
  let targetPos := if bool_decide (nextPos = []) then suggestedPos else nextPos in
  let adopt :=
    bool_decide ("noun" ∈ targetPos) && negb (nonEmpty currentArticle)
    && nonEmpty suggestedArticle in
  let nextArticle := if adopt then VStr suggestedArticle else nextArticle in
  let changed := fill || adopt in
  mret (if changed
        then Form (f_term current) (f_definition current) (f_example current)
                  (f_synonyms current) (VArr (VStr <$> nextPos)) nextArticle
        else current).

(** [asText(payload.x) || current.x] *)
Definition textOr (answer current : value) : outcome value :=
  text ← asText answer;
  mret (if nonEmpty text then VStr text else current).

(** The callback [completeWithAi] gives to [setForm] with the answer of
    a completion; [payload] is the parsed body of the response, whose
    first property read throws when it is [null]. *)
Definition completedForm (payload : value) (current : form) : outcome form :=
  partOfSpeech ← get "partOfSpeech" payload;
  payloadTags ← tags partOfSpeech;
  let payloadPos := take 1 payloadTags in
  article ← asText (prop "article" payload);
  let payloadArticle := toLowerCase (trim article) in
  currentPos ← tags (f_partOfSpeech current);
  let nextPos := if bool_decide (payloadPos = []) then currentPos else payloadPos in
  let hasNoun := bool_decide ("noun" ∈ nextPos) in
  nextArticle ←
    (if hasNoun
     then if nonEmpty payloadArticle then mret payloadArticle
          else article ← asText (f_article current);
               mret (toLowerCase (trim article))
     else mret "");
  definition ← textOr (prop "definition" payload) (f_definition current);
  example ← textOr (prop "example" payload) (f_example current);
  synonyms ← textOr (prop "synonyms" payload) (f_synonyms current);
  mret (Form (f_term current) definition example synonyms
             (VArr (VStr <$> nextPos)) (VStr nextArticle)).

(** The body [submitEntry] sends once the user is logged in, as the
    server reads it: [JSON.stringify] leaves out the properties that are
    [undefined].  [None] where the client refuses itself, asking for the
    article of a noun. *)
Definition submitEntry (current : form) : outcome (option value) :=
  list ← mapM (λ p, s ← asText p; mret (trim (toLowerCase s)))
              (asArray (f_partOfSpeech current));
  let normalizedPos := filter (λ tag, nonEmpty tag = true) list in
  let primaryPos := take 1 normalizedPos in
  article ← asText (f_article current);
  let normalizedArticle := toLowerCase (trim article) in
  if bool_decide ("noun" ∈ primaryPos) && negb (nonEmpty normalizedArticle)
  then mret None else
  term ← asText (f_term current);
  definition ← asText (f_definition current);
  example ← asText (f_example current);
  synonyms ← asText (f_synonyms current);
  let texts : gmap string value :=
    <["term" := VStr (trim term)]>
      (<["definition" := VStr (trim definition)]>
         (<["example" := VStr (trim example)]>
            {["synonyms" := VStr (trim synonyms)]})) in
  let withPos :=
    if bool_decide (primaryPos = []) then texts
    else <["partOfSpeech" := VArr (VStr <$> primaryPos)]> texts in
  let payload :=
    if bool_decide ("noun" ∈ primaryPos)
    then <["article" := VStr normalizedArticle]> withPos else withPos in
  mret (Some (VObj payload)).

End form.
End Web.

(** ** Vocabulary of the properties *)

Section vocabulary.
Context `{Host}.

(** The values [String] converts: every value but an object with an own
    [toString] property, and the arrays that hold one. *)
Fixpoint convertible (v : value) : bool :=
  match v with
  | VArr items => forallb convertible items
  | VObj m => bool_decide (m !! "toString" = None)
  | _ => true
  end.

(** What [join] does with an item. *)
Definition joined (x : value) : outcome string :=
  match x with
  | VUndefined | VNull => Done ""
  | _ => String_ x
  end.

(** [v === undefined || v === null], what [??] tests. *)
Definition isNullish (v : value) : bool :=
  match v with
  | VUndefined | VNull => true
  | _ => false
  end.

(** The four content fields of a completion, by name. *)
Definition contentFields : list (string * (completed → value)) :=
  [("term", c_term); ("definition", c_definition);
   ("example", c_example); ("synonyms", c_synonyms)].

(** The stored texts of an item in a situation, in the order of the
    collection. *)
Definition storedTexts (store : list alternative) (i s : string) : list string :=
  alternative_text <$> filter (λ doc, item doc = i ∧ situation doc = s) store.

(** The invariant of the collection: in every item and situation the
    texts differ, also when letter case is ignored. *)
Definition caseInsensitiveUnique (store : list alternative) : Prop :=
  ∀ i s, NoDup (toLowerCase <$> storedTexts store i s).

(** The texts of a parsed answer for a situation, as the normalization
    keeps them. *)
Definition oracleTexts (parsed : value) (s : string) : list string :=
  if decide (s ∈ AI_SITUATION_KEYS)
  then cleaned (toList (prop s (resultsOf parsed))) else [].

(** The order of the aggregate: by the time of insertion. *)
Definition notLater (a b : alternative) : Prop := (timestamp a ≤ timestamp b)%Z.

(** The step of [collect] on the list of one situation. *)
Definition addText (texts : list string) (text : string) : list string :=
  if bool_decide (text ∈ texts) then texts else texts ++ [text].

(** The calls that write to the collection: a generation, and the
    deletion of the alternatives of a term. *)
Inductive write : Type :=
  | Generated (cfg : config) (reqBody : value) (o : oracle) (now : Z)
  | Deleted (term : string).

Definition written (store : list alternative) (w : write) : list alternative :=
  match w with
  | Generated cfg reqBody o now => (postAiAlternatives cfg reqBody o now store).2
  | Deleted term => deleteMany store term
  end.

(** The collection after a sequence of such calls, one after the other,
    on the empty collection. *)
Definition history (writes : list write) : list alternative :=
  foldl written [] writes.

(** The set a situation has in [existingBySituation], empty when it has
    none. *)
Definition seen (existing : gmap string (gset string)) (s : string) : gset string :=
  default ∅ (existing !! s).

End vocabulary.

(** ** Vocabulary of the further properties *)

Section vocabulary_more.
Context `{Host}.

(** What holds of every entry of a review: a corrected value is not the
    empty string, a lemma is trimmed and not empty, the part of speech is
    empty or one of the nine tags, an article is the lower-cased trimmed
    form of a string that is not blank. *)
Definition wellFormed (entry : reviewResult) : Prop :=
  corrected entry ≠ Some "" ∧
  (∀ l, lemma entry = Some l → l ≠ "" ∧ trim l = l) ∧
  (partOfSpeech entry = [] ∨ ∃ tag, partOfSpeech entry = [tag] ∧ tag ∈ allowedPos) ∧
  (∀ a, article entry = Some a → ∃ s, trim s ≠ "" ∧ a = toLowerCase (trim s)).

(** The suggestions the oracle's answer has for a field: its array, or
    none. *)
Definition proposedSuggestions (value : value) : list JS.value :=
  match prop "suggestions" value with VArr l => l | _ => [] end.

(** The number of stored documents of an item. *)
Definition storedCount (store : list alternative) (i : string) : nat :=
  length (filter (λ doc, item doc = i) store).

End vocabulary_more.

(** * Properties *)

(** Closed statements about concrete requests: equations between the
    results of evaluating the handlers. *)
Ltac by_computation :=
  intros; repeat match goal with |- _ ∧ _ => split end; reflexivity.

(** ** Strings, lists and conversions *)

Lemma trimEnd_keep c rest :
  isWhiteSpace c = false → trimEnd (String c rest) = String c (trimEnd rest).
Proof. intros Hc. simpl. rewrite Hc. by destruct (trimEnd rest). Qed.

Lemma trimEnd_cons c rest :
  trimEnd (String c rest) =
  match trimEnd rest with
  | EmptyString => if isWhiteSpace c then EmptyString else String c EmptyString
  | kept => String c kept
  end.
Proof. done. Qed.

Lemma trimEnd_idem s : trimEnd (trimEnd s) = trimEnd s.
Proof.
  induction s as [|c rest IH]; [done|].
  rewrite trimEnd_cons. destruct (trimEnd rest) as [|k kept] eqn:Hrest.
  - destruct (isWhiteSpace c) eqn:Hc; [done|]. simpl. by rewrite Hc.
  - by rewrite trimEnd_cons, IH.
Qed.

Lemma trimStart_head s :
  trimStart s = "" ∨ ∃ c rest, trimStart s = String c rest ∧ isWhiteSpace c = false.
Proof.
  induction s as [|c rest IH]; [by left|].
  simpl. destruct (isWhiteSpace c) eqn:Hc; [done|]. right. eauto.
Qed.

(** Trimming what is trimmed changes nothing. *)
Lemma trim_idem s : trim (trim s) = trim s.
Proof.
  unfold trim. destruct (trimStart_head s) as [->|(c & rest & -> & Hc)]; [done|].
  rewrite (trimEnd_keep _ _ Hc). simpl. rewrite Hc.
  rewrite (trimEnd_keep _ _ Hc). by rewrite trimEnd_idem.
Qed.

Lemma nonEmpty_spec s : nonEmpty s = true ↔ s ≠ "".
Proof.
  unfold nonEmpty. rewrite negb_true_iff.
  destruct (String.eqb_spec s ""); naive_solver.
Qed.

Lemma unique_head l : take 1 (unique l) = take 1 l.
Proof. by destruct l. Qed.

Lemma take_1_filter_elem (P : string → Prop) `{!∀ x, Decision (P x)} l t :
  take 1 (filter P l) = [t] → P t ∧ t ∈ l.
Proof.
  intros Ht. assert (t ∈ filter P l) as Hin.
  { destruct (filter P l) as [|x rest]; [done|]. simpl in Ht.
    rewrite take_0 in Ht. inversion Ht. left. }
  by apply list_elem_of_filter in Hin.
Qed.

Lemma take_1_cases {A} (l : list A) : take 1 l = [] ∨ ∃ x, take 1 l = [x].
Proof. destruct l as [|x rest]; [by left|]. right. exists x. simpl. by rewrite take_0. Qed.

Section conversions.
Context `{Host}.

(** Induction on a value, with the items of an array. *)
Lemma value_items_ind (P : value → Prop) :
  P VUndefined → P VNull → (∀ b, P (VBool b)) → (∀ n, P (VNum n)) →
  (∀ s, P (VStr s)) → (∀ items, Forall P items → P (VArr items)) →
  (∀ m, P (VObj m)) → ∀ v, P v.
Proof.
  intros Hu Hn Hb Hnum Hs Harr Hobj. fix IH 1.
  intros [| |b|n|s|items|m];
    [exact Hu|exact Hn|apply Hb|apply Hnum|apply Hs| |apply Hobj].
  apply Harr. induction items as [|x rest IHitems]; constructor.
  - apply IH.
  - exact IHitems.
Qed.

Lemma String_array x rest :
  String_ (VArr (x :: rest)) =
  match rest with
  | [] => joined x
  | _ => s ← joined x; t ← String_ (VArr rest); Done (s +:+ "," +:+ t)
  end.
Proof. by destruct rest. Qed.

Lemma String_convertible v : convertible v = true → ∃ s, String_ v = Done s.
Proof.
  induction v as [| |b|n|s|items IH|m] using value_items_ind;
    try (simpl; by eauto).
  - induction items as [|x rest IHrest]; [simpl; eauto|].
    apply Forall_cons in IH as [Hx IH]. intros Hall.
    simpl in Hall. apply andb_true_iff in Hall as [Hcx Hrest].
    destruct (IHrest IH Hrest) as [t Ht]. destruct (Hx Hcx) as [sx Hsx].
    assert (∃ s, joined x = Done s) as [s Hs] by (destruct x; simpl; eauto).
    rewrite String_array, Hs, Ht. destruct rest; simpl; eauto.
  - simpl. intros Hm. apply bool_decide_eq_true in Hm. rewrite Hm. eauto.
Qed.

Lemma String_throws v : convertible v = false → String_ v = Thrown TypeError.
Proof.
  induction v as [| |b|n|s|items IH|m] using value_items_ind; try done.
  - induction items as [|x rest IHrest]; [done|].
    apply Forall_cons in IH as [Hx IH]. intros Hall.
    simpl in Hall. rewrite String_array.
    destruct (convertible x) eqn:Hcx.
    + simpl in Hall. specialize (IHrest IH Hall).
      destruct (String_convertible x Hcx) as [sx Hsx].
      assert (∃ s, joined x = Done s) as [s Hs] by (destruct x; simpl; eauto).
      rewrite Hs, IHrest. by destruct rest.
    + assert (joined x = Thrown TypeError) as -> by (destruct x; try done; by apply Hx).
      by destruct rest.
  - simpl. intros Hm. apply bool_decide_eq_false in Hm.
    by destruct (m !! "toString").
Qed.

End conversions.

(** ** Morphology *)

Section morphology_facts.
Context `{Host}.

Lemma canonical_convertible v :
  convertible v = true → ∃ name, canonical v = Done name.
Proof.
  intros Hv. destruct (String_convertible v Hv) as [s Hs].
  unfold canonical. rewrite Hs. simpl. eauto.
Qed.

Lemma mapM_canonical items :
  forallb convertible items = true → ∃ names, mapM canonical items = Done names.
Proof.
  induction items as [|x rest IH]; simpl; [eauto|].
  intros [Hx Hrest]%andb_true_iff.
  destruct (canonical_convertible x Hx) as [name ->].
  destruct (IH Hrest) as [names ->]. simpl. eauto.
Qed.


Lemma asList_convertible v :
  convertible v = true → forallb convertible (asList v) = true.
Proof. destruct v; simpl; try done. intros ->. done. Qed.

(** A normalization that returns gives no tag or one allowed tag. *)
Lemma normalizePartOfSpeech_shape v tags :
  normalizePartOfSpeech v = Done tags →
  tags = [] ∨ ∃ tag, tags = [tag] ∧ tag ∈ allowedPos.
Proof.
  unfold normalizePartOfSpeech. destruct (truthy v); simpl.
  - destruct (mapM canonical (asList v)) as [names|]; simpl; [|done].
    intros [= <-]. rewrite unique_head.
    destruct (take_1_cases (filter (λ item, item ∈ allowedPos) names)) as [->|[t Ht]];
      [by left|right].
    exists t. split; [done|]. by apply take_1_filter_elem in Ht as [? _].
  - intros [= <-]. by left.
Qed.

Lemma normalizePartOfSpeech_returns v :
  convertible v = true → ∃ tags, normalizePartOfSpeech v = Done tags.
Proof.
  intros Hv. unfold normalizePartOfSpeech. destruct (truthy v); simpl; [|eauto].
  destruct (mapM_canonical _ (asList_convertible v Hv)) as [names ->].
  simpl. eauto.
Qed.

Lemma normalizeArticle_returns v :
  convertible v = true → ∃ a, normalizeArticle v = Done a.
Proof.
  intros Hv. unfold normalizeArticle. destruct (truthy v); simpl; [|eauto].
  destruct (String_convertible v Hv) as [s ->]. simpl.
  case_bool_decide; eauto.
Qed.

Lemma normalizeArticle_shape v a :
  normalizeArticle v = Done (Some a) → a ∈ ["der"; "die"; "das"].
Proof.
  unfold normalizeArticle. destruct (truthy v); simpl; [|done].
  destruct (String_ v) as [s|]; simpl; [|done].
  case_bool_decide; [|done]. by intros [= <-].
Qed.

Lemma mapM_canonical_throws items :
  forallb convertible items = false → mapM canonical items = Thrown TypeError.
Proof.
  induction items as [|x rest IH]; [done|]. simpl.
  destruct (convertible x) eqn:Hx; simpl.
  - intros Hrest. destruct (canonical_convertible x Hx) as [name ->].
    simpl. by rewrite (IH Hrest).
  - intros _. unfold canonical. by rewrite (String_throws x Hx).
Qed.

(** When the normalization of a part of speech throws. *)
Lemma normalizePartOfSpeech_throws_iff v message :
  normalizePartOfSpeech v = Thrown message ↔
  truthy v = true ∧ convertible v = false ∧ message = TypeError.
Proof.
  split.
  - destruct (convertible v) eqn:Hv.
    + destruct (normalizePartOfSpeech_returns v Hv) as [tags ->]. done.
    + unfold normalizePartOfSpeech. destruct (truthy v); [|done]. simpl.
      assert (forallb convertible (asList v) = false) as Hitems
        by (destruct v; simpl in *; rewrite ?Hv; done).
      rewrite (mapM_canonical_throws _ Hitems). simpl. by intros [= <-].
  - intros (Ht & Hv & ->). unfold normalizePartOfSpeech. rewrite Ht. simpl.
    assert (forallb convertible (asList v) = false) as Hitems
      by (destruct v; simpl in *; rewrite ?Hv; done).
    by rewrite (mapM_canonical_throws _ Hitems).
Qed.

Lemma normalizeArticle_throws_iff v message :
  normalizeArticle v = Thrown message ↔
  truthy v = true ∧ convertible v = false ∧ message = TypeError.
Proof.
  split.
  - destruct (convertible v) eqn:Hv.
    + destruct (normalizeArticle_returns v Hv) as [a ->]. done.
    + unfold normalizeArticle. destruct (truthy v); [|done]. simpl.
      rewrite (String_throws v Hv). simpl. by intros [= <-].
  - intros (Ht & Hv & ->). unfold normalizeArticle. rewrite Ht. simpl.
    by rewrite (String_throws v Hv).
Qed.


End morphology_facts.




(** The error result of a noun without an article carries the German
    sentence. *)
Example validateMorphology_message :
  validateMorphology (H := latin_host) (VArr [VStr "noun"]) (VStr "")
  = Done (MorphError articleRequired) ∧
  validateMorphology (H := latin_host) (VArr [VStr "noun"]) (VStr "")
  ≠ Done (MorphError "article required").
Proof. split; [reflexivity|discriminate]. Qed.




(** ** Saving an entry *)




(** ** Field completion *)

Section completion_facts.
Context `{Host}.

Lemma nullish_cases (a b : value) :
  nullish a b = if isNullish a then b else a.
Proof. by destruct a. Qed.

Lemma get_Done k v w : get k v = Done w → isNullish v = false ∧ w = prop k v.
Proof. destruct v; simpl; intros [= <-]; done. Qed.

(** A completion that succeeds had a parsed answer, and its fields are
    those of [mergeCompletion]. *)
Lemma postAiComplete_ok cfg authCookie reqBody o fields :
  postAiComplete cfg authCookie reqBody o = CompleteOk fields →
  ∃ model parsed,
    o = Answered model (Json parsed) ∧
    mergeCompletion (or_else reqBody (VObj ∅)) parsed = Done fields.
Proof.
  unfold postAiComplete.
  destruct (negb (nonEmpty (ADMIN_PASSWORD cfg))); [done|].
  destruct (negb (requireAuth authCookie)); [done|].
  destruct (negb (openai cfg)); [done|].
  destruct (_ && _ && _ && _); [done|].
  destruct o as [message|model [|message|parsed]]; simpl; try done.
  destruct (mergeCompletion _ parsed) as [merged|] eqn:Hmerge; [|done].
  intros [= <-]. eauto.
Qed.

Lemma mergeCompletion_ok body parsed fields :
  mergeCompletion body parsed = Done fields →
  isNullish parsed = false ∧
  normalizePartOfSpeech
    (nullish (prop "partOfSpeech" parsed) (prop "partOfSpeech" body))
    = Done (c_partOfSpeech fields) ∧
  c_article fields =
    nullish (nullish (prop "article" parsed) (prop "article" body)) (VStr "") ∧
  Forall (λ field : string * (completed → value),
            field.2 fields =
            nullish (nullish (prop field.1 parsed) (prop field.1 body)) (VStr ""))
         contentFields.
Proof.
  unfold mergeCompletion. intros Hmerge.
  assert (isNullish parsed = false) as Hparsed by (by destruct parsed).
  split; [done|].
  assert (∀ k, get k parsed = Done (prop k parsed)) as Hget
    by (intros k; by destruct parsed).
  rewrite !Hget in Hmerge. simpl in Hmerge.
  destruct (normalizePartOfSpeech _) as [pos|]; [|done].
  simpl in Hmerge. injection Hmerge as <-. simpl.
  split; [done|]. split; [done|].
  unfold contentFields. repeat constructor.
Qed.

End completion_facts.

(** C1, as the specification states it, fails: with the part of speech
    [["noun"]] and the article ["die"] in the request, an answer of the
    oracle that proposes [["verb"]] gives [["verb"]], and one that proposes
    the article ["der"] gives ["der"]. *)
Lemma completion_overwrites_morphology :
  let cfg := Config "secret" true in
  let body : value (H := latin_host) :=
    VObj (list_to_map [("term", VStr "Katze"); ("partOfSpeech", VArr [VStr "noun"]);
                       ("article", VStr "die")]) in
  let verb : value (H := latin_host) :=
    VObj (list_to_map [("definition", VStr "ein Haustier");
                       ("partOfSpeech", VArr [VStr "verb"])]) in
  let der : value (H := latin_host) :=
    VObj (list_to_map [("definition", VStr "ein Haustier"); ("article", VStr "der")]) in
  postAiComplete cfg (VStr "1") body (Answered "gpt-4o-mini" (Json verb))
  = CompleteOk (Completed (VStr "Katze") (VStr "ein Haustier") (VStr "") (VStr "")
                          ["verb"] (VStr "die")) ∧
  postAiComplete cfg (VStr "1") body (Answered "gpt-4o-mini" (Json der))
  = CompleteOk (Completed (VStr "Katze") (VStr "ein Haustier") (VStr "") (VStr "")
                          ["noun"] (VStr "der")).
Proof. by_computation. Qed.

(** C1, amended.  For every completion that succeeds, the part of speech
    of the result is the normalization of the one the oracle's answer
    proposes whenever the answer has one (neither [undefined] nor [null]),
    whatever the request held, and the normalization of the request's only
    when the answer has none; the article is the answer's whenever it has
    one, else the request's, else the empty string.  So the morphology of
    the request is retained when the answer leaves the field out, a part
    of speech that is one allowed tag in its canonical spelling then
    coming back unchanged, and it is replaced otherwise. *)
Theorem completion_morphology `{Host}
    (cfg : config) (authCookie reqBody : value) (o : oracle) (fields : completed) :
  postAiComplete cfg authCookie reqBody o = CompleteOk fields →
  let body := or_else reqBody (VObj ∅) in
  ∃ model parsed,
    o = Answered model (Json parsed) ∧
    (isNullish (prop "partOfSpeech" parsed) = false →
       normalizePartOfSpeech (prop "partOfSpeech" parsed) = Done (c_partOfSpeech fields)) ∧
    (isNullish (prop "partOfSpeech" parsed) = true →
       normalizePartOfSpeech (prop "partOfSpeech" body) = Done (c_partOfSpeech fields) ∧
       ∀ tag, prop "partOfSpeech" body = VArr [VStr tag] →
              tag ∈ allowedPos → trim (toLowerCase tag) = tag →
              c_partOfSpeech fields = [tag]) ∧
    (isNullish (prop "article" parsed) = false →
       c_article fields = prop "article" parsed) ∧
    (isNullish (prop "article" parsed) = true →
       c_article fields =
       if isNullish (prop "article" body) then VStr "" else prop "article" body).
Proof.
  intros Hok body.
  destruct (postAiComplete_ok _ _ _ _ _ Hok) as (model & parsed & -> & Hmerge).
  apply mergeCompletion_ok in Hmerge as (_ & Hpos & Hart & _). fold body in Hpos, Hart.
  exists model, parsed. split; [done|].
  split; [|split; [|split]].
  - intros Hp. by destruct (prop "partOfSpeech" parsed).
  - intros Hp. assert (normalizePartOfSpeech (prop "partOfSpeech" body)
                       = Done (c_partOfSpeech fields)) as Hbody
      by (by destruct (prop "partOfSpeech" parsed)).
    split; [done|]. intros tag Htag Hallowed Hcanon. rewrite Htag in Hbody.
    unfold normalizePartOfSpeech, canonical in Hbody. simpl in Hbody.
    rewrite Hcanon in Hbody. rewrite filter_cons_True in Hbody by done.
    simpl in Hbody. by injection Hbody as <-.
  - intros Ha. rewrite Hart. by destruct (prop "article" parsed).
  - intros Ha. rewrite Hart.
    destruct (prop "article" parsed); try done; by destruct (prop "article" body).
Qed.

Lemma completion_morphology_witness :
  let body : value (H := latin_host) :=
    VObj (list_to_map [("term", VStr "Katze"); ("partOfSpeech", VArr [VStr "noun"]);
                       ("article", VStr "die")]) in
  let parsed : value (H := latin_host) :=
    VObj (list_to_map [("definition", VStr "ein Haustier")]) in
  ∃ fields,
    postAiComplete (Config "secret" true) (VStr "1") body
                   (Answered "gpt-4o-mini" (Json parsed)) = CompleteOk fields ∧
    c_partOfSpeech fields = ["noun"] ∧ c_article fields = VStr "die".
Proof.
  intros body parsed.
  pose (expected := Completed (H := latin_host) (VStr "Katze") (VStr "ein Haustier")
                      (VStr "") (VStr "") ["noun"] (VStr "die")).
  assert (postAiComplete (Config "secret" true) (VStr "1") body
            (Answered "gpt-4o-mini" (Json parsed)) = CompleteOk expected)
    as Hok by reflexivity.
  exists expected. split; [exact Hok|].
  destruct (completion_morphology (H := latin_host) _ _ _ _ _ Hok)
    as (model & parsed' & Ho & _ & Hpos & _ & Hart).
  injection Ho as _ <-. split.
  - apply (proj2 (Hpos eq_refl) "noun"); [reflexivity|left|reflexivity].
  - exact (Hart eq_refl).
Defined.

(** C6, as the specification states it, fails: an empty string in the
    oracle's answer replaces the text of the request. *)
Lemma completion_keeps_empty_answer :
  let body : value (H := latin_host) :=
    VObj (list_to_map [("term", VStr "laufen"); ("definition", VStr "sich bewegen")]) in
  let parsed : value (H := latin_host) :=
    VObj (list_to_map [("term", VStr "laufen"); ("definition", VStr "");
                       ("example", VStr "Er kann laufen.")]) in
  postAiComplete (Config "secret" true) (VStr "1") body
                 (Answered "gpt-4o-mini" (Json parsed))
  = CompleteOk (Completed (VStr "laufen") (VStr "") (VStr "Er kann laufen.") (VStr "")
                          [] (VStr "")).
Proof. by_computation. Qed.

(** C6, amended.  For every completion that succeeds, each of the four
    content fields of the result is the value the oracle's answer has for
    it whenever the answer has one (neither [undefined] nor [null]), an
    empty string too; it is the value of the request when the answer
    leaves the field out or gives [null], and the empty string when the
    request has none either. *)
Theorem completion_content `{Host}
    (cfg : config) (authCookie reqBody : value) (o : oracle) (fields : completed) :
  postAiComplete cfg authCookie reqBody o = CompleteOk fields →
  let body := or_else reqBody (VObj ∅) in
  ∃ model parsed,
    o = Answered model (Json parsed) ∧
    Forall (λ field : string * (completed → value),
              let answered := prop field.1 parsed in
              let given := prop field.1 body in
              (isNullish answered = false → field.2 fields = answered) ∧
              (answered = VStr "" → field.2 fields = VStr "") ∧
              (isNullish answered = true → isNullish given = false →
                 field.2 fields = given) ∧
              (isNullish answered = true → isNullish given = true →
                 field.2 fields = VStr ""))
           contentFields.
Proof.
  intros Hok body.
  destruct (postAiComplete_ok _ _ _ _ _ Hok) as (model & parsed & -> & Hmerge).
  apply mergeCompletion_ok in Hmerge as (_ & _ & _ & Hcontent). fold body in Hcontent.
  exists model, parsed. split; [done|].
  eapply Forall_impl; [exact Hcontent|].
  intros [name read] Hread. simpl in *. rewrite Hread.
  split; [|split; [|split]].
  - by destruct (prop name parsed).
  - by intros ->.
  - intros Ha Hg. destruct (prop name parsed); try done; by destruct (prop name body).
  - intros Ha Hg. destruct (prop name parsed); try done; by destruct (prop name body).
Qed.

Lemma completion_content_witness :
  let body : value (H := latin_host) :=
    VObj (list_to_map [("term", VStr "laufen"); ("synonyms", VStr "rennen")]) in
  let parsed : value (H := latin_host) :=
    VObj (list_to_map [("definition", VStr "sich bewegen"); ("synonyms", VNull)]) in
  ∃ fields,
    postAiComplete (Config "secret" true) (VStr "1") body
                   (Answered "gpt-4o-mini" (Json parsed)) = CompleteOk fields ∧
    c_term fields = VStr "laufen" ∧ c_definition fields = VStr "sich bewegen" ∧
    c_example fields = VStr "" ∧ c_synonyms fields = VStr "rennen".
Proof.
  intros body parsed.
  pose (expected := Completed (H := latin_host) (VStr "laufen") (VStr "sich bewegen")
                      (VStr "") (VStr "rennen") [] (VStr "")).
  assert (postAiComplete (Config "secret" true) (VStr "1") body
            (Answered "gpt-4o-mini" (Json parsed)) = CompleteOk expected)
    as Hok by reflexivity.
  exists expected. split; [exact Hok|].
  destruct (completion_content (H := latin_host) _ _ _ _ _ Hok)
    as (model & parsed' & Ho & Hfields).
  injection Ho as _ <-.
  apply Forall_cons in Hfields as [Hterm Hfields].
  apply Forall_cons in Hfields as [Hdefinition Hfields].
  apply Forall_cons in Hfields as [Hexample Hfields].
  apply Forall_cons in Hfields as [Hsynonyms _].
  split; [exact (proj1 (proj2 (proj2 Hterm)) eq_refl eq_refl)|].
  split; [exact (proj1 Hdefinition eq_refl)|].
  split; [exact (proj2 (proj2 (proj2 Hexample)) eq_refl eq_refl)|].
  exact (proj1 (proj2 (proj2 Hsynonyms)) eq_refl eq_refl).
Defined.

(** ** Situational alternatives: the oracle's answer *)

Section answer_facts.
Context `{Host}.

(** Every coerced list holds at most three strings, each non-empty and
    trimmed. *)
Lemma cleaned_trimmed values :
  length (cleaned values) ≤ 3 ∧
  Forall (λ text, text ≠ "" ∧ trim text = text) (cleaned values).
Proof.
  unfold cleaned. split; [rewrite length_take; lia|].
  apply Forall_take, Forall_forall. intros text [Hfull Hin]%list_elem_of_filter.
  apply nonEmpty_spec in Hfull. split; [done|].
  apply list_elem_of_fmap in Hin as (v & -> & _).
  destruct v; try done. apply trim_idem.
Qed.

Lemma foldl_insert_lookup (f : string → list string) keys
    (acc : gmap string (list string)) key :
  foldl (λ acc k, <[k := f k]> acc) acc keys !! key =
  if decide (key ∈ keys) then Some (f key) else acc !! key.
Proof.
  revert acc. induction keys as [|k rest IH]; intros acc.
  - case_decide as Hin; [by apply elem_of_nil in Hin|done].
  - change (foldl (λ acc k, <[k := f k]> acc) (<[k := f k]> acc) rest !! key =
            if decide (key ∈ k :: rest) then Some (f key) else acc !! key).
    rewrite IH. destruct (decide (key ∈ rest)) as [Hin|Hout].
    + case_decide as Hin'; [done|]. exfalso. apply Hin'. by right.
    + destruct (decide (key = k)) as [->|Hne].
      * rewrite lookup_insert_eq. case_decide as Hin'; [done|].
        exfalso. apply Hin'. left.
      * rewrite lookup_insert_ne by done.
        case_decide as Hin'; [|done].
        by apply elem_of_cons in Hin' as [?|?].
Qed.

(** The loop over the keys ends well exactly when no key is left with
    an empty list, and then stores the coerced list under every key. *)
Lemma normalizeKeys_Done results keys acc :
  (∀ key, key ∈ keys → cleaned (toList (prop key results)) ≠ []) →
  normalizeKeys results keys acc =
  Done (foldl (λ acc k, <[k := cleaned (toList (prop k results))]> acc) acc keys).
Proof.
  revert acc. induction keys as [|k rest IH]; intros acc Hfull; [done|].
  simpl. destruct (cleaned (toList (prop k results))) as [|t texts] eqn:Hk.
  - exfalso. apply (Hfull k); [left|done].
  - by rewrite IH by (intros; apply Hfull; by right).
Qed.

Lemma normalizeKeys_Thrown results keys acc key :
  key ∈ keys → cleaned (toList (prop key results)) = [] →
  ∃ missing, missing ∈ keys ∧ normalizeKeys results keys acc = Thrown (noAlternatives missing).
Proof.
  revert acc. induction keys as [|k rest IH]; intros acc Hin Hempty.
  - by apply elem_of_nil in Hin.
  - simpl. destruct (cleaned (toList (prop k results))) as [|t texts] eqn:Hk.
    + exists k. split; [left|done].
    + apply elem_of_cons in Hin as [->|Hin]; [congruence|].
      destruct (IH (<[k := t :: texts]> acc) Hin Hempty) as (missing & ? & ->).
      exists missing. split; [by right|done].
Qed.

Lemma emptyAlternativeResults_lookup key :
  emptyAlternativeResults !! key =
  if decide (key ∈ AI_SITUATION_KEYS) then Some [] else None.
Proof.
  unfold emptyAlternativeResults.
  rewrite (foldl_insert_lookup (λ _, [])). by case_decide.
Qed.

(** What a normalization that returns holds. *)
Lemma normalizeAlternativesResponse_Done payload itemText normalized :
  normalizeAlternativesResponse payload itemText = Done normalized →
  a_item normalized = itemText ∧
  ∀ key, a_results normalized !! key =
         if decide (key ∈ AI_SITUATION_KEYS)
         then Some (cleaned (toList (prop key (resultsOf payload)))) else None.
Proof.
  unfold normalizeAlternativesResponse.
  destruct (negb (truthy payload) || negb (typeof_object payload)); [done|].
  destruct (decide (Forall (λ key, cleaned (toList (prop key (resultsOf payload))) ≠ [])
                           AI_SITUATION_KEYS)) as [Hfull|Hmissing].
  - rewrite normalizeKeys_Done by (by apply Forall_forall).
    unfold mbind, outcome_bind, mret, outcome_ret. intros Heq.
    assert (normalized =
            Alternatives itemText
              (foldl (λ acc k, <[k := cleaned (toList (prop k (resultsOf payload)))]> acc)
                     emptyAlternativeResults AI_SITUATION_KEYS)) as ->
      by congruence.
    split; [done|]. intros key. unfold a_results.
    rewrite (foldl_insert_lookup (λ k, cleaned (toList (prop k (resultsOf payload))))).
    case_decide; [done|]. rewrite emptyAlternativeResults_lookup. by case_decide.
  - apply not_Forall_Exists in Hmissing; [|apply _].
    apply Exists_exists in Hmissing as (key & Hin & Hempty).
    apply dec_stable in Hempty.
    destruct (normalizeKeys_Thrown (resultsOf payload) _ emptyAlternativeResults
                key Hin Hempty) as (missing & _ & ->).
    done.
Qed.

End answer_facts.

(** C7.  For every answer of the oracle, the normalization coerces the
    value of each of the five situation keys to a list of at most three
    strings, each trimmed and not empty.  When it returns, every key
    holds its coerced list and none of the lists is empty; when the list
    of any key is empty it throws, and the handler then answers with the
    error status 502, no result, and an unchanged collection; an object
    whose five lists are all non-empty is accepted. *)
Theorem normalizeAlternativesResponse_all_or_nothing `{Host}
    (payload : value) (itemText : string) :
  let texts key := cleaned (toList (prop key (resultsOf payload))) in
  length AI_SITUATION_KEYS = 5 ∧
  (∀ key, length (texts key) ≤ 3 ∧
          Forall (λ text, text ≠ "" ∧ trim text = text) (texts key)) ∧
  (∀ normalized,
     normalizeAlternativesResponse payload itemText = Done normalized →
     a_item normalized = itemText ∧
     ∀ key, key ∈ AI_SITUATION_KEYS →
            a_results normalized !! key = Some (texts key) ∧ texts key ≠ []) ∧
  ((∃ key, key ∈ AI_SITUATION_KEYS ∧ texts key = []) →
     (∃ message, normalizeAlternativesResponse payload itemText = Thrown message) ∧
     ∀ cfg reqBody model now store,
       requestedItem reqBody = itemText →
       openai cfg = true → nonEmpty (trim itemText) = true →
       ∃ error,
         postAiAlternatives cfg reqBody (Answered model (Json payload)) now store
         = (AlternativesError 502 error, store)) ∧
  (truthy payload && typeof_object payload = true →
   (∀ key, key ∈ AI_SITUATION_KEYS → texts key ≠ []) →
   ∃ normalized, normalizeAlternativesResponse payload itemText = Done normalized).
Proof.
  intros texts. split; [done|]. split; [intros key; apply cleaned_trimmed|].
  assert (∀ key, key ∈ AI_SITUATION_KEYS → texts key = [] →
                 ∃ message, normalizeAlternativesResponse payload itemText
                            = Thrown message) as Hthrown.
  { intros key Hin Hempty. unfold normalizeAlternativesResponse.
    destruct (negb (truthy payload) || negb (typeof_object payload)); [eauto|].
    destruct (normalizeKeys_Thrown (resultsOf payload) _ emptyAlternativeResults
                key Hin Hempty) as (missing & _ & ->).
    simpl. eauto. }
  split; [|split].
  - intros normalized Hdone.
    destruct (normalizeAlternativesResponse_Done _ _ _ Hdone) as [Hitem Hresults].
    split; [done|]. intros key Hin. specialize (Hresults key).
    rewrite decide_True in Hresults by done. split; [done|].
    intros Hempty. destruct (Hthrown key Hin Hempty) as [message Hmessage].
    congruence.
  - intros (key & Hin & Hempty). destruct (Hthrown key Hin Hempty) as [message Hmessage].
    split; [eauto|]. intros cfg reqBody model now store Hitem Hopenai Hfull.
    unfold postAiAlternatives, generate. rewrite Hitem, Hopenai, Hfull. simpl.
    rewrite Hmessage. simpl. eauto.
  - intros Hobject Hfull. unfold normalizeAlternativesResponse.
    apply andb_true_iff in Hobject as [-> ->]. cbn [negb orb].
    rewrite normalizeKeys_Done by done. by eexists.
Qed.

Lemma normalizeAlternativesResponse_all_or_nothing_witness :
  let payload : value (H := latin_host) :=
    VObj {["results" := VObj (list_to_map
            [("arbeit", VArr [VStr " Teamrunde "; VNull; VStr ""]);
             ("schwiegereltern", VStr "Limonade");
             ("philosophie_3uhr", VStr "Hopfentrost");
             ("gasse_betrunken", VStr "Pils");
             ("behoerdlich", VArr [VStr "  "])])]} in
  cleaned (toList (prop "arbeit" (resultsOf payload))) = ["Teamrunde"] ∧
  ∃ message, normalizeAlternativesResponse payload "Feierabendbier" = Thrown message.
Proof.
  intros payload. split; [reflexivity|].
  destruct (normalizeAlternativesResponse_all_or_nothing (H := latin_host)
              payload "Feierabendbier") as (_ & _ & _ & Hmissing & _).
  apply Hmissing. exists "behoerdlich". split; [|reflexivity].
  unfold AI_SITUATION_KEYS. do 4 right. left.
Defined.

(** ** Spelling and lemma review *)

Section review_facts.
Context `{Host}.

(** Pushing a suggestion leaves every property of the parsed answer an
    object, or not an object, as it was. *)
Lemma pushed_isObject parsed field longer name :
  isObject (prop name (pushed parsed field longer)) = isObject (prop name parsed).
Proof.
  unfold pushed. destruct parsed as [| | | | | |m]; try done.
  destruct (m !! field) as [[| | | | | |vm]|] eqn:Hfield; try done.
  destruct (vm !! "suggestions") as [[| | | | |l|]|]; try done.
  simpl. destruct (decide (field = name)) as [<-|Hne].
  - by rewrite lookup_insert_eq, Hfield.
  - by rewrite lookup_insert_ne.
Qed.

Lemma pushed_isNullish parsed field longer :
  isNullish (pushed parsed field longer) = isNullish parsed.
Proof.
  unfold pushed. destruct parsed as [| | | | | |m]; try done.
  destruct (m !! field) as [[| | | | | |vm]|]; try done.
  by destruct (vm !! "suggestions") as [[| | | | |l|]|].
Qed.

(** One pass: the entry is the neutral one when the answer has no
    object for the field, and the parsed answer changes by a push only,
    which only the pass over ["term"] does. *)
Lemma reviewField_pass body parsed field entry parsed' :
  reviewField body parsed field = Done (entry, parsed') →
  (isObject (prop field parsed) = false → entry = neutral) ∧
  (parsed' = parsed ∨ ∃ longer, parsed' = pushed parsed field longer) ∧
  (field ≠ "term" → parsed' = parsed).
Proof.
  unfold reviewField. destruct (get field parsed) as [value|] eqn:Hget; [|done].
  apply get_Done in Hget as [_ ->]. simpl.
  destruct (isObject (prop field parsed)); simpl.
  - destruct (normalizePartOfSpeech _) as [pos|]; [|done]. simpl.
    destruct (String.eqb_spec field "term") as [->|Hne]; simpl.
    + case_bool_decide; [|intros [= <- <-]; split; [done|by eauto]].
      destruct (nonEmpty _ && _); intros [= <- <-];
        (split; [done|split; [by eauto|done]]).
    + intros [= <- <-]. split; [done|by eauto].
  - intros [= <- <-]. split; [done|by eauto].
Qed.

Lemma reviewFields_cons body parsed field rest acc :
  reviewFields body parsed (field :: rest) acc =
  pass ← reviewField body parsed field;
  reviewFields body pass.2 rest (<[field := pass.1]> acc).
Proof. done. Qed.

(** The loop writes an entry for every field it passes over, the
    neutral one where the answer has no object, and nothing else. *)
Lemma reviewFields_entries body fields :
  ∀ parsed acc result,
    reviewFields body parsed fields acc = Done result →
    ∀ field,
      (field ∈ fields →
         is_Some (result !! field) ∧
         (isObject (prop field parsed) = false → result !! field = Some neutral)) ∧
      (field ∉ fields → result !! field = acc !! field).
Proof.
  induction fields as [|f rest IH]; intros parsed acc result Hdone field.
  - injection Hdone as <-. split; [by intros ?%elem_of_nil|done].
  - rewrite reviewFields_cons in Hdone.
    destruct (reviewField body parsed f) as [[entry parsed']|] eqn:Hpass; [|done].
    simpl in Hdone.
    destruct (reviewField_pass _ _ _ _ _ Hpass) as (Hneutral & Hparsed & _).
    assert (∀ name, isObject (prop name parsed') = isObject (prop name parsed))
      as Hsame.
    { intros name. destruct Hparsed as [->|[longer ->]]; [done|].
      apply pushed_isObject. }
    destruct (IH _ _ _ Hdone field) as [Hin Hout].
    destruct (decide (field ∈ rest)) as [Hrest|Hrest].
    + split; [|by intros []%not_elem_of_cons].
      intros _. rewrite Hsame in Hin. by apply Hin.
    + rewrite (Hout Hrest). split.
      * intros [->|?]%elem_of_cons; [|done]. rewrite lookup_insert_eq.
        split; [done|]. intros Hno. by rewrite Hneutral.
      * intros [Hne _]%not_elem_of_cons. by rewrite lookup_insert_ne.
Qed.

(** When ["term"] is passed over once, its entry is that of one pass
    over the answer as it was parsed. *)
Lemma reviewFields_term body fields :
  ∀ parsed acc result,
    NoDup fields → "term" ∈ fields →
    reviewFields body parsed fields acc = Done result →
    ∃ entry parsed',
      reviewField body parsed "term" = Done (entry, parsed') ∧
      result !! "term" = Some entry.
Proof.
  induction fields as [|f rest IH]; intros parsed acc result Hnodup Hin Hdone.
  - by apply elem_of_nil in Hin.
  - apply NoDup_cons in Hnodup as [Hf Hnodup].
    rewrite reviewFields_cons in Hdone.
    destruct (reviewField body parsed f) as [[entry parsed']|] eqn:Hpass; [|done].
    simpl in Hdone. destruct (decide (f = "term")) as [->|Hne].
    + exists entry, parsed'. split; [done|].
      destruct (reviewFields_entries _ _ _ _ _ Hdone "term") as [_ Hout].
      rewrite (Hout Hf). apply lookup_insert_eq.
    + destruct (reviewField_pass _ _ _ _ _ Hpass) as (_ & _ & Hsame).
      rewrite (Hsame Hne) in Hdone.
      apply elem_of_cons in Hin as [?|Hin]; [done|]. by eapply IH.
Qed.

(** A review that succeeds had a parsed answer and went over the fields
    to review. *)
Lemma postSpellcheck_ok cfg authCookie reqBody o result :
  postSpellcheck cfg authCookie reqBody o = ReviewOk result →
  ∃ model parsed,
    o = Answered model (Json parsed) ∧
    fieldsToReview (or_else reqBody (VObj ∅)) ≠ [] ∧
    reviewFields (or_else reqBody (VObj ∅)) parsed
                 (fieldsToReview (or_else reqBody (VObj ∅))) ∅ = Done result.
Proof.
  unfold postSpellcheck.
  destruct (negb (nonEmpty (ADMIN_PASSWORD cfg))); [done|].
  destruct (negb (requireAuth authCookie)); [done|].
  destruct (negb (openai cfg)); [done|].
  destruct (fieldsToReview _) as [|f rest]; [done|].
  destruct o as [message|model [|message|parsed]]; try done.
  unfold parsedAnswer, mbind, outcome_bind, mret, outcome_ret.
  destruct (reviewFields _ parsed _ _) as [entries|] eqn:Hfields; [|done].
  intros [= <-]. exists model, parsed. by rewrite Hfields.
Qed.

End review_facts.

(** C10.  For every review that succeeds, the returned map has an entry
    for every field that was selected for review, and for no other; where
    the oracle's answer leaves a reviewed field out, or has for it
    something that is not an object, the entry is the neutral result. *)
Theorem review_covers_every_field `{Host}
    (cfg : config) (authCookie reqBody : value) (o : oracle)
    (result : gmap string reviewResult) :
  postSpellcheck cfg authCookie reqBody o = ReviewOk result →
  let body := or_else reqBody (VObj ∅) in
  ∃ model parsed,
    o = Answered model (Json parsed) ∧
    (∀ field, field ∈ fieldsToReview body →
       is_Some (result !! field) ∧
       (isObject (prop field parsed) = false → result !! field = Some neutral)) ∧
    (∀ field, is_Some (result !! field) → field ∈ fieldsToReview body).
Proof.
  intros Hok body.
  destruct (postSpellcheck_ok _ _ _ _ _ Hok) as (model & parsed & -> & _ & Hfields).
  fold body in Hfields. exists model, parsed. split; [done|]. split.
  - intros field Hin. by apply (reviewFields_entries _ _ _ _ _ Hfields field).
  - intros field Hsome. destruct (decide (field ∈ fieldsToReview body)) as [|Hout]; [done|].
    apply (reviewFields_entries _ _ _ _ _ Hfields field) in Hout.
    rewrite Hout, lookup_empty in Hsome. by destruct Hsome.
Qed.

Lemma review_covers_every_field_witness :
  let body : value (H := latin_host) :=
    VObj (list_to_map [("term", VStr "laufen"); ("definition", VStr "sich bewegen");
                       ("synonyms", VStr "")]) in
  let parsed : value (H := latin_host) :=
    VObj (list_to_map [("term", VStr "laufen"); ("example", VObj ∅)]) in
  ∃ result,
    postSpellcheck (Config "secret" true) (VStr "1") body
                   (Answered "gpt-4o" (Json parsed)) = ReviewOk result ∧
    result !! "term" = Some neutral ∧ result !! "definition" = Some neutral ∧
    result !! "example" = None.
Proof.
  intros body parsed.
  assert (∃ result, postSpellcheck (Config "secret" true) (VStr "1") body
                      (Answered "gpt-4o" (Json parsed)) = ReviewOk result)
    as [result Hok] by (eexists; reflexivity).
  exists result. split; [exact Hok|].
  destruct (review_covers_every_field (H := latin_host) _ _ _ _ _ Hok)
    as (model & parsed' & Ho & Hin & Hout).
  injection Ho as _ <-.
  change (fieldsToReview (or_else body (VObj ∅))) with ["term"; "definition"] in Hin, Hout.
  split; [apply (Hin "term"); [left|reflexivity]|].
  split; [apply (Hin "definition"); [right; left|reflexivity]|].
  destruct (result !! "example") as [entry|] eqn:Hexample; [|reflexivity].
  exfalso. assert ("example" ∈ ["term"; "definition"]) as Hex by eauto.
  by repeat apply elem_of_cons in Hex as [?|Hex]; try apply elem_of_nil in Hex.
Defined.

Section capitalization_facts.
Context `{Host}.

(** The pass over ["term"], case by case. *)
Lemma reviewField_term body parsed entry parsed' :
  reviewField body parsed "term" = Done (entry, parsed') →
  let value := prop "term" parsed in
  let originalTerm := match prop "term" body with VStr s => s | _ => "" end in
  let spelled := filledString (prop "corrected" value) in
  let base := default originalTerm spelled in
  let capitalized := capitalizeFirst base in
  let proposed := match prop "suggestions" value with VArr l => l | _ => [] end in
  if bool_decide ("noun" ∈ partOfSpeech entry)
     && nonEmpty capitalized && negb (String.eqb capitalized base)
  then corrected entry = Some capitalized ∧
       suggestions entry =
         proposed ++ [suggestion (if nonEmpty originalTerm then originalTerm else base)
                                 capitalized capitalizationReason]
  else corrected entry = spelled ∧ suggestions entry = proposed.
Proof.
  unfold reviewField. destruct (get "term" parsed) as [value|] eqn:Hget; [|done].
  apply get_Done in Hget as [_ ->]. simpl.
  destruct (isObject (prop "term" parsed)) eqn:Hobject; simpl.
  - destruct (normalizePartOfSpeech _) as [pos|]; [|done]. simpl.
    case_bool_decide as Hnoun; simpl.
    + destruct (nonEmpty _ && _) eqn:Hchange; intros [= <- <-]; simpl;
        rewrite bool_decide_eq_true_2 by done; simpl; by rewrite Hchange.
    + intros [= <- <-]. simpl. by rewrite bool_decide_eq_false_2 by done.
  - intros [= <- <-]. simpl.
    assert (prop "corrected" (prop "term" parsed) = VUndefined ∧
            prop "suggestions" (prop "term" parsed) = VUndefined) as [-> ->]
      by (by destruct (prop "term" parsed)).
    done.
Qed.

End capitalization_facts.

(** C8, as the specification states it, fails: the term ["Tisch"] with a
    noun result gets no capitalization suggestion and no corrected
    value. *)
Lemma review_leaves_capitalized_noun :
  let body : value (H := latin_host) := VObj (list_to_map [("term", VStr "Tisch")]) in
  let parsed : value (H := latin_host) :=
    VObj (list_to_map
            [("term", VObj (list_to_map [("corrected", VNull); ("suggestions", VArr []);
                                         ("partOfSpeech", VArr [VStr "noun"]);
                                         ("article", VStr "der")]))]) in
  postSpellcheck (Config "secret" true) (VStr "1") body (Answered "gpt-4o" (Json parsed))
  = ReviewOk {["term" := ReviewResult None [] None ["noun"] (Some "der")]}.
Proof. by_computation. Qed.

(** C8, amended.  For every review that succeeds and went over the term
    once: when the resolved part of speech contains ["noun"] and
    capitalizing the base value (the oracle's corrected value if it gave
    a non-blank one, else the original term) changes it, the corrected
    value of the result is the capitalized form and a suggestion from the
    original term to the capitalized form, with the reason
    "Großschreibung (Nomen)", is appended after the suggestions of the
    oracle; when the base value is capitalized already, or the part of
    speech is no noun, the corrected value and the suggestions are those
    of the oracle and nothing is appended. *)
Theorem review_capitalizes_noun `{Host}
    (cfg : config) (authCookie reqBody : value) (o : oracle)
    (result : gmap string reviewResult) :
  postSpellcheck cfg authCookie reqBody o = ReviewOk result →
  let body := or_else reqBody (VObj ∅) in
  "term" ∈ fieldsToReview body →
  NoDup (fieldsToReview body) →
  ∃ model parsed entry,
    o = Answered model (Json parsed) ∧
    result !! "term" = Some entry ∧
    let value := prop "term" parsed in
    let originalTerm := match prop "term" body with VStr s => s | _ => "" end in
    let spelled := filledString (prop "corrected" value) in
    let base := default originalTerm spelled in
    let capitalized := capitalizeFirst base in
    let proposed := match prop "suggestions" value with VArr l => l | _ => [] end in
    ("noun" ∈ partOfSpeech entry → capitalized ≠ "" → capitalized ≠ base →
       corrected entry = Some capitalized ∧
       suggestions entry =
         proposed ++ [suggestion (if nonEmpty originalTerm then originalTerm else base)
                                 capitalized capitalizationReason]) ∧
    ("noun" ∈ partOfSpeech entry → capitalized = base →
       corrected entry = spelled ∧ suggestions entry = proposed) ∧
    ("noun" ∉ partOfSpeech entry →
       corrected entry = spelled ∧ suggestions entry = proposed).
Proof.
  intros Hok body Hterm Hnodup.
  destruct (postSpellcheck_ok _ _ _ _ _ Hok) as (model & parsed & -> & _ & Hfields).
  fold body in Hfields.
  destruct (reviewFields_term _ _ _ _ _ Hnodup Hterm Hfields)
    as (entry & parsed' & Hpass & Hentry).
  exists model, parsed, entry. split; [done|]. split; [done|].
  apply reviewField_term in Hpass. simpl in Hpass. simpl.
  split; [|split].
  - intros Hnoun Hfull Hchange.
    rewrite bool_decide_eq_true_2 in Hpass by done.
    apply nonEmpty_spec in Hfull. rewrite Hfull in Hpass.
    by destruct (String.eqb_spec (capitalizeFirst
         (default (match prop "term" body with VStr s => s | _ => "" end)
                  (filledString (prop "corrected" (prop "term" parsed)))))
         (default (match prop "term" body with VStr s => s | _ => "" end)
                  (filledString (prop "corrected" (prop "term" parsed))))).
  - intros Hnoun Hsame. rewrite Hsame, String.eqb_refl in Hpass.
    by rewrite andb_false_r in Hpass.
  - intros Hnoun. by rewrite bool_decide_eq_false_2 in Hpass by done.
Qed.

Lemma review_capitalizes_noun_witness :
  let body : value (H := latin_host) := VObj (list_to_map [("term", VStr "tissch")]) in
  let spelling : value (H := latin_host) :=
    VObj (list_to_map [("from", VStr "tissch"); ("to", VStr "tisch");
                       ("reason", VStr "Rechtschreibung")]) in
  let parsed : value (H := latin_host) :=
    VObj (list_to_map
            [("term", VObj (list_to_map [("corrected", VStr "tisch");
                                         ("suggestions", VArr [spelling]);
                                         ("partOfSpeech", VArr [VStr "noun"]);
                                         ("article", VStr "der")]))]) in
  ∃ entry,
    postSpellcheck (Config "secret" true) (VStr "1") body
                   (Answered "gpt-4o" (Json parsed))
    = ReviewOk {["term" := entry]} ∧
    corrected entry = Some "Tisch" ∧
    suggestions entry = [spelling; suggestion "tissch" "Tisch" capitalizationReason].
Proof.
  intros body spelling parsed.
  pose (expected := ReviewResult (H := latin_host) (Some "Tisch")
          [spelling; suggestion "tissch" "Tisch" capitalizationReason]
          None ["noun"] (Some "der")).
  assert (postSpellcheck (Config "secret" true) (VStr "1") body
            (Answered "gpt-4o" (Json parsed)) = ReviewOk {["term" := expected]})
    as Hok by reflexivity.
  assert ("term" ∈ fieldsToReview (or_else body (VObj ∅))) as Hterm by left.
  assert (NoDup (fieldsToReview (or_else body (VObj ∅)))) as Hnodup
    by (apply (NoDup_singleton "term")).
  destruct (review_capitalizes_noun (H := latin_host) _ _ _ _ _ Hok Hterm Hnodup)
    as (model & parsed' & entry & Ho & Hentry & Hnoun & _).
  injection Ho as _ <-. rewrite lookup_singleton_eq in Hentry. injection Hentry as <-.
  exists expected. split; [exact Hok|].
  apply Hnoun; [left|discriminate|discriminate].
Defined.

(** The suggestions of the result are the array of the parsed answer
    itself: a request that names the term twice goes over it twice, and
    the second pass appends to what the first left. *)
Example review_term_twice :
  let body : value (H := latin_host) :=
    VObj (list_to_map [("term", VStr "tisch");
                       ("userFields", VArr [VStr "term"; VStr "term"])]) in
  let parsed : value (H := latin_host) :=
    VObj (list_to_map
            [("term", VObj (list_to_map [("suggestions", VArr []);
                                         ("partOfSpeech", VArr [VStr "noun"])]))]) in
  postSpellcheck (Config "secret" true) (VStr "1") body (Answered "gpt-4o" (Json parsed))
  = ReviewOk {["term" := ReviewResult (Some "Tisch")
                           [suggestion "tisch" "Tisch" capitalizationReason;
                            suggestion "tisch" "Tisch" capitalizationReason]
                           None ["noun"] None]}.
Proof. by_computation. Qed.

(** ** Situational alternatives: the collection *)

Section collection_facts.
Context `{Host}.

Lemma seen_insert existing key set s :
  seen (<[key := set]> existing) s = if decide (key = s) then set else seen existing s.
Proof.
  unfold seen. case_decide as Hkey.
  - subst. by rewrite lookup_insert_eq.
  - by rewrite lookup_insert_ne.
Qed.

(** The sets built from the stored documents hold the lower-cased texts
    that are not empty. *)
Lemma existingBySituation_seen docs s v :
  v ∈ seen (existingBySituation docs) s ↔
  v ≠ "" ∧ ∃ doc, doc ∈ docs ∧ situation doc = s ∧ toLowerCase (alternative_text doc) = v.
Proof.
  unfold existingBySituation.
  assert (∀ acc : gmap string (gset string),
    v ∈ seen (foldl (λ acc doc,
                       let key := situation doc in
                       let value := toLowerCase (alternative_text doc) in
                       let set := default ∅ (acc !! key) in
                       <[key := if nonEmpty value then {[value]} ∪ set else set]> acc)
                    acc docs) s ↔
    v ∈ seen acc s ∨
    (v ≠ "" ∧ ∃ doc, doc ∈ docs ∧ situation doc = s ∧
                     toLowerCase (alternative_text doc) = v)) as Hfold.
  { induction docs as [|d rest IH]; intros acc.
    - simpl. split; [by left|]. intros [?|(_ & doc & []%elem_of_nil & _)]. done.
    - simpl. rewrite IH, seen_insert. fold (seen acc (situation d)).
      destruct (decide (situation d = s)) as [<-|Hs].
      + destruct (nonEmpty (toLowerCase (alternative_text d))) eqn:Hv.
        * apply nonEmpty_spec in Hv. rewrite elem_of_union, elem_of_singleton.
          split.
          -- intros [[->|?]|(? & doc & ? & ? & ?)]; [right|by left|right].
             ++ split; [done|]. exists d. split; [left|done].
             ++ split; [done|]. exists doc. split; [by right|done].
          -- intros [?|(? & doc & [->|?]%elem_of_cons & ? & ?)];
               [by left; right|by left; left|right].
             split; [done|]. by exists doc.
        * apply not_true_iff_false in Hv. rewrite nonEmpty_spec in Hv.
          apply dec_stable in Hv. split.
          -- intros [?|(? & doc & ? & ? & ?)]; [by left|right].
             split; [done|]. exists doc. split; [by right|done].
          -- intros [?|(Hne & doc & [->|?]%elem_of_cons & ? & Hdoc)];
               [by left|congruence|right].
             split; [done|]. by exists doc.
      + split.
        * intros [?|(? & doc & ? & ? & ?)]; [by left|right].
          split; [done|]. exists doc. split; [by right|done].
        * intros [?|(? & doc & [->|?]%elem_of_cons & ? & ?)]; [by left|done|right].
          split; [done|]. by exists doc. }
  rewrite Hfold. unfold seen. rewrite lookup_empty. simpl.
  split; [intros [[]%elem_of_empty|?]; done|by right].
Qed.

(** What the filter keeps: documents of the candidates whose lower-cased
    text is not empty and not in the set of its situation, and no two
    with the same situation and lower-cased text. *)
Lemma toInsert_novel docs :
  ∀ existing,
    (∀ doc, doc ∈ toInsert existing docs →
       doc ∈ docs ∧ toLowerCase (alternative_text doc) ≠ "" ∧
       toLowerCase (alternative_text doc) ∉ seen existing (situation doc)) ∧
    (∀ s, NoDup (toLowerCase <$>
                 (alternative_text <$> filter (λ doc, situation doc = s)
                                              (toInsert existing docs)))).
Proof.
  induction docs as [|d rest IH]; intros existing.
  - split; [by intros doc []%elem_of_nil|]. intros s. constructor.
  - simpl. destruct (nonEmpty (toLowerCase (alternative_text d))) eqn:Hv; simpl.
    + fold (seen existing (situation d)).
      case_bool_decide as Hseen.
      * destruct (IH (<[situation d := seen existing (situation d)]> existing))
          as [Hkept Hnodup].
        split; [|done]. intros doc Hdoc. destruct (Hkept doc Hdoc) as (? & ? & Hnew).
        split; [by right|]. split; [done|].
        rewrite seen_insert in Hnew. by case_decide as Hs; [rewrite <- Hs|].
      * destruct (IH (<[situation d :=
                          {[toLowerCase (alternative_text d)]}
                          ∪ seen existing (situation d)]> existing))
          as [Hkept Hnodup].
        split.
        -- intros doc [->|Hdoc]%elem_of_cons.
           ++ split; [left|]. by apply nonEmpty_spec in Hv.
           ++ destruct (Hkept doc Hdoc) as (? & ? & Hnew).
              split; [by right|]. split; [done|].
              rewrite seen_insert in Hnew. case_decide as Hs; [|done].
              rewrite <- Hs. set_solver.
        -- intros s. destruct (decide (situation d = s)) as [Hs|Hs].
           ++ rewrite filter_cons_True by done. simpl. apply NoDup_cons.
              split; [|apply Hnodup].
              intros (text & Htext & (doc & -> & Hdoc)%list_elem_of_fmap)%list_elem_of_fmap.
              apply list_elem_of_filter in Hdoc as [Hsit Hdoc].
              destruct (Hkept doc Hdoc) as (_ & _ & Hnew).
              rewrite seen_insert, Hsit, decide_True in Hnew by done.
              set_solver.
           ++ rewrite filter_cons_False by done. apply Hnodup.
    + destruct (IH existing) as [Hkept Hnodup]. split; [|done].
      intros doc Hdoc. destruct (Hkept doc Hdoc) as (? & ? & ?).
      split; [by right|done].
Qed.

Lemma storedTexts_app store more i s :
  storedTexts (store ++ more) i s = storedTexts store i s ++ storedTexts more i s.
Proof. unfold storedTexts. by rewrite filter_app, fmap_app. Qed.

Lemma storedTexts_find store query s :
  alternative_text <$> filter (λ doc, situation doc = s) (find store query)
  = storedTexts store (trim query) s.
Proof.
  unfold storedTexts, find. rewrite list_filter_filter. f_equal.
  apply list_filter_iff. naive_solver.
Qed.

(** The candidates are the texts of the normalized answer, key by key. *)
Lemma candidates_elem normalized timestamp modelVersion doc :
  doc ∈ candidates normalized timestamp modelVersion →
  item doc = a_item normalized ∧
  situation doc ∈ AI_SITUATION_KEYS ∧
  alternative_text doc ∈ default [] (a_results normalized !! situation doc).
Proof.
  unfold candidates. intros (key & Hdoc & Hkey)%list_elem_of_bind.
  apply list_elem_of_fmap in Hdoc as (text & -> & Htext). done.
Qed.

(** Writing documents whose texts are trimmed: the schema trims the item
    and leaves the situation and the text. *)
Lemma storedTexts_cast docs itemText i s :
  (∀ doc, doc ∈ docs →
     item doc = itemText ∧ trim (alternative_text doc) = alternative_text doc) →
  storedTexts (cast <$> docs) i s =
  if decide (i = trim itemText)
  then alternative_text <$> filter (λ doc, situation doc = s) docs
  else [].
Proof.
  unfold storedTexts. induction docs as [|d rest IH]; intros Hdocs.
  - by case_decide.
  - destruct (Hdocs d) as [Hitem Htext]; [left|].
    assert (∀ doc, doc ∈ rest →
              item doc = itemText ∧ trim (alternative_text doc) = alternative_text doc)
      as Hrest by (intros; apply Hdocs; by right).
    specialize (IH Hrest).
    rewrite fmap_cons.
    destruct (decide (item (cast d) = i ∧ situation (cast d) = s)) as [[Hi Hs]|Hno].
    + rewrite filter_cons_True by done. rewrite fmap_cons, IH.
      simpl in Hi, Hs. rewrite Hitem in Hi. subst i.
      destruct (decide (trim itemText = trim itemText)) as [_|?]; [|done].
      rewrite filter_cons_True by done.
      change (alternative_text (cast d)) with (trim (alternative_text d)).
      by rewrite Htext.
    + rewrite filter_cons_False by done. rewrite IH. case_decide as Hi; [|done].
      rewrite filter_cons_False; [done|]. intros Hs. apply Hno. simpl.
      by rewrite Hitem.
Qed.

(** A text list without repetition is no longer than a set that holds
    all of it. *)
Lemma NoDup_length_size (l : list string) (X : gset string) :
  NoDup l → (∀ x, x ∈ l → x ∈ X) → length l ≤ size X.
Proof.
  intros Hnodup Hsub. rewrite <- (size_list_to_set (C := gset string) l Hnodup).
  apply subseteq_size. intros x Hx. apply elem_of_list_to_set in Hx. by apply Hsub.
Qed.

(** A generation that succeeds had a parsed answer that normalizes, and
    has appended what the filter kept, as the schema writes it. *)
Lemma generate_Done itemText o now store aggregated store' :
  generate itemText o now store = Done (aggregated, store') →
  ∃ model parsed normalized modelVersion,
    o = Answered model (Json parsed) ∧
    normalizeAlternativesResponse parsed itemText = Done normalized ∧
    store' = store ++ (cast <$> toInsert (existingBySituation (find store itemText))
                                         (candidates normalized now modelVersion)) ∧
    aggregated = aggregateAlternatives store' itemText.
Proof.
  unfold generate. destruct o as [message|model [|message|parsed]]; try done.
  simpl. destruct (normalizeAlternativesResponse parsed itemText)
    as [normalized|] eqn:Hnormalized; [|done].
  simpl. destruct (normalizeAlternativesResponse_Done _ _ _ Hnormalized) as [Hitem _].
  rewrite Hitem.
  set (modelVersion := if nonEmpty model then model else "gpt-4o-mini").
  set (docs := toInsert _ _). intros Hdone.
  exists model, parsed, normalized, modelVersion. split; [done|]. split; [done|].
  fold docs. destruct docs as [|d rest] eqn:Hdocs.
  - simpl in Hdone. injection Hdone as <- <-. by rewrite fmap_nil, app_nil_r.
  - rewrite <- Hdocs in Hdone. unfold insertMany in Hdone.
    destruct (forallb valid (cast <$> docs)); [|done].
    simpl in Hdone. injection Hdone as <- <-. by rewrite Hdocs.
Qed.

(** The texts a normalized answer holds are those of the parsed answer,
    trimmed. *)
Lemma normalized_texts parsed itemText normalized s text :
  normalizeAlternativesResponse parsed itemText = Done normalized →
  default [] (a_results normalized !! s) = oracleTexts parsed s ∧
  (text ∈ oracleTexts parsed s → trim text = text).
Proof.
  intros Hnormalized.
  destruct (normalizeAlternativesResponse_Done _ _ _ Hnormalized) as [_ Hresults].
  unfold oracleTexts. rewrite Hresults. split; [by case_decide|].
  case_decide; [|by intros []%elem_of_nil]. intros Htext.
  destruct (cleaned_trimmed (toList (prop s (resultsOf parsed)))) as [_ Htrimmed].
  rewrite Forall_forall in Htrimmed. by apply Htrimmed.
Qed.

(** A lower-cased text that is not empty is in the set of its situation
    exactly when a stored text of the item and situation has it. *)
Lemma existing_stored store itemText s v :
  v ≠ "" →
  v ∈ seen (existingBySituation (find store itemText)) s ↔
  v ∈ toLowerCase <$> storedTexts store (trim itemText) s.
Proof.
  intros Hv. rewrite existingBySituation_seen, <- storedTexts_find. split.
  - intros (_ & doc & Hdoc & Hs & <-).
    apply list_elem_of_fmap_2, list_elem_of_fmap_2. by apply list_elem_of_filter.
  - intros (text & -> & (doc & -> & Hdoc)%list_elem_of_fmap)%list_elem_of_fmap.
    apply list_elem_of_filter in Hdoc as [Hs Hdoc]. eauto.
Qed.

(** What a generation that succeeds has appended: documents of the
    trimmed item, with texts of the answer that no stored text of their
    situation equals when letter case is ignored, and no two of which do
    in one situation. *)
Lemma generate_appends itemText o now store aggregated store' :
  generate itemText o now store = Done (aggregated, store') →
  ∃ model parsed inserted,
    o = Answered model (Json parsed) ∧
    store' = store ++ inserted ∧
    aggregated = aggregateAlternatives store' itemText ∧
    (∀ doc, doc ∈ inserted → item doc = trim itemText) ∧
    (∀ s text, text ∈ storedTexts inserted (trim itemText) s →
       text ∈ oracleTexts parsed s ∧
       toLowerCase text ∉ toLowerCase <$> storedTexts store (trim itemText) s) ∧
    (∀ s, NoDup (toLowerCase <$> storedTexts inserted (trim itemText) s)).
Proof.
  intros Hdone.
  destruct (generate_Done _ _ _ _ _ _ Hdone)
    as (model & parsed & normalized & modelVersion & -> & Hnormalized & -> & ->).
  destruct (normalizeAlternativesResponse_Done _ _ _ Hnormalized) as [Hitem _].
  set (docs := toInsert (existingBySituation (find store itemText))
                        (candidates normalized now modelVersion)).
  destruct (toInsert_novel (candidates normalized now modelVersion)
              (existingBySituation (find store itemText))) as [Hkept Hnodup].
  fold docs in Hkept, Hnodup.
  assert (∀ doc, doc ∈ docs →
            item doc = itemText ∧ trim (alternative_text doc) = alternative_text doc)
    as Hdocs.
  { intros doc Hdoc. destruct (Hkept doc Hdoc) as (Hcandidate & _).
    apply candidates_elem in Hcandidate as (Hi & _ & Htext).
    split; [congruence|].
    destruct (normalized_texts parsed itemText normalized (situation doc)
                (alternative_text doc) Hnormalized) as [Htexts Htrim].
    apply Htrim. by rewrite <- Htexts. }
  exists model, parsed, (cast <$> docs). split; [done|]. split; [done|]. split; [done|].
  split; [|split].
  - intros doc (d & -> & Hd)%list_elem_of_fmap. simpl.
    by destruct (Hdocs d Hd) as [-> _].
  - intros s text. rewrite (storedTexts_cast docs itemText) by done.
    rewrite decide_True by done.
    intros (doc & -> & [Hs Hdoc]%list_elem_of_filter)%list_elem_of_fmap.
    destruct (Hkept doc Hdoc) as (Hcandidate & Hfull & Hnew).
    apply candidates_elem in Hcandidate as (_ & _ & Htext).
    destruct (normalized_texts parsed itemText normalized (situation doc)
                (alternative_text doc) Hnormalized) as [Htexts _].
    rewrite Htexts, Hs in Htext. split; [done|].
    rewrite <- (existing_stored _ _ _ _ Hfull). by rewrite <- Hs.
  - intros s. rewrite (storedTexts_cast docs itemText) by done.
    rewrite decide_True by done. apply Hnodup.
Qed.

End collection_facts.

(** ** Situational alternatives: the aggregate *)

Section aggregate_facts.
Context `{Host}.

Lemma unique_elem l x : x ∈ unique l ↔ x ∈ l.
Proof.
  induction l as [|y rest IH]; [done|]. simpl.
  rewrite !elem_of_cons, list_elem_of_filter, IH.
  destruct (decide (x = y)); naive_solver.
Qed.

Lemma unique_NoDup l : NoDup (unique l).
Proof.
  induction l as [|y rest IH]; [constructor|]. simpl. apply NoDup_cons. split.
  - intros [Hne _]%list_elem_of_filter. by apply Hne.
  - by apply NoDup_filter.
Qed.

Lemma filter_all (P : string → Prop) `{!∀ x, Decision (P x)} (l : list string) :
  (∀ x, x ∈ l → P x) → filter P l = l.
Proof.
  induction l as [|y rest IH]; [done|]. intros Hall.
  rewrite filter_cons_True by (apply Hall; left).
  rewrite IH; [done|]. intros x Hx. apply Hall. by right.
Qed.

Lemma unique_id l : NoDup l → unique l = l.
Proof.
  induction l as [|y rest IH]; [done|]. intros [Hy Hrest]%NoDup_cons.
  simpl. rewrite IH by done. f_equal. apply filter_all.
  intros x Hx ->. by apply Hy.
Qed.

(** Adding the texts of a list one by one, each unless it is there:
    what was there, then the first occurrences of the new ones. *)
Lemma foldl_addText texts :
  ∀ acc, foldl addText acc texts = acc ++ filter (λ text, text ∉ acc) (unique texts).
Proof.
  induction texts as [|x rest IH]; intros acc; simpl.
  - by rewrite app_nil_r.
  - rewrite IH. unfold addText. case_bool_decide as Hx.
    + rewrite filter_cons_False by (by intros ?). f_equal.
      rewrite list_filter_filter. apply list_filter_iff. intros y. split.
      * intros Hy. split; [done|]. by intros ->.
      * by intros [? _].
    + rewrite filter_cons_True by done. rewrite <- app_assoc. simpl. do 2 f_equal.
      rewrite list_filter_filter. apply list_filter_iff. intros y.
      rewrite not_elem_of_app, list_elem_of_singleton. naive_solver.
Qed.

(** The aggregate of a situation is built from the texts of its
    documents alone. *)
Lemma foldl_collect docs :
  ∀ results s,
    foldl collect results docs !! s =
    match results !! s with
    | Some texts =>
        Some (foldl addText texts
                    (alternative_text <$> filter (λ doc, situation doc = s) docs))
    | None => None
    end.
Proof.
  induction docs as [|d rest IH]; intros results s.
  - simpl. by destruct (results !! s).
  - change (foldl collect results (d :: rest))
      with (foldl collect (collect results d) rest).
    rewrite IH. unfold collect.
    destruct (decide (situation d = s)) as [<-|Hs].
    + rewrite filter_cons_True by done. rewrite fmap_cons.
      change (foldl addText ?acc (?x :: ?l)) with (foldl addText (addText acc x) l).
      destruct (results !! situation d) as [texts|] eqn:Htexts.
      * unfold addText at 3. case_bool_decide.
        -- by rewrite Htexts.
        -- by rewrite lookup_insert_eq.
      * by rewrite Htexts.
    + rewrite filter_cons_False by done.
      destruct (results !! situation d) as [texts|]; [|done].
      case_bool_decide; [done|]. by rewrite lookup_insert_ne.
Qed.

Lemma place_Permutation doc sorted : place doc sorted ≡ₚ doc :: sorted.
Proof.
  induction sorted as [|d rest IH]; [done|]. simpl.
  destruct (timestamp doc <? timestamp d)%Z; [done|].
  rewrite IH. apply Permutation_swap.
Qed.

Lemma sortByTimestamp_Permutation docs : sortByTimestamp docs ≡ₚ docs.
Proof.
  unfold sortByTimestamp.
  assert (∀ acc, foldl (λ sorted doc, place doc sorted) acc docs ≡ₚ acc ++ docs)
    as Hfold; [|apply Hfold].
  induction docs as [|d rest IH]; intros acc; simpl.
  - by rewrite app_nil_r.
  - rewrite IH, place_Permutation. simpl. by rewrite <- Permutation_middle.
Qed.

Lemma place_sorted doc sorted :
  StronglySorted notLater sorted → StronglySorted notLater (place doc sorted).
Proof.
  induction sorted as [|d rest IH]; intros Hsorted; simpl.
  - repeat constructor.
  - apply StronglySorted_inv in Hsorted as [Hrest Hd].
    destruct (Z.ltb_spec (timestamp doc) (timestamp d)) as [Hlt|Hge].
    + constructor; [by constructor|]. constructor; [unfold notLater; lia|].
      eapply Forall_impl; [exact Hd|]. unfold notLater. intros; lia.
    + constructor; [by apply IH|]. rewrite place_Permutation.
      constructor; [done|done].
Qed.

Lemma sortByTimestamp_sorted docs : StronglySorted notLater (sortByTimestamp docs).
Proof.
  unfold sortByTimestamp.
  assert (∀ acc, StronglySorted notLater acc →
                 StronglySorted notLater
                   (foldl (λ sorted doc, place doc sorted) acc docs))
    as Hfold; [|apply Hfold; constructor].
  induction docs as [|d rest IH]; intros acc Hacc; simpl; [done|].
  by apply IH, place_sorted.
Qed.

End aggregate_facts.

Section generation_facts.
Context `{Host}.

Lemma storedTexts_other (docs : list alternative) i i' s :
  (∀ doc, doc ∈ docs → item doc = i) → i' ≠ i → storedTexts docs i' s = [].
Proof.
  intros Hitems Hne. unfold storedTexts.
  induction docs as [|d rest IH]; [done|].
  rewrite filter_cons_False.
  - apply IH. intros doc Hdoc. apply Hitems. by right.
  - intros [Hi _]. apply Hne. rewrite <- Hi. apply Hitems. left.
Qed.

(** What appending such documents does to the collection. *)
Lemma append_novel (store inserted : list alternative) (i : string)
    (batch : string → list string) :
  (∀ doc, doc ∈ inserted → item doc = i) →
  (∀ s text, text ∈ storedTexts inserted i s →
     text ∈ batch s ∧ toLowerCase text ∉ toLowerCase <$> storedTexts store i s) →
  (∀ s, NoDup (toLowerCase <$> storedTexts inserted i s)) →
  (∀ doc, doc ∈ inserted →
     toLowerCase (alternative_text doc)
       ∉ toLowerCase <$> storedTexts store i (situation doc)) ∧
  (caseInsensitiveUnique store → caseInsensitiveUnique (store ++ inserted)) ∧
  (∀ s, length (storedTexts (store ++ inserted) i s) ≤
        length (storedTexts store i s) +
        size (list_to_set (toLowerCase <$> batch s)
              ∖ list_to_set (toLowerCase <$> storedTexts store i s) : gset string)).
Proof.
  intros Hitems Hnovel Hnodup. split; [|split].
  - intros doc Hdoc. apply Hnovel. unfold storedTexts.
    apply list_elem_of_fmap_2, list_elem_of_filter. split; [|done].
    split; [by apply Hitems|done].
  - intros Hunique i' s. rewrite storedTexts_app, fmap_app.
    destruct (decide (i' = i)) as [->|Hne].
    + apply NoDup_app. split; [apply Hunique|]. split; [|apply Hnodup].
      intros x Hx (text & -> & Htext)%list_elem_of_fmap.
      by apply (Hnovel s text Htext).
    + rewrite (storedTexts_other inserted i i') by done.
      rewrite app_nil_r. apply Hunique.
  - intros s. rewrite storedTexts_app, length_app.
    apply Nat.add_le_mono_l. rewrite <- (length_fmap toLowerCase).
    apply NoDup_length_size; [apply Hnodup|].
    intros x (text & -> & Htext)%list_elem_of_fmap.
    destruct (Hnovel s text Htext) as [Hbatch Hnew].
    apply elem_of_difference. rewrite !elem_of_list_to_set.
    split; [by apply list_elem_of_fmap_2|done].
Qed.

(** A generation keeps the texts unique, letter case ignored. *)
Lemma postAiAlternatives_unique cfg reqBody o now store :
  caseInsensitiveUnique store →
  caseInsensitiveUnique (postAiAlternatives cfg reqBody o now store).2.
Proof.
  intros Hunique. unfold postAiAlternatives.
  destruct (negb (openai cfg)); [done|].
  destruct (negb (nonEmpty (trim (requestedItem reqBody)))); [done|].
  destruct (generate (requestedItem reqBody) o now store)
    as [[aggregated store']|message] eqn:Hgenerate; [|done].
  destruct (generate_appends _ _ _ _ _ _ Hgenerate)
    as (model & parsed & inserted & _ & -> & _ & Hitems & Hnovel & Hnodup).
  by apply (append_novel store inserted _ (oracleTexts parsed) Hitems Hnovel Hnodup).
Qed.

(** So does a deletion: what is left of an item and situation is part of
    what was there. *)
Lemma deleteMany_unique store term :
  caseInsensitiveUnique store → caseInsensitiveUnique (deleteMany store term).
Proof.
  intros Hunique i s. eapply sublist_NoDup; [apply (Hunique i s)|].
  unfold storedTexts, deleteMany. do 2 apply fmap_sublist.
  rewrite list_filter_filter.
  rewrite (list_filter_iff _ (λ doc, item doc ≠ trim term
                                     ∧ (item doc = i ∧ situation doc = s)))
    by naive_solver.
  rewrite <- list_filter_filter. apply sublist_filter.
Qed.

End generation_facts.

(** C2.  After every call of the generation, whatever it answers, the
    collection is the one before with documents appended, all of the
    trimmed item; a text of the oracle's answer is among them only if no
    stored text of the item and situation equals it when letter case is
    ignored, and no two appended texts of one situation do; so texts that
    were unique in every item and situation, letter case ignored, still
    are, and the number of stored texts of a situation grows by at most
    the number of lower-cased texts of the answer that the situation did
    not have; a call that answers with an error leaves the collection as
    it was.  The collection after any sequence of generations and
    deletions, made one after the other from the empty collection, has
    texts that are unique in this sense. *)
Theorem generate_keeps_texts_unique `{Host}
    (cfg : config) (reqBody : value) (o : oracle) (now : Z)
    (store : list alternative) :
  let i := trim (requestedItem reqBody) in
  let response := (postAiAlternatives cfg reqBody o now store).1 in
  let after := (postAiAlternatives cfg reqBody o now store).2 in
  ∃ inserted,
    after = store ++ inserted ∧
    (∀ doc, doc ∈ inserted →
       item doc = i ∧
       toLowerCase (alternative_text doc)
         ∉ toLowerCase <$> storedTexts store i (situation doc)) ∧
    (∀ s, NoDup (toLowerCase <$> storedTexts inserted i s)) ∧
    (caseInsensitiveUnique store → caseInsensitiveUnique after) ∧
    (∀ model parsed s,
       o = Answered model (Json parsed) →
       length (storedTexts after i s) ≤
       length (storedTexts store i s) +
       size (list_to_set (toLowerCase <$> oracleTexts parsed s)
             ∖ list_to_set (toLowerCase <$> storedTexts store i s) : gset string)) ∧
    (∀ status error, response = AlternativesError status error → after = store) ∧
    (∀ writes, caseInsensitiveUnique (history writes)).
Proof.
  intros i response after.
  assert (∀ writes, caseInsensitiveUnique (history writes)) as Hhistory.
  { intros writes. unfold history.
    assert (caseInsensitiveUnique []) as Hempty by (intros ? ?; constructor).
    revert Hempty. generalize (@nil alternative).
    induction writes as [|w rest IH]; intros before Hbefore; [done|].
    apply IH. destruct w as [? ? ? ?|term]; simpl.
    - by apply postAiAlternatives_unique.
    - by apply deleteMany_unique. }
  assert (after = store →
          ∃ inserted,
            after = store ++ inserted ∧
            (∀ doc, doc ∈ inserted →
               item doc = i ∧
               toLowerCase (alternative_text doc)
                 ∉ toLowerCase <$> storedTexts store i (situation doc)) ∧
            (∀ s, NoDup (toLowerCase <$> storedTexts inserted i s)) ∧
            (caseInsensitiveUnique store → caseInsensitiveUnique after) ∧
            (∀ model parsed s,
               o = Answered model (Json parsed) →
               length (storedTexts after i s) ≤
               length (storedTexts store i s) +
               size (list_to_set (toLowerCase <$> oracleTexts parsed s)
                     ∖ list_to_set (toLowerCase <$> storedTexts store i s)
                     : gset string)) ∧
            (∀ status error, response = AlternativesError status error → after = store) ∧
            (∀ writes, caseInsensitiveUnique (history writes)))
    as Hsame.
  { intros ->. exists []. rewrite app_nil_r. split; [done|].
    split; [by intros doc []%elem_of_nil|]. split; [intros s; constructor|].
    split; [done|]. split; [intros; lia|done]. }
  subst response after. unfold postAiAlternatives in *.
  destruct (negb (openai cfg)); [by apply Hsame|].
  destruct (negb (nonEmpty (trim (requestedItem reqBody)))); [by apply Hsame|].
  destruct (generate (requestedItem reqBody) o now store)
    as [[aggregated store']|message] eqn:Hgenerate; [|by apply Hsame].
  clear Hsame. simpl.
  destruct (generate_appends _ _ _ _ _ _ Hgenerate)
    as (model & parsed & inserted & -> & -> & _ & Hitems & Hnovel & Hnodup).
  destruct (append_novel store inserted i (oracleTexts parsed) Hitems Hnovel Hnodup)
    as (Hdocs & Hunique & Hcount).
  exists inserted. split; [done|]. split; [by split; [apply Hitems|apply Hdocs]|].
  split; [done|]. split; [done|]. split; [|done].
  intros model' parsed' s [= _ <-]. apply Hcount.
Qed.

(** Two calls for one item, the second answer repeating the first in
    another letter case except for one new text: only that text is
    added. *)
Example generate_twice :
  let cfg := Config "secret" true in
  let body : value (H := latin_host) := VObj {["item" := VStr " Feierabendbier "]} in
  let answer (arbeit : list string) : value (H := latin_host) :=
    VObj {["results" := VObj (list_to_map
            [("arbeit", VArr (VStr <$> arbeit)); ("schwiegereltern", VStr "Limonade");
             ("philosophie_3uhr", VStr "Hopfentrost"); ("gasse_betrunken", VStr "Pils");
             ("behoerdlich", VStr "Genussmittel")])]} in
  let first := postAiAlternatives cfg body
                 (Answered "gpt-4o" (Json (answer ["Teamrunde"]))) 10 [] in
  let second := postAiAlternatives cfg body
                  (Answered "gpt-4o" (Json (answer ["TEAMRUNDE"; "Dienstschluss"])))
                  20 first.2 in
  length first.2 = 5 ∧
  second.2 = first.2 ++ [Alternative "Feierabendbier" "arbeit" "Dienstschluss" 20 "gpt-4o"] ∧
  second.1 = AlternativesOk
               (Alternatives "Feierabendbier"
                  (list_to_map
                     [("arbeit", ["Teamrunde"; "Dienstschluss"]);
                      ("schwiegereltern", ["Limonade"]);
                      ("philosophie_3uhr", ["Hopfentrost"]);
                      ("gasse_betrunken", ["Pils"]);
                      ("behoerdlich", ["Genussmittel"])])).
Proof. by_computation. Qed.

(** C3, as the specification states it, fails: two stored texts of one
    situation that differ in letter case only (as two racing calls can
    leave them) are both in the aggregate, which drops exact repetitions
    only. *)
Lemma aggregate_keeps_case_variants :
  let store :=
    [Alternative "Bier" "arbeit" "Hopfentee" 1 "gpt-4o";
     Alternative "Bier" "arbeit" "hopfentee" 2 "gpt-4o";
     Alternative "Bier" "arbeit" "Hopfentee" 3 "gpt-4o"] in
  a_results (aggregateAlternatives store "Bier") !! "arbeit"
  = Some ["Hopfentee"; "hopfentee"] ∧
  toLowerCase (Host := latin_host) "Hopfentee" = toLowerCase (Host := latin_host) "hopfentee".
Proof. by_computation. Qed.

(** C3, amended.  For every item, the aggregate reads the stored
    documents of the trimmed item in the order of their time of
    insertion and returns, for each of the five situations, every stored
    text of the item and situation, each once: repetitions of the very
    same text are dropped, texts that differ in letter case are all kept.
    Where the stored texts are unique with letter case ignored, as calls
    that do not race keep them, nothing is dropped and the list is unique
    in that sense too.  A generation that succeeds ends by returning this
    aggregate of the collection as it is after its insertion. *)
Theorem aggregate_is_stored_history `{Host}
    (store : list alternative) (itemText s : string) :
  let aggregated := aggregateAlternatives store itemText in
  let docs := sortByTimestamp (find store itemText) in
  let texts := alternative_text <$> filter (λ doc, situation doc = s) docs in
  docs ≡ₚ find store itemText ∧
  StronglySorted notLater docs ∧
  (trim itemText ≠ "" → s ∈ AI_SITUATION_KEYS →
     a_item aggregated = trim itemText ∧
     a_results aggregated !! s = Some (unique texts) ∧
     NoDup (unique texts) ∧
     (∀ text, text ∈ unique texts ↔ text ∈ storedTexts store (trim itemText) s) ∧
     (caseInsensitiveUnique store →
        unique texts = texts ∧ NoDup (toLowerCase <$> unique texts))) ∧
  (∀ cfg reqBody o now returned,
     requestedItem reqBody = itemText →
     (postAiAlternatives cfg reqBody o now store).1 = AlternativesOk returned →
     returned =
       aggregateAlternatives (postAiAlternatives cfg reqBody o now store).2 itemText ∧
     ∃ inserted, (postAiAlternatives cfg reqBody o now store).2 = store ++ inserted).
Proof.
  intros aggregated docs texts.
  assert (docs ≡ₚ find store itemText) as Hperm by apply sortByTimestamp_Permutation.
  assert (texts ≡ₚ storedTexts store (trim itemText) s) as Htexts.
  { unfold texts. rewrite Hperm. by rewrite storedTexts_find. }
  split; [done|]. split; [apply sortByTimestamp_sorted|]. split.
  - intros Hitem Hs. unfold aggregated, aggregateAlternatives.
    apply nonEmpty_spec in Hitem. rewrite Hitem. simpl.
    assert (find store (trim itemText) = find store itemText) as ->
      by (unfold find; by rewrite trim_idem).
    fold docs. split; [done|]. split.
    { rewrite foldl_collect, emptyAlternativeResults_lookup.
      rewrite decide_True by done. fold texts.
      rewrite foldl_addText. simpl. f_equal. apply filter_all.
      intros x _. apply not_elem_of_nil. }
    split; [apply unique_NoDup|]. split.
    { intros text. by rewrite unique_elem, Htexts. }
    intros Hunique.
    assert (NoDup (toLowerCase <$> texts)) as Hlower
      by (rewrite Htexts; apply Hunique).
    rewrite unique_id by (by eapply NoDup_fmap_1). done.
  - intros cfg reqBody o now returned Hreq. unfold postAiAlternatives. rewrite Hreq.
    destruct (negb (openai cfg)); [done|].
    destruct (negb (nonEmpty (trim itemText))); [done|].
    destruct (generate itemText o now store)
      as [[aggregated' store']|message] eqn:Hgenerate; [|done].
    simpl. intros [= <-].
    destruct (generate_appends _ _ _ _ _ _ Hgenerate)
      as (model & parsed & inserted & _ & -> & -> & _).
    eauto.
Qed.

Lemma aggregate_is_stored_history_witness :
  let store :=
    [Alternative "Bier" "arbeit" "Dienstschluss" 20 "gpt-4o";
     Alternative "Bier" "behoerdlich" "Genussmittel" 10 "gpt-4o";
     Alternative "Wein" "arbeit" "Traubensaft" 10 "gpt-4o";
     Alternative "Bier" "arbeit" "Teamrunde" 10 "gpt-4o";
     Alternative "Bier" "arbeit" "Dienstschluss" 30 "gpt-4o"] in
  trim " Bier" ≠ "" ∧
  a_results (aggregateAlternatives store " Bier") !! "arbeit"
  = Some ["Teamrunde"; "Dienstschluss"].
Proof.
  intros store. split; [discriminate|].
  destruct (aggregate_is_stored_history (H := latin_host) store " Bier" "arbeit")
    as (_ & _ & Hresults & _).
  destruct Hresults as (_ & Harbeit & _); [discriminate|left|].
  exact Harbeit.
Defined.

Lemma generate_keeps_texts_unique_witness :
  let cfg := Config "secret" true in
  let body : value (H := latin_host) := VObj {["item" := VStr "Feierabendbier"]} in
  let answer : value (H := latin_host) :=
    VObj {["results" := VObj (list_to_map
            [("arbeit", VArr [VStr "Teamrunde"; VStr "teamrunde"]);
             ("schwiegereltern", VStr "Limonade");
             ("philosophie_3uhr", VStr "Hopfentrost");
             ("gasse_betrunken", VStr "Pils");
             ("behoerdlich", VStr "Genussmittel")])]} in
  caseInsensitiveUnique (H := latin_host) [] ∧
  caseInsensitiveUnique (H := latin_host)
    (postAiAlternatives cfg body (Answered "gpt-4o" (Json answer)) 10 []).2 ∧
  length (postAiAlternatives cfg body (Answered "gpt-4o" (Json answer)) 10 []).2 = 5.
Proof.
  intros cfg body answer.
  assert (caseInsensitiveUnique (H := latin_host) []) as Hempty
    by (intros i s; constructor).
  split; [exact Hempty|]. split; [|reflexivity].
  destruct (generate_keeps_texts_unique (H := latin_host) cfg body
              (Answered "gpt-4o" (Json answer)) 10 [])
    as (inserted & _ & _ & _ & Hunique & _).
  exact (Hunique Hempty).
Defined.

(** * Further properties *)

(** ** Morphology and saving *)

Section morphology_more.
Context `{Host}.

Lemma allowedPos_trimmed tag : tag ∈ allowedPos → trim tag = tag.
Proof.
  unfold allowedPos. intros Htag.
  repeat (apply elem_of_cons in Htag as [->|Htag]; [reflexivity|]).
  by apply elem_of_nil in Htag.
Qed.

End morphology_more.

(** X1.  Normalizing what a normalization returned gives it back, on a
    host whose lower-casing leaves the nine tags as they are. *)
Theorem normalizePartOfSpeech_idempotent `{Host} (input : value) (tags : list string) :
  (∀ tag, tag ∈ allowedPos → toLowerCase tag = tag) →
  normalizePartOfSpeech input = Done tags →
  normalizePartOfSpeech (VArr (VStr <$> tags)) = Done tags.
Proof.
  intros Hlower Htags.
  destruct (normalizePartOfSpeech_shape _ _ Htags) as [->|(tag & -> & Htag)]; [done|].
  unfold normalizePartOfSpeech, canonical. simpl.
  rewrite (Hlower tag Htag), (allowedPos_trimmed tag Htag).
  by rewrite filter_cons_True.
Qed.

Lemma latin_lower_allowedPos tag :
  tag ∈ allowedPos → toLowerCase (Host := latin_host) tag = tag.
Proof.
  unfold allowedPos. intros Htag.
  repeat (apply elem_of_cons in Htag as [->|Htag]; [reflexivity|]).
  by apply elem_of_nil in Htag.
Qed.

Lemma normalizePartOfSpeech_idempotent_witness :
  normalizePartOfSpeech (H := latin_host) (VArr [VStr "VERB"; VStr "noun"]) = Done ["verb"] ∧
  normalizePartOfSpeech (H := latin_host) (VArr (VStr <$> ["verb"])) = Done ["verb"].
Proof.
  split; [reflexivity|].
  exact (normalizePartOfSpeech_idempotent (H := latin_host)
           (VArr [VStr "VERB"; VStr "noun"]) ["verb"] latin_lower_allowedPos eq_refl).
Defined.

(** X2.  For every value [String] converts, [normalizeArticle] returns
    [undefined] or one of the three articles, [undefined] for a falsy
    value; strings that differ in letter case only are normalized alike,
    and where lower-casing leaves the three articles as they are an
    article it returned is returned again. *)
Theorem normalizeArticle_result `{Host} (input : value) :
  convertible input = true →
  ∃ a,
    normalizeArticle input = Done a ∧
    (∀ article, a = Some article → article ∈ ["der"; "die"; "das"]) ∧
    (truthy input = false → a = None) ∧
    (∀ s s', s ≠ "" → s' ≠ "" → toLowerCase s = toLowerCase s' →
       normalizeArticle (VStr s) = normalizeArticle (VStr s')) ∧
    ((∀ article, article ∈ ["der"; "die"; "das"] → toLowerCase article = article) →
     ∀ article, a = Some article → normalizeArticle (VStr article) = Done (Some article)).
Proof.
  intros Hin. destruct (normalizeArticle_returns input Hin) as [a Ha].
  exists a. split; [done|]. split; [|split; [|split]].
  - intros article ->. by eapply normalizeArticle_shape.
  - intros Hfalsy. unfold normalizeArticle in Ha. rewrite Hfalsy in Ha.
    by injection Ha as <-.
  - intros s s' Hs Hs' Hlower. unfold normalizeArticle. simpl.
    apply nonEmpty_spec in Hs, Hs'. unfold nonEmpty in Hs, Hs'.
    rewrite Hs, Hs'. simpl. by rewrite Hlower.
  - intros Hlower article ->.
    pose proof (normalizeArticle_shape _ _ Ha) as Harticle.
    assert (trim article = article ∧ article ≠ "") as [Htrim Hfull].
    { repeat (apply elem_of_cons in Harticle as [->|Harticle]; [done|]).
      by apply elem_of_nil in Harticle. }
    unfold normalizeArticle. simpl.
    apply nonEmpty_spec in Hfull. unfold nonEmpty in Hfull. rewrite Hfull. simpl.
    rewrite (Hlower article) by done. rewrite Htrim.
    by rewrite bool_decide_eq_true_2.
Qed.

Lemma normalizeArticle_result_witness :
  convertible (H := latin_host) (VStr " Die ") = true ∧
  normalizeArticle (H := latin_host) (VStr " Die ") = Done (Some "die").
Proof.
  split; [reflexivity|].
  destruct (normalizeArticle_result (H := latin_host) (VStr " Die ") eq_refl)
    as (a & Ha & _).
  reflexivity.
Defined.

(** X3.  Whatever a create or update request hands to the storage comes
    from an authorized request, has a term and a definition, at most one
    part of speech, which is one of the nine tags, and an article exactly
    when that part of speech is ["noun"], which is then one of the
    three. *)
Theorem persisted_entry_invariant `{Host} (authCookie reqBody : value) (doc : entryDoc) :
  saveRequest authCookie reqBody = Done (Persist doc) →
  authCookie = VStr "1" ∧
  truthy (e_term doc) = true ∧ truthy (e_definition doc) = true ∧
  (e_partOfSpeech doc = [] ∨ ∃ tag, e_partOfSpeech doc = [tag] ∧ tag ∈ allowedPos) ∧
  ("noun" ∈ e_partOfSpeech doc ↔ is_Some (e_article doc)) ∧
  (∀ a, e_article doc = Some a → a ∈ ["der"; "die"; "das"]).
Proof.
  unfold saveRequest. intros Hsave.
  assert (authCookie = VStr "1") as Hcookie.
  { destruct authCookie as [| | | |s| |]; try done. simpl in Hsave.
    destruct (String.eqb_spec s "1") as [->|]; [done|done]. }
  split; [done|]. subst authCookie. simpl in Hsave.
  destruct (truthy (prop "term" _)) eqn:Hterm; [|done].
  destruct (truthy (prop "definition" _)) eqn:Hdefinition; [|done].
  simpl in Hsave. unfold validateMorphology in Hsave.
  destruct (normalizePartOfSpeech _) as [tags|] eqn:Htags; [|done].
  destruct (normalizeArticle _) as [a|] eqn:Ha; [|done].
  simpl in Hsave. pose proof (normalizePartOfSpeech_shape _ _ Htags) as Hshape.
  case_bool_decide as Hnoun; [destruct a as [a|]|]; simpl in Hsave; try done;
    injection Hsave as <-; simpl; (split; [done|]); (split; [done|]);
    (split; [done|]).
  - split; [by split; eauto|]. intros ? [= <-]. by eapply normalizeArticle_shape.
  - split; [|done]. split; [done|]. by intros [? ?].
Qed.

Lemma persisted_entry_invariant_witness :
  let body : value (H := latin_host) :=
    VObj (list_to_map [("term", VStr "Tisch"); ("definition", VStr "ein Moebel");
                       ("partOfSpeech", VStr "Noun"); ("article", VStr "DER")]) in
  let doc := EntryDoc (VStr "Tisch") (VStr "ein Moebel") VUndefined VUndefined
                      ["noun"] (Some "der") in
  saveRequest (VStr "1") body = Done (Persist doc) ∧
  ("noun" ∈ e_partOfSpeech doc ↔ is_Some (e_article doc)).
Proof.
  intros body doc. split; [reflexivity|].
  apply (persisted_entry_invariant (H := latin_host) (VStr "1") body doc eq_refl).
Defined.

(** X4.  A create or update request makes the handler throw, so that no
    response is sent, exactly when it is authorized, has a term and a
    definition, and its part of speech, or else its article, is a truthy
    value [String] does not convert; the exception is the [TypeError] of
    that conversion. *)
Theorem saveRequest_throws `{Host} (authCookie reqBody : value) (message : string) :
  let body := or_else reqBody (VObj ∅) in
  saveRequest authCookie reqBody = Thrown message ↔
  requireAuth authCookie = true ∧
  truthy (prop "term" body) = true ∧ truthy (prop "definition" body) = true ∧
  message = TypeError ∧
  (truthy (prop "partOfSpeech" body) = true ∧ convertible (prop "partOfSpeech" body) = false
   ∨ (truthy (prop "partOfSpeech" body) = false ∨ convertible (prop "partOfSpeech" body) = true)
     ∧ truthy (prop "article" body) = true ∧ convertible (prop "article" body) = false).
Proof.
  intros body. unfold saveRequest. fold body.
  destruct (requireAuth authCookie); simpl; [|by split; [|intros [? _]]].
  destruct (truthy (prop "term" body)); simpl; [|by split; [|intros (_ & ? & _)]].
  destruct (truthy (prop "definition" body)); simpl;
    [|by split; [|intros (_ & _ & ? & _)]].
  unfold validateMorphology.
  destruct (normalizePartOfSpeech (prop "partOfSpeech" body)) as [tags|e] eqn:Htags; simpl.
  - assert (truthy (prop "partOfSpeech" body) = false
            ∨ convertible (prop "partOfSpeech" body) = true) as Hpos.
    { destruct (truthy (prop "partOfSpeech" body)) eqn:Ht; [|by left].
      destruct (convertible (prop "partOfSpeech" body)) eqn:Hc; [by right|].
      assert (normalizePartOfSpeech (prop "partOfSpeech" body) = Thrown TypeError)
        as Hthrown by (by apply normalizePartOfSpeech_throws_iff).
      congruence. }
    destruct (normalizeArticle (prop "article" body)) as [a|e] eqn:Ha; simpl.
    + split.
      * case_bool_decide; [destruct a|]; done.
      * intros (_ & _ & _ & _ & [[Ht Hc]|(_ & Ht & Hc)]).
        -- destruct Hpos; congruence.
        -- assert (normalizeArticle (prop "article" body) = Thrown TypeError)
             as Hthrown by (by apply normalizeArticle_throws_iff).
           congruence.
    + apply normalizeArticle_throws_iff in Ha as (Ht & Hc & ->).
      split; [intros [= <-]|intros (_ & _ & _ & -> & _)]; [|done].
      repeat split; try done. by right.
  - apply normalizePartOfSpeech_throws_iff in Htags as (Ht & Hc & ->).
    split; [intros [= <-]|intros (_ & _ & _ & -> & _)]; [|done].
    repeat split; try done. by left.
Qed.

(** The request is left without an answer. *)
Example saveRequest_throws_on_object :
  saveRequest (H := latin_host) (VStr "1")
    (VObj (list_to_map [("term", VStr "Tisch"); ("definition", VStr "ein Moebel");
                        ("article", VObj {["toString" := VNull]})]))
  = Thrown TypeError.
Proof. reflexivity. Qed.

(** ** Field completion and the gates before the oracle *)

(** X5.  A completion that succeeds passed every gate: the password is
    configured, the request is authorized, the client exists and the
    request has at least one of the four content fields.  None of the
    four content fields of its result, nor the article, is [undefined] or
    [null], and its part of speech is empty or one of the nine tags. *)
Theorem completion_fields_defined `{Host}
    (cfg : config) (authCookie reqBody : value) (o : oracle) (fields : completed) :
  postAiComplete cfg authCookie reqBody o = CompleteOk fields →
  ADMIN_PASSWORD cfg ≠ "" ∧ requireAuth authCookie = true ∧ openai cfg = true ∧
  Exists (λ field : string * (completed → value),
            truthy (prop field.1 (or_else reqBody (VObj ∅))) = true) contentFields ∧
  Forall (λ field : string * (completed → value),
            isNullish (field.2 fields) = false) contentFields ∧
  isNullish (c_article fields) = false ∧
  (c_partOfSpeech fields = [] ∨ ∃ tag, c_partOfSpeech fields = [tag] ∧ tag ∈ allowedPos).
Proof.
  intros Hok.
  destruct (postAiComplete_ok _ _ _ _ _ Hok) as (model & parsed & -> & Hmerge).
  unfold postAiComplete in Hok.
  destruct (nonEmpty (ADMIN_PASSWORD cfg)) eqn:Hpassword; [|done].
  destruct (requireAuth authCookie); [|done].
  destruct (openai cfg); [|done]. simpl in Hok.
  apply nonEmpty_spec in Hpassword. split; [done|]. split; [done|]. split; [done|].
  split.
  { unfold contentFields. rewrite !Exists_cons. simpl.
    destruct (truthy (prop "term" _)); [by left|].
    destruct (truthy (prop "definition" _)); [by right; left|].
    destruct (truthy (prop "example" _)); [by right; right; left|].
    destruct (truthy (prop "synonyms" _)); [by right; right; right; left|]. done. }
  apply mergeCompletion_ok in Hmerge as (_ & Hpos & Hart & Hcontent).
  split; [|split].
  - eapply Forall_impl; [exact Hcontent|]. intros [name read] ->. simpl.
    by destruct (prop name parsed); destruct (prop name (or_else reqBody (VObj ∅))).
  - rewrite Hart.
    by destruct (prop "article" parsed); destruct (prop "article" (or_else reqBody (VObj ∅))).
  - by eapply normalizePartOfSpeech_shape.
Qed.

Lemma completion_fields_defined_witness :
  let body : value (H := latin_host) := VObj (list_to_map [("synonyms", VStr "rennen")]) in
  let parsed : value (H := latin_host) :=
    VObj (list_to_map [("term", VNull); ("partOfSpeech", VStr "Verb; Noun")]) in
  ∃ fields,
    postAiComplete (Config "secret" true) (VStr "1") body
                   (Answered "gpt-4o-mini" (Json parsed)) = CompleteOk fields ∧
    isNullish (c_term fields) = false ∧ isNullish (c_article fields) = false.
Proof.
  intros body parsed.
  pose (expected := Completed (H := latin_host) (VStr "") (VStr "") (VStr "")
                      (VStr "rennen") [] (VStr "")).
  assert (postAiComplete (Config "secret" true) (VStr "1") body
            (Answered "gpt-4o-mini" (Json parsed)) = CompleteOk expected)
    as Hok by reflexivity.
  exists expected. split; [exact Hok|].
  destruct (completion_fields_defined (H := latin_host) _ _ _ _ _ Hok)
    as (_ & _ & _ & _ & Hcontent & Harticle & _).
  apply Forall_cons in Hcontent as [Hterm _]. by split.
Defined.

(** X6.  A request that is refused for what it is (status 400 or 401 of
    the completion and the review, 400 of the generation) is refused in
    the same way whatever the oracle would answer, and the collection of
    alternatives stays as it is: the answer of the oracle is not looked
    at. *)
Theorem refusals_ignore_oracle `{Host}
    (cfg : config) (authCookie reqBody : value) (o o' : oracle)
    (now now' : Z) (store : list alternative) (status : nat) (error : string) :
  (postAiComplete cfg authCookie reqBody o = CompleteError status error →
   status ≠ 500 →
   postAiComplete cfg authCookie reqBody o' = CompleteError status error) ∧
  (postSpellcheck cfg authCookie reqBody o = ReviewError status error →
   status ≠ 500 →
   postSpellcheck cfg authCookie reqBody o' = ReviewError status error) ∧
  ((postAiAlternatives cfg reqBody o now store).1 = AlternativesError status error →
   status ≠ 502 →
   postAiAlternatives cfg reqBody o' now' store = (AlternativesError status error, store)).
Proof.
  split; [|split].
  - unfold postAiComplete.
    destruct (negb (nonEmpty (ADMIN_PASSWORD cfg))); [done|].
    destruct (negb (requireAuth authCookie)); [done|].
    destruct (negb (openai cfg)); [done|].
    destruct (_ && _ && _ && _); [done|].
    destruct (_ ≫= _); [done|]. by intros [= <- <-].
  - unfold postSpellcheck.
    destruct (negb (nonEmpty (ADMIN_PASSWORD cfg))); [done|].
    destruct (negb (requireAuth authCookie)); [done|].
    destruct (negb (openai cfg)); [done|].
    destruct (fieldsToReview _); [done|].
    destruct (_ ≫= _); [done|]. by intros [= <- <-].
  - unfold postAiAlternatives.
    destruct (negb (openai cfg)); [by intros [= <- <-]|].
    destruct (negb (nonEmpty (trim (requestedItem reqBody)))); [by intros [= <- <-]|].
    destruct (generate _ o now store) as [[? ?]|?]; [done|]. by intros [= <- <-].
Qed.

Lemma refusals_ignore_oracle_witness :
  postSpellcheck (H := latin_host) (Config "secret" true) (VStr "1") (VObj ∅)
                 (Answered "gpt-4o"
                    (Json (VObj {["term" := VObj {["corrected" := VStr "Tisch"]}]})))
  = ReviewError 400 "Provide at least one user-entered field to review".
Proof.
  apply (refusals_ignore_oracle (H := latin_host) (Config "secret" true) (VStr "1")
           (VObj ∅) (Rejected "timeout") _ 0%Z 0%Z []);
    [reflexivity|discriminate].
Defined.


(** ** Spelling and lemma review *)

Section review_more.
Context `{Host}.

Lemma filledString_Some v s :
  filledString v = Some s → v = VStr s ∧ trim s ≠ "" ∧ s ≠ "".
Proof.
  destruct v as [| | | |t| |]; try done. simpl.
  destruct (nonEmpty (trim t)) eqn:Ht; [|done]. intros [= <-].
  apply nonEmpty_spec in Ht. split; [done|]. split; [done|]. by intros ->.
Qed.

Lemma neutral_wellFormed : wellFormed neutral.
Proof. repeat split; try done. by left. Qed.

(** Every pass writes a well-formed entry. *)
Lemma reviewField_wellFormed body parsed field entry parsed' :
  reviewField body parsed field = Done (entry, parsed') → wellFormed entry.
Proof.
  unfold reviewField. destruct (get field parsed) as [value|]; [|done]. simpl.
  destruct (isObject value); simpl; [|intros [= <- _]; apply neutral_wellFormed].
  destruct (normalizePartOfSpeech _) as [pos|] eqn:Hpos; [|done]. simpl.
  pose proof (normalizePartOfSpeech_shape _ _ Hpos) as Hshape.
  assert (∀ c, wellFormed (ReviewResult c
            (match prop "suggestions" value with VArr l => l | _ => [] end)
            (trim <$> filledString (prop "lemma" value)) pos
            ((λ s, toLowerCase (trim s)) <$> filledString (prop "article" value)))
          ↔ c ≠ Some "") as Hentry.
  { intros c. unfold wellFormed. simpl. split; [by intros [? _]|]. intros Hc.
    split; [done|]. split; [|split; [done|]].
    - intros l Hl. destruct (filledString (prop "lemma" value)) as [s|] eqn:Hs; [|done].
      injection Hl as <-. apply filledString_Some in Hs as (_ & ? & _).
      split; [done|apply trim_idem].
    - intros a Ha. destruct (filledString (prop "article" value)) as [s|] eqn:Hs; [|done].
      injection Ha as <-. apply filledString_Some in Hs as (_ & ? & _). eauto. }
  assert (filledString (prop "corrected" value) ≠ Some "") as Hcorrected.
  { intros Hs. by apply filledString_Some in Hs as (_ & _ & ?). }
  destruct (String.eqb field "term" && bool_decide ("noun" ∈ pos)); simpl.
  - destruct (nonEmpty (capitalizeFirst _)) eqn:Hcap; simpl.
    + destruct (negb _); intros [= <- _]; apply Hentry; [|done].
      apply nonEmpty_spec in Hcap. by intros [= ?].
    + intros [= <- _]. by apply Hentry.
  - intros [= <- _]. by apply Hentry.
Qed.

Lemma reviewFields_wellFormed body fields :
  ∀ parsed acc result,
    reviewFields body parsed fields acc = Done result →
    (∀ field entry, acc !! field = Some entry → wellFormed entry) →
    ∀ field entry, result !! field = Some entry → wellFormed entry.
Proof.
  induction fields as [|f rest IH]; intros parsed acc result Hdone Hacc.
  - by injection Hdone as <-.
  - rewrite reviewFields_cons in Hdone.
    destruct (reviewField body parsed f) as [[e parsed']|] eqn:Hpass; [|done].
    simpl in Hdone. apply (IH _ _ _ Hdone).
    intros field entry. destruct (decide (f = field)) as [<-|Hne].
    + rewrite lookup_insert_eq. intros [= <-]. by eapply reviewField_wellFormed.
    + rewrite lookup_insert_ne by done. apply Hacc.
Qed.

Lemma pushed_prop_other parsed field longer name :
  name ≠ field → prop name (pushed parsed field longer) = prop name parsed.
Proof.
  intros Hne. unfold pushed. destruct parsed as [| | | | | |m]; try done.
  destruct (m !! field) as [[| | | | | |vm]|]; try done.
  destruct (vm !! "suggestions") as [[| | | | |l|]|]; try done.
  simpl. by rewrite lookup_insert_ne.
Qed.

(** A pass over a field other than the term leaves what the oracle gave. *)
Lemma reviewField_other body parsed field entry parsed' :
  field ≠ "term" →
  reviewField body parsed field = Done (entry, parsed') →
  corrected entry = filledString (prop "corrected" (prop field parsed)) ∧
  suggestions entry = proposedSuggestions (prop field parsed).
Proof.
  intros Hne. unfold reviewField.
  destruct (get field parsed) as [value|] eqn:Hget; [|done].
  apply get_Done in Hget as [_ ->]. simpl.
  destruct (isObject (prop field parsed)) eqn:Hobject; simpl.
  - destruct (normalizePartOfSpeech _) as [pos|]; [|done]. simpl.
    apply String.eqb_neq in Hne. rewrite Hne. simpl. by intros [= <- _].
  - intros [= <- _]. unfold proposedSuggestions.
    by destruct (prop field parsed).
Qed.

Lemma reviewFields_other body fields :
  ∀ parsed acc result field,
    reviewFields body parsed fields acc = Done result →
    field ≠ "term" → field ∈ fields →
    ∃ entry,
      result !! field = Some entry ∧
      corrected entry = filledString (prop "corrected" (prop field parsed)) ∧
      suggestions entry = proposedSuggestions (prop field parsed).
Proof.
  induction fields as [|f rest IH]; intros parsed acc result field Hdone Hne Hin.
  - by apply elem_of_nil in Hin.
  - rewrite reviewFields_cons in Hdone.
    destruct (reviewField body parsed f) as [[e parsed']|] eqn:Hpass; [|done].
    simpl in Hdone.
    destruct (reviewField_pass _ _ _ _ _ Hpass) as (_ & Hparsed & Hsame).
    assert (prop field parsed' = prop field parsed) as Hprop.
    { destruct (decide (f = "term")) as [->|Hf]; [|by rewrite Hsame].
      destruct Hparsed as [->|[longer ->]]; [done|]. by apply pushed_prop_other. }
    destruct (decide (field ∈ rest)) as [Hrest|Hrest].
    + destruct (IH _ _ _ field Hdone Hne Hrest) as (entry & ? & ? & ?).
      exists entry. by rewrite <- Hprop.
    + apply elem_of_cons in Hin as [->|?]; [|done].
      exists e. destruct (reviewFields_entries _ _ _ _ _ Hdone f) as [_ Hout].
      rewrite (Hout Hrest), lookup_insert_eq. split; [done|].
      by eapply reviewField_other.
Qed.

End review_more.

(** X7.  The fields a review goes over are fields among the four that
    have a truthy value in the request and, when the request has a
    [userInput] object, a truthy flag in it.  Without a [userFields] array
    these are all such fields, each once, in the order term, definition,
    example, synonyms; with one, they are those of them the array
    names. *)
Theorem fieldsToReview_selected `{Host} (body : value) :
  let flagged field :=
    isObject (prop "userInput" body) = true →
    truthy (prop field (prop "userInput" body)) = true in
  (∀ field, field ∈ fieldsToReview body →
     field ∈ allowedFields ∧ truthy (prop field body) = true ∧ flagged field) ∧
  (∀ items field, prop "userFields" body = VArr items →
     (field ∈ fieldsToReview body ↔
      VStr field ∈ items ∧ field ∈ allowedFields ∧
      truthy (prop field body) = true ∧ flagged field)) ∧
  ((∀ items, prop "userFields" body ≠ VArr items) →
     (∀ field, field ∈ fieldsToReview body ↔
        field ∈ allowedFields ∧ truthy (prop field body) = true ∧ flagged field) ∧
     NoDup (fieldsToReview body) ∧
     fieldsToReview body `sublist_of` allowedFields).
Proof.
  intros flagged.
  assert (∀ field,
            truthy (prop field body) &&
            match userInputMap body with
            | Some map => truthy (prop field map)
            | None => true
            end = true ↔ truthy (prop field body) = true ∧ flagged field) as Hkeep.
  { intros field. unfold flagged, userInputMap. rewrite andb_true_iff.
    destruct (isObject (prop "userInput" body)); naive_solver. }
  assert (∀ field, field ∈ requestedFields body →
            field ∈ allowedFields ∧
            ∀ items, prop "userFields" body = VArr items → VStr field ∈ items) as Hrequested.
  { intros field. unfold requestedFields.
    destruct (prop "userFields" body) as [| | | | |items|] eqn:Hfields;
      try (intros ?; split; [done|]; by intros ? [=]).
    intros (v & Hv & Hsome)%list_elem_of_omap.
    destruct v as [| | | |s| |]; try done. case_bool_decide; [|done].
    injection Hsome as <-. split; [done|]. by intros ? [= <-]. }
  split; [|split].
  - intros field [Hfield Hin]%list_elem_of_filter.
    apply Hkeep in Hfield as [? ?]. by destruct (Hrequested field Hin).
  - intros items field Hitems. unfold fieldsToReview.
    rewrite list_elem_of_filter, Hkeep. split.
    + intros [[? ?] Hin]. destruct (Hrequested field Hin) as [? Hnamed]. eauto.
    + intros (Hnamed & Hallowed & ? & ?). split; [done|].
      unfold requestedFields. rewrite Hitems. apply list_elem_of_omap.
      exists (VStr field). split; [done|]. by rewrite bool_decide_eq_true_2.
  - intros Hnone.
    assert (requestedFields body = allowedFields) as Hall.
    { unfold requestedFields.
      destruct (prop "userFields" body) as [| | | | |items|] eqn:Hfields; try done.
      by destruct (Hnone items). }
    unfold fieldsToReview. rewrite Hall. split; [|split].
    + intros field. rewrite list_elem_of_filter, Hkeep. naive_solver.
    + apply NoDup_filter. unfold allowedFields.
      repeat (apply NoDup_cons; split; [set_solver|]). constructor.
    + apply sublist_filter.
Qed.

(** X8.  Every entry of a review that succeeds is well formed: its
    corrected value is [null] or a string that is not empty, its lemma
    [null] or trimmed and not empty, its part of speech empty or one of
    the nine tags, its article [null] or the lower-cased trimmed form of
    a string that is not blank. *)
Theorem review_entries_wellFormed `{Host}
    (cfg : config) (authCookie reqBody : value) (o : oracle)
    (result : gmap string reviewResult) :
  postSpellcheck cfg authCookie reqBody o = ReviewOk result →
  ∀ field entry, result !! field = Some entry → wellFormed entry.
Proof.
  intros Hok field entry Hentry.
  destruct (postSpellcheck_ok _ _ _ _ _ Hok) as (model & parsed & _ & _ & Hfields).
  by eapply (reviewFields_wellFormed _ _ _ _ _ Hfields).
Qed.

(** X9.  In a review that succeeds, the corrected value and the
    suggestions of every reviewed field other than the term are those of
    the oracle's answer, whatever part of speech the answer gives for the
    field: only the term is capitalized. *)
Theorem review_capitalizes_term_only `{Host}
    (cfg : config) (authCookie reqBody : value) (o : oracle)
    (result : gmap string reviewResult) (field : string) :
  postSpellcheck cfg authCookie reqBody o = ReviewOk result →
  field ∈ fieldsToReview (or_else reqBody (VObj ∅)) →
  field ≠ "term" →
  ∃ model parsed entry,
    o = Answered model (Json parsed) ∧
    result !! field = Some entry ∧
    corrected entry = filledString (prop "corrected" (prop field parsed)) ∧
    suggestions entry = proposedSuggestions (prop field parsed).
Proof.
  intros Hok Hin Hne.
  destruct (postSpellcheck_ok _ _ _ _ _ Hok) as (model & parsed & -> & _ & Hfields).
  destruct (reviewFields_other _ _ _ _ _ field Hfields Hne Hin) as (entry & ? & ? & ?).
  by exists model, parsed, entry.
Qed.

Lemma review_entries_wellFormed_witness :
  let body : value (H := latin_host) := VObj (list_to_map [("term", VStr "tisch")]) in
  let parsed : value (H := latin_host) :=
    VObj (list_to_map
            [("term", VObj (list_to_map [("corrected", VStr "  "); ("lemma", VStr " Tisch ");
                                         ("partOfSpeech", VStr "NOUN");
                                         ("article", VStr " Der ")]))]) in
  let entry := ReviewResult (H := latin_host) (Some "Tisch")
                 [suggestion "tisch" "Tisch" capitalizationReason]
                 (Some "Tisch") ["noun"] (Some "der") in
  postSpellcheck (Config "secret" true) (VStr "1") body (Answered "gpt-4o" (Json parsed))
  = ReviewOk {["term" := entry]} ∧
  wellFormed entry.
Proof.
  intros body parsed entry.
  assert (postSpellcheck (Config "secret" true) (VStr "1") body
            (Answered "gpt-4o" (Json parsed)) = ReviewOk {["term" := entry]})
    as Hok by reflexivity.
  split; [exact Hok|].
  apply (review_entries_wellFormed (H := latin_host) _ _ _ _ _ Hok "term").
  apply lookup_singleton_eq.
Defined.

Lemma review_capitalizes_term_only_witness :
  let body : value (H := latin_host) :=
    VObj (list_to_map [("term", VStr "Tisch"); ("synonyms", VStr "tafel")]) in
  let parsed : value (H := latin_host) :=
    VObj (list_to_map
            [("synonyms", VObj (list_to_map [("partOfSpeech", VStr "noun")]))]) in
  ∃ result entry,
    postSpellcheck (Config "secret" true) (VStr "1") body (Answered "gpt-4o" (Json parsed))
    = ReviewOk result ∧
    result !! "synonyms" = Some entry ∧ corrected entry = None ∧ suggestions entry = [].
Proof.
  intros body parsed.
  assert (∃ result, postSpellcheck (Config "secret" true) (VStr "1") body
                      (Answered "gpt-4o" (Json parsed)) = ReviewOk result)
    as [result Hok] by (eexists; reflexivity).
  assert ("synonyms" ∈ fieldsToReview (or_else body (VObj ∅))) as Hin
    by (change (fieldsToReview (or_else body (VObj ∅))) with ["term"; "synonyms"];
        right; left).
  destruct (review_capitalizes_term_only (H := latin_host) _ _ _ _ _ "synonyms" Hok Hin)
    as (model & parsed' & entry & Ho & Hentry & Hcorrected & Hsuggestions);
    [discriminate|].
  injection Ho as _ <-. exists result, entry. split; [exact Hok|]. by split.
Defined.

(** ** Situational alternatives *)

Section alternatives_more.
Context `{Host}.

(** The list the aggregate has for a situation. *)
Lemma aggregate_lookup store itemText s :
  trim itemText ≠ "" → s ∈ AI_SITUATION_KEYS →
  a_results (aggregateAlternatives store itemText) !! s =
  Some (unique (alternative_text <$>
                filter (λ doc, situation doc = s) (sortByTimestamp (find store itemText)))).
Proof.
  intros Hitem Hs. unfold aggregateAlternatives.
  apply nonEmpty_spec in Hitem. rewrite Hitem. simpl.
  assert (find store (trim itemText) = find store itemText) as ->
    by (unfold find; by rewrite trim_idem).
  rewrite foldl_collect, emptyAlternativeResults_lookup.
  rewrite decide_True by done. rewrite foldl_addText. simpl. f_equal.
  apply filter_all. intros x _. apply not_elem_of_nil.
Qed.

Lemma aggregate_texts store itemText s :
  alternative_text <$>
    filter (λ doc, situation doc = s) (sortByTimestamp (find store itemText))
  ≡ₚ storedTexts store (trim itemText) s.
Proof. rewrite sortByTimestamp_Permutation. by rewrite storedTexts_find. Qed.

Lemma aggregate_keys store itemText s :
  is_Some (a_results (aggregateAlternatives store itemText) !! s) ↔
  s ∈ AI_SITUATION_KEYS.
Proof.
  unfold aggregateAlternatives.
  destruct (negb (nonEmpty (trim itemText))); simpl.
  - rewrite emptyAlternativeResults_lookup. case_decide; [by split; eauto|].
    split; [by intros []|done].
  - rewrite foldl_collect, emptyAlternativeResults_lookup.
    case_decide; [by split; eauto|]. split; [by intros []|done].
Qed.

(** A normalization that returns has a text for every key. *)
Lemma oracleTexts_nonempty parsed itemText normalized s :
  normalizeAlternativesResponse parsed itemText = Done normalized →
  s ∈ AI_SITUATION_KEYS → oracleTexts parsed s ≠ [].
Proof.
  intros Hnormalized Hs Hempty. unfold oracleTexts in Hempty.
  rewrite decide_True in Hempty by done.
  unfold normalizeAlternativesResponse in Hnormalized.
  destruct (negb (truthy parsed) || negb (typeof_object parsed)); [done|].
  destruct (normalizeKeys_Thrown (resultsOf parsed) _ emptyAlternativeResults
              s Hs Hempty) as (missing & _ & Hthrown).
  by rewrite Hthrown in Hnormalized.
Qed.

(** The documents a generation writes pass the schema. *)
Lemma candidates_valid parsed itemText normalized now modelVersion existing doc :
  nonEmpty (trim itemText) = true →
  normalizeAlternativesResponse parsed itemText = Done normalized →
  doc ∈ toInsert existing (candidates normalized now modelVersion) →
  valid (cast doc) = true ∧
  cast doc = Alternative (trim itemText) (situation doc) (alternative_text doc)
                         now (trim modelVersion) ∧
  situation doc ∈ AI_SITUATION_KEYS ∧
  alternative_text doc ∈ oracleTexts parsed (situation doc).
Proof.
  intros Hitem Hnormalized Hdoc.
  destruct (toInsert_novel (candidates normalized now modelVersion) existing)
    as [Hkept _].
  destruct (Hkept doc Hdoc) as (Hcandidate & _).
  destruct (normalizeAlternativesResponse_Done _ _ _ Hnormalized) as [Ha _].
  assert (timestamp doc = now ∧ model_version doc = modelVersion) as [Hnow Hmodel].
  { unfold candidates in Hcandidate.
    apply list_elem_of_bind in Hcandidate as (key & Hd & _).
    by apply list_elem_of_fmap in Hd as (text & -> & _). }
  apply candidates_elem in Hcandidate as (Hi & Hs & Htext).
  destruct (normalized_texts parsed itemText normalized (situation doc)
              (alternative_text doc) Hnormalized) as [Htexts Htrim].
  rewrite Htexts in Htext. specialize (Htrim Htext).
  assert (alternative_text doc ≠ "") as Hfull.
  { unfold oracleTexts in Htext. rewrite decide_True in Htext by done.
    destruct (cleaned_trimmed (toList (prop (situation doc) (resultsOf parsed))))
      as [_ Hall].
    rewrite Forall_forall in Hall. by destruct (Hall _ Htext). }
  split; [|split; [|done]].
  - unfold valid, cast. simpl. rewrite Hi, Ha, Hitem, Htrim.
    rewrite bool_decide_eq_true_2 by done. by apply nonEmpty_spec in Hfull as ->.
  - unfold cast. by rewrite Hi, Ha, Htrim, Hnow, Hmodel.
Qed.

(** A generation on an answer that normalizes returns: the schema
    refuses none of the documents it writes. *)
Lemma generate_returns itemText model parsed normalized now store :
  nonEmpty (trim itemText) = true →
  normalizeAlternativesResponse parsed itemText = Done normalized →
  generate itemText (Answered model (Json parsed)) now store =
  Done (aggregateAlternatives
          (store ++ (cast <$> toInsert (existingBySituation (find store itemText))
                       (candidates normalized now
                          (if nonEmpty model then model else "gpt-4o-mini"))))
          itemText,
        store ++ (cast <$> toInsert (existingBySituation (find store itemText))
                    (candidates normalized now
                       (if nonEmpty model then model else "gpt-4o-mini")))).
Proof.
  intros Hitem Hnormalized. unfold generate. simpl. rewrite Hnormalized. simpl.
  destruct (normalizeAlternativesResponse_Done _ _ _ Hnormalized) as [Ha _].
  rewrite Ha.
  set (modelVersion := if nonEmpty model then model else "gpt-4o-mini").
  pose proof (candidates_valid parsed itemText normalized now modelVersion
                (existingBySituation (find store itemText)) ) as Hvalid.
  set (docs := toInsert _ _) in *.
  destruct docs as [|d rest] eqn:Hdocs.
  - simpl. by rewrite app_nil_r.
  - rewrite <- Hdocs in *. unfold insertMany.
    assert (forallb valid (cast <$> docs) = true) as ->.
    { apply forallb_forall. intros doc' Hin. apply list_elem_of_In in Hin.
      apply list_elem_of_fmap in Hin as (doc & -> & Hdoc).
      by destruct (Hvalid doc Hitem Hnormalized Hdoc). }
    done.
Qed.

(** A generation throws what reading or normalizing the answer throws,
    whatever the time and the collection. *)
Lemma generate_Thrown itemText o now store message :
  nonEmpty (trim itemText) = true →
  generate itemText o now store = Thrown message →
  ∀ now' store', generate itemText o now' store' = Thrown message.
Proof.
  intros Hitem Hthrown now' store'.
  destruct o as [rejected|model [|malformed|parsed]]; try done.
  destruct (normalizeAlternativesResponse parsed itemText) as [normalized|m] eqn:Hn.
  - by rewrite (generate_returns _ _ _ _ _ _ Hitem Hn) in Hthrown.
  - unfold generate in *. simpl in *. by rewrite Hn in *.
Qed.

Lemma toInsert_sublist docs :
  ∀ existing, sublist (toInsert existing docs) docs.
Proof.
  induction docs as [|d rest IH]; intros existing; [done|]. simpl.
  destruct (negb (nonEmpty (toLowerCase (alternative_text d)))).
  - by apply sublist_cons.
  - case_bool_decide; [by apply sublist_cons|by apply sublist_skip].
Qed.

(** Nothing is kept when every candidate is empty once lower-cased, or
    in the set of its situation. *)
Lemma toInsert_nil docs :
  ∀ existing,
    (∀ doc, doc ∈ docs →
       toLowerCase (alternative_text doc) = "" ∨
       toLowerCase (alternative_text doc) ∈ seen existing (situation doc)) →
    toInsert existing docs = [].
Proof.
  induction docs as [|d rest IH]; intros existing Hdocs; [done|]. simpl.
  destruct (nonEmpty (toLowerCase (alternative_text d))) eqn:Hv; simpl.
  - fold (seen existing (situation d)).
    destruct (Hdocs d) as [Hempty|Hseen]; [left| |].
    + apply nonEmpty_spec in Hv. done.
    + rewrite bool_decide_eq_true_2 by done. apply IH. intros doc Hdoc.
      rewrite seen_insert. case_decide as Hkey.
      * rewrite Hkey. apply Hdocs. by right.
      * apply Hdocs. by right.
  - apply IH. intros doc Hdoc. apply Hdocs. by right.
Qed.

(** Every candidate that is not empty once lower-cased is in the set of
    its situation, or a kept document of its situation has its text,
    letter case ignored. *)
Lemma toInsert_covers docs :
  ∀ existing doc,
    doc ∈ docs → toLowerCase (alternative_text doc) ≠ "" →
    toLowerCase (alternative_text doc) ∈ seen existing (situation doc) ∨
    ∃ kept, kept ∈ toInsert existing docs ∧ situation kept = situation doc ∧
            toLowerCase (alternative_text kept) = toLowerCase (alternative_text doc).
Proof.
  induction docs as [|d rest IH]; intros existing doc Hdoc Hfull.
  { by apply elem_of_nil in Hdoc. }
  simpl. apply elem_of_cons in Hdoc as [->|Hdoc].
  - apply nonEmpty_spec in Hfull. rewrite Hfull. simpl.
    fold (seen existing (situation d)). case_bool_decide as Hseen; [by left|].
    right. exists d. split; [left|done].
  - destruct (nonEmpty (toLowerCase (alternative_text d))) eqn:Hv; simpl.
    + fold (seen existing (situation d)). case_bool_decide as Hseen.
      * destruct (IH (<[situation d := seen existing (situation d)]> existing)
                    doc Hdoc Hfull) as [Hin|Hkept]; [|by right].
        left. rewrite seen_insert in Hin. case_decide as Hkey; [|done].
        by rewrite <- Hkey.
      * destruct (IH (<[situation d := {[toLowerCase (alternative_text d)]}
                                         ∪ seen existing (situation d)]> existing)
                    doc Hdoc Hfull) as [Hin|(kept & Hkept & Hs & Ht)].
        -- rewrite seen_insert in Hin. case_decide as Hkey; [|by left].
           apply elem_of_union in Hin as [Hd%elem_of_singleton|Hin].
           ++ right. exists d. split; [left|]. done.
           ++ left. by rewrite <- Hkey.
        -- right. exists kept. split; [by right|done].
    + by apply IH.
Qed.

(** After a generation every text of the answer that is not empty once
    lower-cased is stored for the item and its situation, letter case
    ignored. *)
Lemma generated_covers itemText parsed normalized now modelVersion store s text :
  normalizeAlternativesResponse parsed itemText = Done normalized →
  s ∈ AI_SITUATION_KEYS → text ∈ oracleTexts parsed s →
  toLowerCase text ≠ "" →
  toLowerCase text ∈
    toLowerCase <$>
      storedTexts (store ++ (cast <$> toInsert (existingBySituation (find store itemText))
                                      (candidates normalized now modelVersion)))
                  (trim itemText) s.
Proof.
  intros Hnormalized Hs Htext Hfull.
  destruct (normalizeAlternativesResponse_Done _ _ _ Hnormalized) as [Ha _].
  set (docs := toInsert (existingBySituation (find store itemText))
                        (candidates normalized now modelVersion)) in *.
  assert (∀ kept, kept ∈ docs →
            item kept = itemText ∧ trim (alternative_text kept) = alternative_text kept)
    as Hkept.
  { intros kept Hin.
    destruct (toInsert_novel (candidates normalized now modelVersion)
                (existingBySituation (find store itemText))) as [Hnovel _].
    destruct (Hnovel kept Hin) as (Hcandidate & _).
    apply candidates_elem in Hcandidate as (Hi' & Hs' & Htext').
    split; [by rewrite Hi', Ha|].
    destruct (normalized_texts parsed itemText normalized (situation kept)
                (alternative_text kept) Hnormalized) as [Htexts Htrim].
    apply Htrim. by rewrite <- Htexts. }
  rewrite storedTexts_app, fmap_app, (storedTexts_cast docs itemText) by done.
  rewrite decide_True by done. apply elem_of_app.
  set (candidate := Alternative (a_item normalized) s text now modelVersion).
  assert (candidate ∈ candidates normalized now modelVersion) as Hcandidate.
  { unfold candidates. apply list_elem_of_bind. exists s.
    split; [|done]. apply list_elem_of_fmap. exists text. split; [done|].
    destruct (normalized_texts parsed itemText normalized s text Hnormalized)
      as [-> _]. done. }
  destruct (toInsert_covers _ (existingBySituation (find store itemText))
              candidate Hcandidate Hfull) as [Hseen|(kept & Hin & Hs' & Ht)].
  - left. by apply existing_stored in Hseen.
  - right. simpl in Hs', Ht. rewrite <- Ht.
    apply list_elem_of_fmap_2, list_elem_of_fmap_2.
    by apply list_elem_of_filter.
Qed.

Lemma oracleTexts_length parsed s : length (oracleTexts parsed s) ≤ 3.
Proof.
  unfold oracleTexts. case_decide; [|simpl; lia].
  by destruct (cleaned_trimmed (toList (prop s (resultsOf parsed)))).
Qed.

Lemma candidates_length parsed itemText normalized now modelVersion :
  normalizeAlternativesResponse parsed itemText = Done normalized →
  length (candidates normalized now modelVersion) ≤ 15.
Proof.
  intros Hnormalized.
  assert (∀ s, length (default [] (a_results normalized !! s)) ≤ 3) as Hthree.
  { intros s.
    destruct (normalized_texts parsed itemText normalized s "" Hnormalized) as [-> _].
    apply oracleTexts_length. }
  unfold candidates, AI_SITUATION_KEYS.
  change (length (
    ((λ text, Alternative (a_item normalized) "arbeit" text now modelVersion)
       <$> default [] (a_results normalized !! "arbeit")) ++
    ((λ text, Alternative (a_item normalized) "schwiegereltern" text now modelVersion)
       <$> default [] (a_results normalized !! "schwiegereltern")) ++
    ((λ text, Alternative (a_item normalized) "philosophie_3uhr" text now modelVersion)
       <$> default [] (a_results normalized !! "philosophie_3uhr")) ++
    ((λ text, Alternative (a_item normalized) "gasse_betrunken" text now modelVersion)
       <$> default [] (a_results normalized !! "gasse_betrunken")) ++
    ((λ text, Alternative (a_item normalized) "behoerdlich" text now modelVersion)
       <$> default [] (a_results normalized !! "behoerdlich")) ++ []) ≤ 15).
  rewrite !length_app, !length_fmap. simpl.
  pose proof (Hthree "arbeit"). pose proof (Hthree "schwiegereltern").
  pose proof (Hthree "philosophie_3uhr"). pose proof (Hthree "gasse_betrunken").
  pose proof (Hthree "behoerdlich"). lia.
Qed.

Lemma filter_situation_cast (docs : list alternative) s :
  filter (λ doc, situation doc = s) (cast <$> docs) =
  cast <$> filter (λ doc, situation doc = s) docs.
Proof.
  induction docs as [|d rest IH]; [done|]. rewrite fmap_cons.
  destruct (decide (situation d = s)) as [Hs|Hs].
  - rewrite !filter_cons_True by done. by rewrite fmap_cons, IH.
  - by rewrite !filter_cons_False.
Qed.

End alternatives_more.


(** X11. Asking for the alternatives of an item a second time, with the
    same answer of the oracle, writes nothing and is answered as the
    first time: every text of the answer is then stored already.  This
    holds of the refusals as well, which write nothing at all. *)
Theorem generate_repeated `{Host} (cfg : config) (reqBody : value) (o : oracle)
    (now later : Z) (store : list alternative) :
  let first := postAiAlternatives cfg reqBody o now store in
  postAiAlternatives cfg reqBody o later first.2 = first.
Proof.
  simpl. unfold postAiAlternatives.
  destruct (negb (openai cfg)); [done|].
  destruct (negb (nonEmpty (trim (requestedItem reqBody)))) eqn:Hblank; [done|].
  apply negb_false_iff in Hblank.
  set (itemText := requestedItem reqBody) in *.
  destruct (generate itemText o now store) as [[aggregated store']|message]
    eqn:Hfirst; simpl.
  2: { by rewrite (generate_Thrown _ _ _ _ _ Hblank Hfirst later store). }
  destruct (generate_Done _ _ _ _ _ _ Hfirst)
    as (model & parsed & normalized & modelVersion & -> & Hnormalized & Hstore & ->).
  rewrite (generate_returns _ _ _ _ later store' Hblank Hnormalized).
  rewrite toInsert_nil; [by rewrite fmap_nil, app_nil_r|].
  intros doc Hdoc.
  destruct (decide (toLowerCase (alternative_text doc) = "")) as [|Hfull]; [by left|].
  right. apply existing_stored; [done|].
  apply candidates_elem in Hdoc as (Hi & Hs & Htext).
  destruct (normalized_texts parsed itemText normalized (situation doc)
              (alternative_text doc) Hnormalized) as [Htexts _].
  rewrite Htexts in Htext. rewrite Hstore.
  by apply (generated_covers itemText parsed).
Qed.

(** X12. A generation appends at most fifteen documents, at most three
    of one situation.  Every one of them carries the trimmed item of the
    request, which is not empty, one of the five situations, a text that
    is trimmed and not empty, and the time of the call; so the schema
    refuses none of them.  Nothing is appended when the answer is an
    error. *)
Theorem generate_writes_bounded `{Host} (cfg : config) (reqBody : value)
    (o : oracle) (now : Z) (store : list alternative) :
  ∃ inserted,
    (postAiAlternatives cfg reqBody o now store).2 = store ++ inserted ∧
    length inserted ≤ 15 ∧
    (∀ s, length (filter (λ doc, situation doc = s) inserted) ≤ 3) ∧
    (∀ doc, doc ∈ inserted →
       item doc = trim (requestedItem reqBody) ∧ item doc ≠ "" ∧
       situation doc ∈ AI_SITUATION_KEYS ∧
       alternative_text doc ≠ "" ∧
       trim (alternative_text doc) = alternative_text doc ∧
       timestamp doc = now ∧
       valid doc = true ∧ cast doc = doc) ∧
    ((∃ status error,
        (postAiAlternatives cfg reqBody o now store).1 = AlternativesError status error) →
     inserted = []).
Proof.
  assert (∃ inserted : list alternative,
            store = store ++ inserted ∧ length inserted ≤ 15 ∧
            (∀ s, length (filter (λ doc, situation doc = s) inserted) ≤ 3) ∧
            (∀ doc, doc ∈ inserted →
               item doc = trim (requestedItem reqBody) ∧ item doc ≠ "" ∧
               situation doc ∈ AI_SITUATION_KEYS ∧
               alternative_text doc ≠ "" ∧
               trim (alternative_text doc) = alternative_text doc ∧
               timestamp doc = now ∧
               valid doc = true ∧ cast doc = doc) ∧
            inserted = []) as Hnothing.
  { exists []. rewrite app_nil_r. simpl. split; [done|]. split; [lia|].
    split; [intros; simpl; lia|].
    split; [by intros doc []%elem_of_nil|done]. }
  unfold postAiAlternatives.
  destruct (negb (openai cfg)).
  { destruct Hnothing as (inserted & ? & ? & ? & ? & ?). exists inserted. eauto 10. }
  destruct (negb (nonEmpty (trim (requestedItem reqBody)))) eqn:Hblank.
  { destruct Hnothing as (inserted & ? & ? & ? & ? & ?). exists inserted. eauto 10. }
  apply negb_false_iff in Hblank.
  set (itemText := requestedItem reqBody) in *.
  destruct (generate itemText o now store) as [[aggregated store']|message] eqn:Hg.
  2: { destruct Hnothing as (inserted & ? & ? & ? & ? & ?). exists inserted. eauto 10. }
  clear Hnothing.
  destruct (generate_Done _ _ _ _ _ _ Hg)
    as (model & parsed & normalized & modelVersion & -> & Hnormalized & -> & ->).
  set (docs := toInsert (existingBySituation (find store itemText))
                        (candidates normalized now modelVersion)).
  exists (cast <$> docs). simpl. split; [done|]. split; [|split; [|split]].
  - rewrite length_fmap.
    etrans; [apply sublist_length, toInsert_sublist|].
    by apply (candidates_length parsed itemText).
  - intros s. rewrite filter_situation_cast, length_fmap.
    destruct (toInsert_novel (candidates normalized now modelVersion)
                (existingBySituation (find store itemText))) as [Hnovel Hnodup].
    specialize (Hnodup s). fold docs in Hnodup, Hnovel.
    etrans; [|apply (oracleTexts_length parsed s)].
    rewrite <- (length_fmap alternative_text (filter _ docs)).
    rewrite <- (length_fmap toLowerCase (alternative_text <$> _)).
    rewrite <- (length_fmap toLowerCase (oracleTexts parsed s)).
    apply submseteq_length, NoDup_submseteq; [done|].
    intros v (text & -> & (doc & -> & Hdoc)%list_elem_of_fmap)%list_elem_of_fmap.
    apply list_elem_of_filter in Hdoc as [<- Hdoc].
    apply list_elem_of_fmap_2.
    by destruct (candidates_valid parsed itemText normalized now modelVersion
                   _ doc Hblank Hnormalized Hdoc) as (_ & _ & _ & ?).
  - intros kept (doc & -> & Hdoc)%list_elem_of_fmap.
    destruct (candidates_valid parsed itemText normalized now modelVersion
                _ doc Hblank Hnormalized Hdoc) as (Hvalid & Hcast & Hs & Htext).
    assert (alternative_text doc ≠ "" ∧ trim (alternative_text doc) = alternative_text doc)
      as [Hfull Htrim].
    { unfold oracleTexts in Htext. rewrite decide_True in Htext by done.
      destruct (cleaned_trimmed (toList (prop (situation doc) (resultsOf parsed))))
        as [_ Hall].
      rewrite Forall_forall in Hall. by apply Hall. }
    pose proof (f_equal item Hcast) as Hi.
    pose proof (f_equal timestamp Hcast) as Hnow. simpl in Hi, Hnow.
    split; [done|]. split; [simpl; rewrite Hi; by apply nonEmpty_spec|].
    split; [done|]. split; [simpl; by rewrite Htrim|].
    split; [simpl; by rewrite !trim_idem|].
    split; [done|]. split; [done|].
    unfold cast. simpl. by rewrite !trim_idem.
  - by intros (status & error & ?).
Qed.

Lemma latin_lower_nonempty (s : string) :
  s ≠ "" → toLowerCase (Host := latin_host) s ≠ "".
Proof. by destruct s. Qed.

(** X13. With a lower-casing that leaves no string that is not empty
    empty, a generation that succeeds answers with the trimmed item and
    at least one text for each of the five situations, and what it
    answers is what loading the alternatives of an entry with that term
    answers afterwards. *)
Theorem generate_answers_every_situation `{Host} (cfg : config)
    (reqBody : value) (o : oracle) (now : Z) (store : list alternative)
    (aggregated : alternatives) :
  (∀ s, s ≠ "" → toLowerCase s ≠ "") →
  (postAiAlternatives cfg reqBody o now store).1 = AlternativesOk aggregated →
  a_item aggregated = trim (requestedItem reqBody) ∧
  (∀ s, s ∈ AI_SITUATION_KEYS →
     ∃ text texts, a_results aggregated !! s = Some (text :: texts)) ∧
  getAiAlternatives (Done (Some (requestedItem reqBody)))
                    (postAiAlternatives cfg reqBody o now store).2
  = AlternativesOk aggregated.
Proof.
  intros Hlower. unfold postAiAlternatives.
  destruct (negb (openai cfg)); [done|].
  destruct (negb (nonEmpty (trim (requestedItem reqBody)))) eqn:Hblank; [done|].
  apply negb_false_iff in Hblank.
  set (itemText := requestedItem reqBody) in *.
  destruct (generate itemText o now store) as [[response store']|message] eqn:Hg;
    [|done].
  simpl. intros [= <-].
  destruct (generate_Done _ _ _ _ _ _ Hg)
    as (model & parsed & normalized & modelVersion & -> & Hnormalized & Hstore & ->).
  pose proof Hblank as Hitem. apply nonEmpty_spec in Hitem.
  split; [|split; [|done]].
  - unfold aggregateAlternatives. by rewrite Hblank.
  - intros s Hs. rewrite aggregate_lookup by done.
    pose proof (oracleTexts_nonempty parsed itemText normalized s Hnormalized Hs)
      as Hfull.
    destruct (oracleTexts parsed s) as [|text rest] eqn:Htexts; [done|].
    assert (text ∈ oracleTexts parsed s) as Htext by (rewrite Htexts; left).
    assert (text ≠ "") as Hne.
    { unfold oracleTexts in Htext. rewrite decide_True in Htext by done.
      destruct (cleaned_trimmed (toList (prop s (resultsOf parsed)))) as [_ Hall].
      rewrite Forall_forall in Hall. by destruct (Hall _ Htext). }
    pose proof (generated_covers itemText parsed normalized now modelVersion store
                  s text Hnormalized Hs Htext (Hlower _ Hne)) as Hstored.
    rewrite <- Hstore in Hstored.
    apply list_elem_of_fmap in Hstored as (stored & _ & Hstored).
    rewrite <- aggregate_texts in Hstored.
    apply unique_elem in Hstored.
    destruct (unique _) as [|first others]; [by apply elem_of_nil in Hstored|].
    by exists first, others.
Qed.

Lemma generate_answers_every_situation_witness :
  let cfg := Config "secret" true in
  let body : value (H := latin_host) := VObj {["item" := VStr " Feierabendbier "]} in
  let answer : value (H := latin_host) :=
    VObj {["results" := VObj (list_to_map
            [("arbeit", VStr "Teamrunde"); ("schwiegereltern", VStr "Limonade");
             ("philosophie_3uhr", VStr "Hopfentrost"); ("gasse_betrunken", VStr "Pils");
             ("behoerdlich", VStr "Genussmittel")])]} in
  let store := [Alternative "Feierabendbier" "arbeit" "teamrunde" 1 "gpt-4o"] in
  ∃ aggregated,
    (postAiAlternatives cfg body (Answered "gpt-4o" (Json answer)) 10 store).1
    = AlternativesOk aggregated ∧
    a_item aggregated = "Feierabendbier" ∧
    a_results aggregated !! "arbeit" = Some ["teamrunde"] ∧
    ∀ s, s ∈ AI_SITUATION_KEYS →
         ∃ text texts, a_results aggregated !! s = Some (text :: texts).
Proof.
  intros cfg body answer store.
  pose (o := Answered (H := latin_host) "gpt-4o" (Json answer)).
  pose (expected := Alternatives "Feierabendbier"
          (list_to_map
             [("arbeit", ["teamrunde"]); ("schwiegereltern", ["Limonade"]);
              ("philosophie_3uhr", ["Hopfentrost"]); ("gasse_betrunken", ["Pils"]);
              ("behoerdlich", ["Genussmittel"])])).
  assert ((postAiAlternatives cfg body o 10 store).1 = AlternativesOk expected)
    as Hok by reflexivity.
  exists expected. split; [exact Hok|]. split; [reflexivity|]. split; [reflexivity|].
  destruct (generate_answers_every_situation (H := latin_host) cfg body o 10 store
              expected latin_lower_nonempty Hok) as (_ & Hall & _).
  exact Hall.
Defined.

(** ** The stored alternatives of an entry, and the summary *)

Section stored_more.
Context `{Host}.

Lemma find_deleteMany (store : list alternative) term query :
  find (deleteMany store term) query =
  if decide (trim query = trim term) then [] else find store query.
Proof.
  unfold find, deleteMany. rewrite list_filter_filter. case_decide as Hq.
  - induction store as [|d rest IH]; [done|].
    rewrite filter_cons_False; [done|]. rewrite Hq. by intros [? ?].
  - apply list_filter_iff. intros doc. split; [by intros [? _]|].
    intros Hi. split; [done|]. rewrite Hi. done.
Qed.

Lemma filter_item_deleteMany (store : list alternative) term i :
  filter (λ doc, item doc = i) (deleteMany store term) =
  if decide (i = trim term) then [] else filter (λ doc, item doc = i) store.
Proof.
  unfold deleteMany. rewrite list_filter_filter. case_decide as Hi.
  - induction store as [|d rest IH]; [done|].
    rewrite filter_cons_False; [done|]. rewrite Hi. by intros [? ?].
  - apply list_filter_iff. intros doc. split; [by intros [? _]|].
    intros Hd. split; [done|]. by rewrite Hd.
Qed.

Lemma foldl_insert_pairs (f : string → nat) keys (acc : gmap string nat) key :
  foldl (λ acc group,
           if String.eqb group.1 "__proto__" then acc
           else <[group.1 := group.2]> acc)
        acc ((λ i, (i, f i)) <$> keys) !! key =
  if decide (key ∈ keys ∧ key ≠ "__proto__") then Some (f key) else acc !! key.
Proof.
  revert acc. induction keys as [|k rest IH]; intros acc.
  - case_decide as Hin; [|done]. destruct Hin as [Hin _]. by apply elem_of_nil in Hin.
  - rewrite fmap_cons. simpl. rewrite IH.
    destruct (decide (key ∈ rest ∧ key ≠ "__proto__")) as [[Hin Hkey]|Hout].
    + rewrite decide_True; [done|]. split; [by right|done].
    + destruct (String.eqb_spec k "__proto__") as [->|Hk].
      * case_decide as Hin'; [|done]. destruct Hin' as [Hin' Hkey].
        apply elem_of_cons in Hin' as [?|?]; [done|]. exfalso. by apply Hout.
      * destruct (decide (key = k)) as [->|Hne].
        -- rewrite lookup_insert_eq. rewrite decide_True; [done|].
           split; [left|done].
        -- rewrite lookup_insert_ne by done. case_decide as Hin'; [|done].
           destruct Hin' as [Hin' Hkey].
           apply elem_of_cons in Hin' as [?|?]; [done|]. exfalso. by apply Hout.
Qed.

Lemma storedCount_zero (store : list alternative) i :
  storedCount store i = 0 ↔ i ∉ item <$> store.
Proof.
  unfold storedCount. induction store as [|d rest IH]; simpl.
  - split; [intros _; apply not_elem_of_nil|done].
  - rewrite not_elem_of_cons. destruct (decide (item d = i)) as [Hd|Hd].
    + rewrite filter_cons_True by done. simpl. split; [lia|]. by intros [? _].
    + rewrite filter_cons_False by done. rewrite IH. naive_solver.
Qed.

Lemma getSummary_lookup (store : list alternative) i :
  getSummary store !! i =
  if decide (i = "__proto__" ∨ storedCount store i = 0) then None
  else Some (storedCount store i).
Proof.
  unfold getSummary, groupByItem.
  rewrite (foldl_insert_pairs (λ i, length (filter (λ doc, item doc = i) store))).
  rewrite lookup_empty. fold (storedCount store i).
  destruct (decide (i ∈ unique (item <$> store) ∧ i ≠ "__proto__")) as [[Hin Hi]|Hout].
  - rewrite unique_elem in Hin. rewrite decide_False; [done|].
    intros [?|Hzero%storedCount_zero]; done.
  - rewrite decide_True; [done|].
    destruct (decide (i = "__proto__")) as [|Hi]; [by left|]. right.
    apply storedCount_zero. intros Hin. apply Hout. by rewrite unique_elem.
Qed.

Lemma unique_length (l : list string) : length (unique l) ≤ length l.
Proof.
  induction l as [|x rest IH]; [done|]. simpl.
  pose proof (length_filter (λ y, y ≠ x) (unique rest)). lia.
Qed.

Lemma length_storedTexts_cons d (rest : list alternative) i s :
  length (storedTexts (d :: rest) i s) =
  (if decide (item d = i ∧ situation d = s) then 1 else 0)
  + length (storedTexts rest i s).
Proof.
  unfold storedTexts. case_decide.
  - by rewrite filter_cons_True.
  - by rewrite filter_cons_False.
Qed.

Lemma storedCount_cons d (rest : list alternative) i :
  storedCount (d :: rest) i =
  (if decide (item d = i) then 1 else 0) + storedCount rest i.
Proof.
  unfold storedCount. case_decide.
  - by rewrite filter_cons_True.
  - by rewrite filter_cons_False.
Qed.

(** The documents of an item, counted situation by situation. *)
Lemma storedTexts_total (store : list alternative) i :
  length (storedTexts store i "arbeit")
  + length (storedTexts store i "schwiegereltern")
  + length (storedTexts store i "philosophie_3uhr")
  + length (storedTexts store i "gasse_betrunken")
  + length (storedTexts store i "behoerdlich") ≤ storedCount store i ∧
  ((∀ doc, doc ∈ store → item doc = i → situation doc ∈ AI_SITUATION_KEYS) →
   length (storedTexts store i "arbeit")
   + length (storedTexts store i "schwiegereltern")
   + length (storedTexts store i "philosophie_3uhr")
   + length (storedTexts store i "gasse_betrunken")
   + length (storedTexts store i "behoerdlich") = storedCount store i).
Proof.
  induction store as [|d rest [IHle IHeq]]; [done|].
  rewrite !length_storedTexts_cons, storedCount_cons. split.
  - repeat case_decide; destruct_and?; try lia; congruence.
  - intros Hkeys.
    assert (∀ doc, doc ∈ rest → item doc = i → situation doc ∈ AI_SITUATION_KEYS)
      as Hrest by (intros; apply Hkeys; [by right|done]).
    specialize (IHeq Hrest).
    destruct (decide (item d = i)) as [Hd|Hd].
    + assert (situation d ∈ AI_SITUATION_KEYS) as Hs by (apply Hkeys; [left|done]).
      unfold AI_SITUATION_KEYS in Hs. rewrite !elem_of_cons in Hs.
      destruct Hs as [Hs|[Hs|[Hs|[Hs|[Hs|Hs]]]]];
        [| | | | |by apply elem_of_nil in Hs];
        rewrite Hs; repeat case_decide; destruct_and?; try lia; try congruence;
        exfalso; naive_solver.
    + repeat case_decide; destruct_and?; try lia; congruence.
Qed.

End stored_more.

(** X14. Deleting the alternatives of an entry removes the documents of
    its trimmed term and no others, so the aggregate of the term is
    empty afterwards and the aggregate of any other item is as before;
    deleting again changes nothing.  For a term that is trimmed, as the
    stored terms are, loading the alternatives of the entry right after
    is answered as the deletion was; an unknown id or a failing lookup
    deletes nothing. *)
Theorem delete_then_load `{Host} (store : list alternative) (term : string) :
  let removed := deleteAiAlternatives (Done (Some term)) store in
  (∀ doc, doc ∈ removed.2 ↔ doc ∈ store ∧ item doc ≠ trim term) ∧
  sublist removed.2 store ∧
  a_results (aggregateAlternatives removed.2 term) = emptyAlternativeResults ∧
  (∀ other, trim other ≠ trim term →
     aggregateAlternatives removed.2 other = aggregateAlternatives store other) ∧
  deleteAiAlternatives (Done (Some term)) removed.2 = removed ∧
  (trim term = term → getAiAlternatives (Done (Some term)) removed.2 = removed.1) ∧
  (∀ message, (deleteAiAlternatives (Thrown message) store).2 = store) ∧
  (deleteAiAlternatives (Done None) store).2 = store.
Proof.
  simpl. split; [|split; [|split; [|split; [|split; [|split; [|done]]]]]].
  - intros doc. unfold deleteMany. rewrite list_elem_of_filter. naive_solver.
  - apply sublist_filter.
  - unfold aggregateAlternatives.
    destruct (negb (nonEmpty (trim term))); [done|]. simpl.
    rewrite find_deleteMany, trim_idem. by rewrite decide_True.
  - intros other Hother. unfold aggregateAlternatives.
    destruct (negb (nonEmpty (trim other))); [done|].
    rewrite find_deleteMany, trim_idem. by rewrite decide_False.
  - f_equal. unfold deleteMany. rewrite list_filter_filter.
    apply list_filter_iff. naive_solver.
  - intros Htrim. f_equal. unfold aggregateAlternatives.
    destruct (negb (nonEmpty (trim term))); [done|].
    rewrite find_deleteMany, trim_idem, decide_True by done. by rewrite Htrim.
Qed.

(** X15.  The summary has an entry for exactly the items that have
    stored documents and are not named [__proto__], a name whose
    assignment on the accumulator creates no property; the entry is the
    number of the documents of the item, which is never zero.  After the
    alternatives of a term are deleted the summary has no entry for the
    trimmed term, and the entries of all other items are as before. *)
Theorem summary_counts `{Host} (store : list alternative) (i : string) :
  (getSummary store !! i =
   if decide (i = "__proto__" ∨ storedCount store i = 0) then None
   else Some (storedCount store i)) ∧
  (is_Some (getSummary store !! i) ↔
   i ≠ "__proto__" ∧ ∃ doc, doc ∈ store ∧ item doc = i) ∧
  (∀ n, getSummary store !! i = Some n → n ≠ 0) ∧
  (∀ term, getSummary (deleteMany store term) !! i =
           if decide (i = trim term) then None else getSummary store !! i).
Proof.
  split; [apply getSummary_lookup|]. split; [|split].
  - rewrite getSummary_lookup. case_decide as Hnone.
    + split; [by intros []|]. intros (Hi & doc & Hdoc & <-).
      destruct Hnone as [?|Hzero]; [done|].
      apply storedCount_zero in Hzero. exfalso. apply Hzero.
      by apply list_elem_of_fmap_2.
    + split; [|by eauto]. intros _.
      split; [by intros ->; apply Hnone; left|].
      destruct (decide (i ∈ item <$> store)) as [Hin|Hout].
      * apply list_elem_of_fmap in Hin as (doc & -> & Hdoc). by exists doc.
      * apply storedCount_zero in Hout. exfalso. apply Hnone. by right.
  - intros n. rewrite getSummary_lookup. case_decide as Hnone; [done|].
    intros [= <-] Hzero. apply Hnone. by right.
  - intros term. rewrite !getSummary_lookup. unfold storedCount.
    rewrite filter_item_deleteMany.
    destruct (decide (i = trim term)); [|done]. simpl.
    rewrite decide_True; [done|]. by right.
Qed.

Section counting.
Context `{Host}.

(** The lengths of the five lists of an aggregate, added up, against the
    number of stored documents of the item. *)
Lemma countResults_stored (store : list alternative) (itemText : string) :
  countResults (a_results (aggregateAlternatives store itemText))
    ≤ storedCount store (trim itemText) ∧
  (trim itemText = "" →
   countResults (a_results (aggregateAlternatives store itemText)) = 0) ∧
  (trim itemText ≠ "" →
   (∀ s, NoDup (storedTexts store (trim itemText) s)) →
   (∀ doc, doc ∈ store → item doc = trim itemText →
           situation doc ∈ AI_SITUATION_KEYS) →
   countResults (a_results (aggregateAlternatives store itemText))
   = storedCount store (trim itemText)).
Proof.
  assert (trim itemText = "" →
          countResults (a_results (aggregateAlternatives store itemText)) = 0)
    as Hblank.
  { intros Hblank. unfold aggregateAlternatives. rewrite Hblank. simpl.
    unfold countResults, AI_SITUATION_KEYS. simpl.
    rewrite !emptyAlternativeResults_lookup.
    rewrite !decide_True by (unfold AI_SITUATION_KEYS; set_solver). done. }
  assert (trim itemText ≠ "" →
          countResults (a_results (aggregateAlternatives store itemText)) =
          length (unique (alternative_text <$> filter (λ doc, situation doc = "arbeit")
                            (sortByTimestamp (find store itemText))))
          + length (unique (alternative_text <$>
                            filter (λ doc, situation doc = "schwiegereltern")
                              (sortByTimestamp (find store itemText))))
          + length (unique (alternative_text <$>
                            filter (λ doc, situation doc = "philosophie_3uhr")
                              (sortByTimestamp (find store itemText))))
          + length (unique (alternative_text <$>
                            filter (λ doc, situation doc = "gasse_betrunken")
                              (sortByTimestamp (find store itemText))))
          + length (unique (alternative_text <$>
                            filter (λ doc, situation doc = "behoerdlich")
                              (sortByTimestamp (find store itemText))))) as Hcount.
  { intros Hitem. unfold countResults, AI_SITUATION_KEYS. simpl.
    rewrite !aggregate_lookup by (done || unfold AI_SITUATION_KEYS; set_solver).
    done. }
  assert (∀ s, length (unique (alternative_text <$>
                         filter (λ doc, situation doc = s)
                           (sortByTimestamp (find store itemText))))
               ≤ length (storedTexts store (trim itemText) s)) as Hle.
  { intros s. rewrite <- (Permutation_length (aggregate_texts store itemText s)).
    apply unique_length. }
  destruct (storedTexts_total store (trim itemText)) as [Htotal Hexact].
  split; [|split; [done|]].
  - destruct (decide (trim itemText = "")) as [Hempty|Hitem].
    + rewrite (Hblank Hempty). lia.
    + rewrite (Hcount Hitem).
      pose proof (Hle "arbeit"). pose proof (Hle "schwiegereltern").
      pose proof (Hle "philosophie_3uhr"). pose proof (Hle "gasse_betrunken").
      pose proof (Hle "behoerdlich"). lia.
  - intros Hitem Hnodup Hkeys.
    rewrite (Hcount Hitem), <- (Hexact Hkeys).
    assert (∀ s, length (unique (alternative_text <$>
                           filter (λ doc, situation doc = s)
                             (sortByTimestamp (find store itemText))))
                 = length (storedTexts store (trim itemText) s)) as Heq.
    { intros s. rewrite <- (Permutation_length (aggregate_texts store itemText s)).
      rewrite unique_id; [done|].
      rewrite aggregate_texts. apply Hnodup. }
    by rewrite !Heq.
Qed.

(** A generation leaves the stored documents and adds documents the
    schema accepts and does not change. *)
Lemma written_documents cfg reqBody o now (store : list alternative) doc :
  doc ∈ (postAiAlternatives cfg reqBody o now store).2 →
  doc ∈ store ∨ (valid doc = true ∧ cast doc = doc).
Proof.
  unfold postAiAlternatives.
  destruct (negb (openai cfg)); [by left|].
  destruct (negb (nonEmpty (trim (requestedItem reqBody)))) eqn:Hblank; [by left|].
  apply negb_false_iff in Hblank.
  destruct (generate (requestedItem reqBody) o now store)
    as [[aggregated store']|message] eqn:Hg; [|by left].
  destruct (generate_Done _ _ _ _ _ _ Hg)
    as (model & parsed & normalized & modelVersion & -> & Hnormalized & -> & ->).
  simpl. intros [Hold|(kept & -> & Hkept)%list_elem_of_fmap]%elem_of_app; [by left|].
  right.
  destruct (candidates_valid parsed _ normalized now modelVersion
              _ kept Hblank Hnormalized Hkept) as (Hvalid & _).
  split; [done|]. unfold cast. simpl. by rewrite !trim_idem.
Qed.

(** What holds of the collection after any sequence of generations and
    deletions. *)
Lemma history_invariant writes :
  (∀ doc, doc ∈ history writes → valid doc = true ∧ cast doc = doc) ∧
  caseInsensitiveUnique (history writes).
Proof.
  unfold history.
  assert ((∀ doc, doc ∈ @nil alternative → valid doc = true ∧ cast doc = doc) ∧
          caseInsensitiveUnique []) as Hempty.
  { split; [by intros doc []%elem_of_nil|]. intros i s. constructor. }
  revert Hempty. generalize (@nil alternative).
  induction writes as [|w rest IH]; intros before Hbefore; [done|].
  apply IH. destruct Hbefore as [Hvalid Hunique].
  destruct w as [cfg reqBody o now|term]; simpl.
  - split; [|by apply postAiAlternatives_unique].
    intros doc [Hold|Hnew]%written_documents; [by apply Hvalid|done].
  - split; [|by apply deleteMany_unique].
    intros doc [_ Hdoc]%list_elem_of_filter. by apply Hvalid.
Qed.

Lemma valid_fields (doc : alternative) :
  valid doc = true → cast doc = doc →
  item doc ≠ "" ∧ trim (item doc) = item doc ∧
  situation doc ∈ AI_SITUATION_KEYS ∧
  alternative_text doc ≠ "" ∧ trim (alternative_text doc) = alternative_text doc.
Proof.
  unfold valid. intros Hvalid Hcast.
  apply andb_true_iff in Hvalid as [Hvalid Htext].
  apply andb_true_iff in Hvalid as [Hitem Hs].
  apply bool_decide_eq_true in Hs.
  pose proof (f_equal item Hcast) as Hi.
  pose proof (f_equal alternative_text Hcast) as Ht. simpl in Hi, Ht.
  split; [by apply nonEmpty_spec|]. split; [done|]. split; [done|].
  split; [by apply nonEmpty_spec|done].
Qed.

End counting.

(** X16. The number of alternatives the client counts in an aggregate
    is at most the number of stored documents of the trimmed item, and
    is zero for a blank item.  When the stored texts of the item differ
    within every situation and every stored situation of the item is one
    of the five, the summary has that very number for the item (no entry
    when it is zero), unless the item is named [__proto__], for which
    the summary never has an entry; and so it is for every item after
    any sequence of generations and deletions made one after the other
    from the empty collection. *)
Theorem countResults_at_most_summary `{Host} (store : list alternative)
    (itemText : string) :
  let counted (store : list alternative) :=
    countResults (a_results (aggregateAlternatives store itemText)) in
  counted store ≤ storedCount store (trim itemText) ∧
  (trim itemText = "" → counted store = 0) ∧
  (trim itemText ≠ "" →
   (∀ s, NoDup (storedTexts store (trim itemText) s)) →
   (∀ doc, doc ∈ store → item doc = trim itemText →
           situation doc ∈ AI_SITUATION_KEYS) →
   getSummary store !! trim itemText =
   if decide (trim itemText = "__proto__" ∨ counted store = 0) then None
   else Some (counted store)) ∧
  (∀ writes,
     getSummary (history writes) !! trim itemText =
     if decide (trim itemText = "__proto__" ∨ counted (history writes) = 0)
     then None else Some (counted (history writes))) ∧
  getSummary store !! "__proto__" = None.
Proof.
  intros counted. unfold counted.
  destruct (countResults_stored store itemText) as (Hle & Hblank & Hexact).
  split; [done|]. split; [done|]. split; [|split].
  - intros Hitem Hnodup Hkeys. rewrite getSummary_lookup.
    by rewrite (Hexact Hitem Hnodup Hkeys).
  - intros writes. rewrite getSummary_lookup.
    destruct (history_invariant writes) as [Hvalid Hunique].
    destruct (countResults_stored (history writes) itemText)
      as (_ & Hblank' & Hexact').
    destruct (decide (trim itemText = "")) as [Hempty|Hitem].
    + rewrite (Hblank' Hempty). rewrite !decide_True; [done|by right|].
      right. apply storedCount_zero.
      intros (doc & Hi & Hdoc)%list_elem_of_fmap.
      destruct (Hvalid doc Hdoc) as [Hv Hc].
      destruct (valid_fields doc Hv Hc) as (Hne & _). congruence.
    + rewrite Hexact'; [done|done| |].
      * intros s. eapply NoDup_fmap_1. apply (Hunique (trim itemText) s).
      * intros doc Hdoc _. destruct (Hvalid doc Hdoc) as [Hv Hc].
        by destruct (valid_fields doc Hv Hc) as (_ & _ & ? & _).
  - rewrite getSummary_lookup. rewrite decide_True; [done|by left].
Qed.

(** X17. After any sequence of generations and deletions, made one
    after the other from the empty collection, every stored document
    passes the schema and is stored as the schema writes it: its item
    and its text are trimmed and not empty and its situation is one of
    the five, so that nothing is stored under a situation the aggregate
    has no list for.  The summary has entries for trimmed items that are
    not empty only. *)
Theorem history_documents `{Host} (writes : list write) :
  (∀ doc, doc ∈ history writes →
     valid doc = true ∧ cast doc = doc ∧
     item doc ≠ "" ∧ trim (item doc) = item doc ∧
     situation doc ∈ AI_SITUATION_KEYS ∧
     alternative_text doc ≠ "" ∧ trim (alternative_text doc) = alternative_text doc) ∧
  (∀ i, is_Some (getSummary (history writes) !! i) → i ≠ "" ∧ trim i = i) ∧
  (∀ i s, is_Some (a_results (aggregateAlternatives (history writes) i) !! s) ∧
          s ∈ AI_SITUATION_KEYS ∨
          storedTexts (history writes) i s = []).
Proof.
  destruct (history_invariant writes) as [Hvalid _].
  assert (∀ doc, doc ∈ history writes →
     valid doc = true ∧ cast doc = doc ∧
     item doc ≠ "" ∧ trim (item doc) = item doc ∧
     situation doc ∈ AI_SITUATION_KEYS ∧
     alternative_text doc ≠ "" ∧ trim (alternative_text doc) = alternative_text doc)
    as Hfields.
  { intros doc Hdoc. destruct (Hvalid doc Hdoc) as [Hv Hc].
    split; [done|]. split; [done|]. by apply valid_fields. }
  split; [done|]. split.
  - intros i. rewrite getSummary_lookup. case_decide as Hnone; [by intros []|].
    intros _. destruct (decide (i ∈ item <$> history writes)) as [Hin|Hout].
    + apply list_elem_of_fmap in Hin as (doc & -> & Hdoc).
      by destruct (Hfields doc Hdoc) as (_ & _ & ? & ? & _).
    + apply storedCount_zero in Hout. exfalso. apply Hnone. by right.
  - intros i s. destruct (decide (s ∈ AI_SITUATION_KEYS)) as [Hs|Hs].
    + left. split; [by apply aggregate_keys|done].
    + right. unfold storedTexts.
      destruct (filter _ _) as [|doc rest] eqn:Hfilter; [done|]. exfalso.
      assert (doc ∈ filter (λ doc, item doc = i ∧ situation doc = s) (history writes))
        as Hdoc by (rewrite Hfilter; left).
      apply list_elem_of_filter in Hdoc as [[_ <-] Hdoc].
      by destruct (Hfields doc Hdoc) as (_ & _ & _ & _ & ? & _).
Qed.

(** ** The session *)

(** X18. A login is answered with 200 exactly when the password of the
    request is a string that is not empty and is the configured
    password, so never when none is configured; the cookie is then the
    one the guard and the status accept.  Any other login is answered
    with 401 and leaves the cookie as it was.  After a logout the status
    is not logged in and saving, completing and reviewing are refused
    with 401. *)
Theorem login_session `{Host} (cfg : config) (reqBody authCookie : value) :
  let answer := postLogin cfg reqBody authCookie in
  (answer.1 = 200 ↔
   ADMIN_PASSWORD cfg ≠ "" ∧
   prop "password" (or_else reqBody (VObj ∅)) = VStr (ADMIN_PASSWORD cfg)) ∧
  (answer.1 = 200 →
   answer.2 = VStr "1" ∧ getStatus answer.2 = true ∧ requireAuth answer.2 = true) ∧
  (answer.1 ≠ 200 → answer.1 = 401 ∧ answer.2 = authCookie) ∧
  (∀ cookie, getStatus cookie = requireAuth cookie) ∧
  (∀ cookie body o,
     let out := (postLogout cookie).2 in
     getStatus out = false ∧
     saveRequest out body = Done (Reject 401 "unauthorized") ∧
     (ADMIN_PASSWORD cfg ≠ "" →
      postAiComplete cfg out body o = CompleteError 401 "unauthorized" ∧
      postSpellcheck cfg out body o = ReviewError 401 "unauthorized")).
Proof.
  simpl. unfold postLogin.
  set (password := prop "password" (or_else reqBody (VObj ∅))).
  split; [|split; [|split; [|split; [done|]]]].
  - destruct password as [| |b|n|p|items|fields]; simpl;
      try (split; [done|by intros [_ ?]]).
    + rewrite orb_true_r. simpl. split; [done|by intros [_ ?]].
    + rewrite orb_true_r. simpl. split; [done|by intros [_ ?]].
    + destruct (String.eqb_spec p "") as [->|Hp]; simpl.
      * split; [done|]. intros [Hne [= Heq]]. congruence.
      * destruct (String.eqb_spec p (ADMIN_PASSWORD cfg)) as [<-|Hne]; simpl.
        -- done.
        -- split; [done|]. intros [_ [= Heq]]. congruence.
  - by destruct (negb (truthy password) || negb (isAdminPassword cfg password)).
  - by destruct (negb (truthy password) || negb (isAdminPassword cfg password)).
  - intros _ body o. split; [done|]. split; [done|].
    intros Hconfigured%nonEmpty_spec.
    unfold postAiComplete, postSpellcheck. by rewrite Hconfigured.
Qed.

(** ** The form of the web client *)

Section web_facts.
Context `{Host}.

Lemma asText_returns v : convertible v = true → ∃ s, Web.asText v = Done s.
Proof.
  intros Hv. unfold Web.asText.
  destruct v; try (destruct (truthy _); [by apply String_convertible|by eexists]).
  by eexists.
Qed.

Lemma forallb_elem {A} (f : A → bool) (l : list A) :
  forallb f l = true ↔ ∀ x, x ∈ l → f x = true.
Proof.
  rewrite forallb_forall. split; intros Hall x Hx; apply Hall; by apply list_elem_of_In.
Qed.

Lemma asArray_convertible v :
  convertible v = true → forallb convertible (Web.asArray v) = true.
Proof.
  intros Hv. unfold Web.asArray. destruct (negb (truthy v)); [done|].
  assert (∀ l : list value, forallb convertible l = true →
            forallb convertible (filter (λ item, truthy item = true) l) = true)
    as Hfilter.
  { intros l Hl. apply forallb_elem. intros x [_ Hx]%list_elem_of_filter.
    rewrite forallb_elem in Hl. by apply Hl. }
  destruct v; try (apply Hfilter; simpl; by rewrite ?Hv).
  apply Hfilter. simpl in *. by rewrite Hv.
Qed.

Lemma lowered_returns values :
  forallb convertible values = true → ∃ list, Web.lowered values = Done list.
Proof.
  unfold Web.lowered. induction values as [|x rest IH]; simpl; [eauto|].
  intros [Hx Hrest]%andb_true_iff.
  destruct (asText_returns x Hx) as [s ->]. simpl.
  destruct (IH Hrest) as [list ->]. simpl. eauto.
Qed.

Lemma tags_returns v : convertible v = true → ∃ list, Web.tags v = Done list.
Proof.
  intros Hv. unfold Web.tags.
  destruct (lowered_returns _ (asArray_convertible v Hv)) as [list ->].
  simpl. eauto.
Qed.

(** The tags are not empty. *)
Lemma tags_nonEmpty v list tag :
  Web.tags v = Done list → tag ∈ list → tag ≠ "".
Proof.
  unfold Web.tags. destruct (Web.lowered (Web.asArray v)) as [l|]; [|done].
  simpl. intros [= <-] [Htag _]%list_elem_of_filter. by apply nonEmpty_spec.
Qed.

End web_facts.

(** X19. Applying the morphology of a review to the form fills what is
    unset only.  The texts of the form stay as they are; a part of
    speech the form has is kept (at most rewritten in its trimmed,
    lower-cased form); an article the form has is never replaced by the
    suggested one, and is cleared only together with filling an unset
    part of speech that is not a noun.  Whenever the form changes, it
    then has a part of speech, and an article other than the empty
    string only if that is a noun. *)
Theorem review_morphology_fills_unset `{Host} (reviewData : value)
    (current next : Web.form) :
  Web.applyMorphologyFromReview reviewData current = Done next →
  (Web.f_term next = Web.f_term current ∧
   Web.f_definition next = Web.f_definition current ∧
   Web.f_example next = Web.f_example current ∧
   Web.f_synonyms next = Web.f_synonyms current) ∧
  (∀ currentPos,
     Web.tags (Web.f_partOfSpeech current) = Done currentPos → currentPos ≠ [] →
     Web.f_partOfSpeech next = Web.f_partOfSpeech current ∨
     Web.f_partOfSpeech next = VArr (VStr <$> currentPos)) ∧
  (∀ article,
     Web.asText (Web.f_article current) = Done article →
     toLowerCase (trim article) ≠ "" →
     Web.f_article next = Web.f_article current ∨
     (Web.f_article next = VStr "" ∧
      Web.tags (Web.f_partOfSpeech current) = Done [])) ∧
  (next ≠ current →
   ∃ pos, Web.f_partOfSpeech next = VArr (VStr <$> pos) ∧ pos ≠ [] ∧
          ("noun" ∉ pos → Web.f_article next = VStr "")).
Proof.
  assert (Done (A := Web.form) current = Done next →
    (Web.f_term next = Web.f_term current ∧
     Web.f_definition next = Web.f_definition current ∧
     Web.f_example next = Web.f_example current ∧
     Web.f_synonyms next = Web.f_synonyms current) ∧
    (∀ currentPos,
       Web.tags (Web.f_partOfSpeech current) = Done currentPos → currentPos ≠ [] →
       Web.f_partOfSpeech next = Web.f_partOfSpeech current ∨
       Web.f_partOfSpeech next = VArr (VStr <$> currentPos)) ∧
    (∀ article,
       Web.asText (Web.f_article current) = Done article →
       toLowerCase (trim article) ≠ "" →
       Web.f_article next = Web.f_article current ∨
       (Web.f_article next = VStr "" ∧
        Web.tags (Web.f_partOfSpeech current) = Done [])) ∧
    (next ≠ current →
     ∃ pos, Web.f_partOfSpeech next = VArr (VStr <$> pos) ∧ pos ≠ [] ∧
            ("noun" ∉ pos → Web.f_article next = VStr ""))) as Hsame.
  { intros [= <-]. split; [done|]. split; [by left|]. split; [by left|done]. }
  unfold Web.applyMorphologyFromReview.
  set (termReview := match reviewData with
                     | VUndefined | VNull => VUndefined
                     | _ => prop "term" reviewData
                     end).
  destruct (negb (truthy termReview)); [done|].
  destruct (Web.tags (prop "partOfSpeech" termReview)) as [suggested|]; [|done].
  simpl. destruct (Web.asText (prop "article" termReview)) as [suggestedText|];
    [|done].
  simpl. set (suggestedPos := take 1 suggested).
  set (suggestedArticle := toLowerCase (trim suggestedText)).
  destruct (bool_decide (suggestedPos = []) && negb (nonEmpty suggestedArticle));
    [done|].
  destruct (Web.tags (Web.f_partOfSpeech current)) as [currentPos|] eqn:Hpos;
    [|done].
  simpl. destruct (Web.asText (Web.f_article current)) as [currentText|] eqn:Htext;
    [|done].
  simpl. set (currentArticle := toLowerCase (trim currentText)).
  destruct (decide (currentPos = [])) as [Hunset|Hset].
  - (* no part of speech yet *)
    rewrite (bool_decide_eq_true_2 _ Hunset). simpl.
    destruct (decide (suggestedPos = [])) as [Hnone|Hsome].
    + rewrite !(bool_decide_eq_true_2 _ Hnone), Hunset, Hnone. simpl.
      intros [= <-]. split; [done|]. split; [by left|]. split; [by left|done].
    + rewrite !(bool_decide_eq_false_2 _ Hsome). simpl.
      intros [= <-]. simpl. split; [done|].
      split; [intros ? [= <-]; done|]. split.
      * intros article [= <-] Harticle.
        apply nonEmpty_spec in Harticle. fold currentArticle in Harticle.
        rewrite Harticle. rewrite andb_false_r. simpl.
        destruct (negb (bool_decide ("noun" ∈ suggestedPos))); [|by left].
        right. by rewrite Hunset.
      * intros _. exists suggestedPos. split; [done|]. split; [done|].
        intros Hnoun. rewrite (bool_decide_eq_false_2 _ Hnoun). done.
  - (* the form has a part of speech *)
    rewrite !(bool_decide_eq_false_2 (currentPos = [])) by done. simpl.
    destruct (bool_decide ("noun" ∈ currentPos) && negb (nonEmpty currentArticle)
              && nonEmpty suggestedArticle) eqn:Hadopt.
    2: { intros [= <-]. split; [done|]. split; [by left|]. split; [by left|done]. }
    apply andb_true_iff in Hadopt as [Hadopt Hsuggested].
    apply andb_true_iff in Hadopt as [Hnoun Hblank].
    apply bool_decide_eq_true in Hnoun. apply negb_true_iff in Hblank.
    intros [= <-]. simpl. split; [done|]. split; [intros ? [= <-]; by right|].
    split.
    + intros article [= <-] Harticle. apply nonEmpty_spec in Harticle.
      fold currentArticle in Harticle. congruence.
    + intros _. exists currentPos. done.
Qed.

Lemma review_morphology_fills_unset_witness :
  let review : value (H := latin_host) :=
    VObj {["term" := VObj (list_to_map [("partOfSpeech", VArr [VStr " Noun "]);
                                        ("article", VStr "Der")])]} in
  let current : Web.form (H := latin_host) :=
    Web.Form (VStr "bier") (VStr "") (VStr "") (VStr "") (VArr []) (VStr "") in
  let next : Web.form (H := latin_host) :=
    Web.Form (VStr "bier") (VStr "") (VStr "") (VStr "") (VArr [VStr "noun"])
             (VStr "der") in
  Web.applyMorphologyFromReview review current = Done next ∧
  Web.f_term next = Web.f_term current.
Proof.
  intros review current next.
  assert (Web.applyMorphologyFromReview review current = Done next) as Happly
    by reflexivity.
  split; [exact Happly|].
  destruct (review_morphology_fills_unset (H := latin_host) review current next Happly)
    as ((Hterm & _) & _).
  exact Hterm.
Defined.

(** X20. What the form submits, the server checks without an
    exception, whoever sends it: the request ends in a refusal or in
    the call of the storage.  The term and the definition it reads are
    the trimmed texts of the form; when one of them is empty the answer
    is 400, and a document that is stored has both, not empty. *)
Theorem submitted_entry_is_checked `{Host} (current : Web.form) (body : value) :
  Web.submitEntry current = Done (Some body) →
  (∀ cookie, ∃ step, saveRequest cookie body = Done step) ∧
  ∃ term definition,
    Web.asText (Web.f_term current) = Done term ∧
    Web.asText (Web.f_definition current) = Done definition ∧
    prop "term" body = VStr (trim term) ∧
    prop "definition" body = VStr (trim definition) ∧
    (trim term = "" ∨ trim definition = "" →
     saveRequest (VStr "1") body =
     Done (Reject 400 "term and definition are required")) ∧
    (∀ doc, saveRequest (VStr "1") body = Done (Persist doc) →
       e_term doc = VStr (trim term) ∧ trim term ≠ "" ∧
       e_definition doc = VStr (trim definition) ∧ trim definition ≠ "").
Proof.
  unfold Web.submitEntry.
  destruct (mapM _ (Web.asArray (Web.f_partOfSpeech current))) as [names|]; [|done].
  simpl. set (primaryPos := take 1 (filter (λ tag, nonEmpty tag = true) names)).
  destruct (Web.asText (Web.f_article current)) as [article|]; [|done].
  simpl. set (normalizedArticle := toLowerCase (trim article)).
  destruct (bool_decide ("noun" ∈ primaryPos) && negb (nonEmpty normalizedArticle));
    [done|].
  destruct (Web.asText (Web.f_term current)) as [term|]; [|done].
  destruct (Web.asText (Web.f_definition current)) as [definition|]; [|done].
  destruct (Web.asText (Web.f_example current)) as [example|]; [|done].
  destruct (Web.asText (Web.f_synonyms current)) as [synonyms|]; [|done].
  simpl. intros [= <-].
  set (texts := <["term" := VStr (trim term)]>
                  (<["definition" := VStr (trim definition)]>
                     (<["example" := VStr (trim example)]>
                        ({["synonyms" := VStr (trim synonyms)]}
                           : gmap string value)))).
  set (withPos := if bool_decide (primaryPos = []) then texts
                  else <["partOfSpeech" := VArr (VStr <$> primaryPos)]> texts).
  set (payload := if bool_decide ("noun" ∈ primaryPos)
                  then <["article" := VStr normalizedArticle]> withPos else withPos).
  assert (payload !! "term" = Some (VStr (trim term)) ∧
          payload !! "definition" = Some (VStr (trim definition))) as [Hterm Hdefinition].
  { unfold payload, withPos, texts.
    destruct (bool_decide ("noun" ∈ primaryPos)), (bool_decide (primaryPos = []));
      by rewrite ?(lookup_insert_ne _ "article") by done;
         rewrite ?(lookup_insert_ne _ "partOfSpeech") by done;
         rewrite ?lookup_insert_eq, ?(lookup_insert_ne _ "term" "definition") by done;
         rewrite ?lookup_insert_eq. }
  assert (convertible (prop "partOfSpeech" (VObj payload)) = true ∧
          convertible (prop "article" (VObj payload)) = true) as [Hpos Harticle].
  { assert (∀ tags : list string, forallb convertible (VStr <$> tags) = true) as Htags
      by (induction tags as [|? ? IH]; done).
    unfold prop, payload, withPos, texts.
    destruct (bool_decide ("noun" ∈ primaryPos)), (bool_decide (primaryPos = []));
      rewrite ?lookup_insert_eq, ?(lookup_insert_ne _ "article" "partOfSpeech") by done;
      rewrite ?lookup_insert_eq;
      rewrite ?(lookup_insert_ne _ _ "partOfSpeech"), ?(lookup_insert_ne _ _ "article")
        by done;
      rewrite ?lookup_singleton_ne by done; simpl; by rewrite ?Htags. }
  assert (prop "term" (VObj payload) = VStr (trim term)) as Hpterm
    by (unfold prop; by rewrite Hterm).
  assert (prop "definition" (VObj payload) = VStr (trim definition)) as Hpdefinition
    by (unfold prop; by rewrite Hdefinition).
  assert (∃ morph, validateMorphology (prop "partOfSpeech" (VObj payload))
                     (prop "article" (VObj payload)) = Done morph) as [morph Hmorph].
  { unfold validateMorphology.
    destruct (normalizePartOfSpeech_returns _ Hpos) as [tags ->].
    destruct (normalizeArticle_returns _ Harticle) as [a ->]. simpl.
    destruct (bool_decide ("noun" ∈ tags)), a; eauto. }
  assert (or_else (VObj payload) (VObj ∅) = VObj payload) as Hbody by done.
  split.
  - intros cookie. unfold saveRequest.
    destruct (negb (requireAuth cookie)); [eauto|].
    rewrite Hbody.
    destruct (negb (truthy (prop "term" (VObj payload)))
              || negb (truthy (prop "definition" (VObj payload)))); [eauto|].
    rewrite Hmorph. simpl. destruct morph; eauto.
  - exists term, definition. split; [done|]. split; [done|].
    split; [done|]. split; [done|]. split.
    + intros Hempty. unfold saveRequest. simpl requireAuth. cbn [negb].
      rewrite Hbody, Hpterm, Hpdefinition.
      assert (negb (truthy (VStr (trim term)))
              || negb (truthy (VStr (trim definition))) = true) as ->; [|done].
      simpl. destruct Hempty as [-> | ->]; [done|]. by rewrite orb_true_r.
    + intros doc. unfold saveRequest. simpl requireAuth. cbn [negb].
      rewrite Hbody, Hpterm, Hpdefinition.
      destruct (negb (truthy (VStr (trim term)))
                || negb (truthy (VStr (trim definition)))) eqn:Hrequired; [done|].
      apply orb_false_iff in Hrequired as [Ht Hd].
      apply negb_false_iff in Ht, Hd. simpl in Ht, Hd.
      rewrite Hmorph. simpl. destruct morph; [done|]. intros [= <-]. simpl.
      split; [done|]. split; [by apply nonEmpty_spec|].
      split; [done|]. by apply nonEmpty_spec.
Qed.

Lemma submitted_entry_is_checked_witness :
  let current : Web.form (H := latin_host) :=
    Web.Form (VStr " Feierabendbier ") (VStr "Bier nach der Arbeit") (VStr "")
             (VStr "") (VArr [VStr "Noun"]) (VStr " Das") in
  let body : value (H := latin_host) :=
    VObj (list_to_map
            [("term", VStr "Feierabendbier"); ("definition", VStr "Bier nach der Arbeit");
             ("example", VStr ""); ("synonyms", VStr "");
             ("partOfSpeech", VArr [VStr "noun"]); ("article", VStr "das")]) in
  Web.submitEntry current = Done (Some body) ∧
  saveRequest (VStr "1") body =
  Done (Persist (EntryDoc (VStr "Feierabendbier") (VStr "Bier nach der Arbeit")
                          (VStr "") (VStr "") ["noun"] (Some "das"))) ∧
  ∀ cookie, ∃ step, saveRequest cookie body = Done step.
Proof.
  intros current body.
  assert (Web.submitEntry current = Done (Some body)) as Hsubmit by reflexivity.
  split; [exact Hsubmit|]. split; [reflexivity|].
  destruct (submitted_entry_is_checked (H := latin_host) current body Hsubmit)
    as [Hchecked _].
  exact Hchecked.
Defined.

Section web_parts.
Context `{Host}.

Lemma textOr_Done answer current v :
  Web.textOr answer current = Done v →
  ∃ text, Web.asText answer = Done text ∧
          v = if nonEmpty text then VStr text else current.
Proof.
  unfold Web.textOr. destruct (Web.asText answer) as [text|]; [|done].
  simpl. intros [= <-]. eauto.
Qed.

Lemma textOr_kept answer current v :
  Web.textOr answer current = Done v →
  (truthy current = true → truthy v = true) ∧
  (∀ text, Web.asText answer = Done text →
           v = if nonEmpty text then VStr text else current).
Proof.
  intros (text & Htext & ->)%textOr_Done. split.
  - intros Hcurrent. by destruct (nonEmpty text) eqn:Hfull.
  - intros ? Heq. rewrite Htext in Heq. by injection Heq as <-.
Qed.

End web_parts.

(** X21. Putting the answer of a completion into the form leaves the
    term as it is, replaces a text by the text of the answer when that
    is not empty, and otherwise keeps it, so no text of the form is
    emptied.  A part of speech of the answer replaces the one of the
    form, also one that was set, and is then a single tag; without one
    the tags of the form stay.  The article is the empty string unless
    the part of speech afterwards has the noun. *)
Theorem completion_fills_form `{Host} (payload : value) (current next : Web.form) :
  Web.completedForm payload current = Done next →
  Web.f_term next = Web.f_term current ∧
  ((truthy (Web.f_definition current) = true → truthy (Web.f_definition next) = true) ∧
   (truthy (Web.f_example current) = true → truthy (Web.f_example next) = true) ∧
   (truthy (Web.f_synonyms current) = true → truthy (Web.f_synonyms next) = true)) ∧
  (∀ text,
     (Web.asText (prop "definition" payload) = Done text →
      Web.f_definition next =
      if nonEmpty text then VStr text else Web.f_definition current) ∧
     (Web.asText (prop "example" payload) = Done text →
      Web.f_example next =
      if nonEmpty text then VStr text else Web.f_example current) ∧
     (Web.asText (prop "synonyms" payload) = Done text →
      Web.f_synonyms next =
      if nonEmpty text then VStr text else Web.f_synonyms current)) ∧
  ∃ pos article,
    Web.f_partOfSpeech next = VArr (VStr <$> pos) ∧
    Web.f_article next = VStr article ∧
    (∀ tag, tag ∈ pos → tag ≠ "") ∧
    ("noun" ∉ pos → article = "") ∧
    (∀ tag rest, Web.tags (prop "partOfSpeech" payload) = Done (tag :: rest) →
                 pos = [tag]) ∧
    (Web.tags (prop "partOfSpeech" payload) = Done [] →
     Web.tags (Web.f_partOfSpeech current) = Done pos).
Proof.
  unfold Web.completedForm.
  destruct (get "partOfSpeech" payload) as [partOfSpeech|] eqn:Hget; [|done].
  apply get_Done in Hget as [_ ->]. simpl.
  destruct (Web.tags (prop "partOfSpeech" payload)) as [payloadTags|] eqn:Hpayload;
    [|done].
  simpl. destruct (Web.asText (prop "article" payload)) as [articleText|]; [|done].
  simpl. destruct (Web.tags (Web.f_partOfSpeech current)) as [currentPos|] eqn:Hcurrent;
    [|done].
  simpl.
  set (nextPos := if bool_decide (take 1 payloadTags = []) then currentPos
                  else take 1 payloadTags).
  set (chosen := if bool_decide ("noun" ∈ nextPos) then _ else _).
  destruct chosen as [nextArticle|] eqn:Hchosen; [|done]. simpl.
  destruct (Web.textOr (prop "definition" payload) (Web.f_definition current))
    as [definition|] eqn:Hdefinition; [|done]. simpl.
  destruct (Web.textOr (prop "example" payload) (Web.f_example current))
    as [example|] eqn:Hexample; [|done]. simpl.
  destruct (Web.textOr (prop "synonyms" payload) (Web.f_synonyms current))
    as [synonyms|] eqn:Hsynonyms; [|done]. simpl.
  intros [= <-]. simpl.
  destruct (textOr_kept _ _ _ Hdefinition) as [Hd1 Hd2].
  destruct (textOr_kept _ _ _ Hexample) as [He1 He2].
  destruct (textOr_kept _ _ _ Hsynonyms) as [Hs1 Hs2].
  split; [done|]. split; [done|].
  split; [intros text; split; [|split]; intros Htext; eauto|].
  exists nextPos, nextArticle. split; [done|]. split; [done|].
  split; [|split; [|split]].
  - intros tag Htag. unfold nextPos in Htag.
    destruct (bool_decide (take 1 payloadTags = [])).
    + by apply (tags_nonEmpty _ _ _ Hcurrent).
    + apply (tags_nonEmpty _ _ _ Hpayload). eapply subseteq_take, Htag.
  - intros Hnoun. unfold chosen in Hchosen.
    rewrite (bool_decide_eq_false_2 _ Hnoun) in Hchosen. by injection Hchosen.
  - intros tag rest [= ->]. done.
  - intros [= ->]. done.
Qed.

Lemma completion_fills_form_witness :
  let payload : value (H := latin_host) :=
    VObj (list_to_map [("definition", VStr "Bier nach der Arbeit");
                       ("partOfSpeech", VArr [VStr "noun"]); ("article", VStr "Das")]) in
  let current : Web.form (H := latin_host) :=
    Web.Form (VStr "Feierabendbier") (VStr "") (VStr "nach Dienstschluss") (VStr "")
             (VArr [VStr "verb"]) (VStr "") in
  let next : Web.form (H := latin_host) :=
    Web.Form (VStr "Feierabendbier") (VStr "Bier nach der Arbeit")
             (VStr "nach Dienstschluss") (VStr "") (VArr [VStr "noun"]) (VStr "das") in
  Web.completedForm payload current = Done next ∧
  Web.f_term next = Web.f_term current.
Proof.
  intros payload current next.
  assert (Web.completedForm payload current = Done next) as Hcompleted by reflexivity.
  split; [exact Hcompleted|].
  destruct (completion_fills_form (H := latin_host) payload current next Hcompleted)
    as (Hterm & _).
  exact Hterm.
Defined.

(** X22. Clicking a part of speech leaves the texts other than the term
    as they are and selects that one part of speech, or none when it was
    selected.  With the noun selected the article stays and the term is
    capitalized; in every other case the article is the empty string and
    the term stays.  Clicking the selected part of speech again, for a
    value that is trimmed and in lower case as the nine options are,
    deselects it and empties the article.  The click fails only on a
    part of speech of the form that has no conversion to a string. *)
Theorem toggle_selects_one `{Host} (value : string) (current : Web.form) :
  match Web.togglePartOfSpeech value current with
  | Thrown _ => convertible (Web.f_partOfSpeech current) = false
  | Done next =>
      (Web.f_definition next = Web.f_definition current ∧
       Web.f_example next = Web.f_example current ∧
       Web.f_synonyms next = Web.f_synonyms current) ∧
      (Web.f_partOfSpeech next = VArr [] ∨
       Web.f_partOfSpeech next = VArr [VStr value]) ∧
      ((Web.f_partOfSpeech next = VArr [VStr "noun"] ∧
        Web.f_article next = Web.f_article current ∧
        Web.f_term next = Web.capitalizeFirst (Web.f_term current)) ∨
       (Web.f_partOfSpeech next ≠ VArr [VStr "noun"] ∧
        Web.f_article next = VStr "" ∧
        Web.f_term next = Web.f_term current)) ∧
      (toLowerCase (trim value) = value → value ≠ "" →
       Web.f_partOfSpeech next = VArr [VStr value] →
       Web.togglePartOfSpeech value next =
       Done (Web.Form (Web.f_term next) (Web.f_definition next) (Web.f_example next)
                      (Web.f_synonyms next) (VArr []) (VStr "")))
  end.
Proof.
  unfold Web.togglePartOfSpeech at 1.
  destruct (Web.lowered (Web.asArray (Web.f_partOfSpeech current)))
    as [currentList|message] eqn:Hlowered; simpl.
  2: { destruct (convertible (Web.f_partOfSpeech current)) eqn:Hc; [|done].
       destruct (lowered_returns _ (asArray_convertible _ Hc)) as [? Hreturns].
       congruence. }
  assert (∀ term article,
            Web.togglePartOfSpeech value
              (Web.Form term (Web.f_definition current) (Web.f_example current)
                        (Web.f_synonyms current) (VArr [VStr value]) article) =
            if nonEmpty value && bool_decide (value = toLowerCase (trim value))
            then Done (Web.Form term (Web.f_definition current)
                         (Web.f_example current) (Web.f_synonyms current)
                         (VArr []) (VStr ""))
            else Web.togglePartOfSpeech value
                   (Web.Form term (Web.f_definition current) (Web.f_example current)
                             (Web.f_synonyms current) (VArr [VStr value]) article))
    as Hagain.
  { intros term article.
    destruct (nonEmpty value && bool_decide (value = toLowerCase (trim value)))
      eqn:Hvalue; [|done].
    apply andb_true_iff in Hvalue as [Hfull Hlower].
    apply bool_decide_eq_true in Hlower.
    unfold Web.togglePartOfSpeech, Web.lowered, Web.asArray. simpl.
    rewrite filter_cons_True by (simpl; by rewrite <- Hfull).
    simpl. rewrite <- Hlower.
    rewrite !(bool_decide_eq_true_2 (value ∈ [value])) by left. simpl. done. }
  destruct (bool_decide (value ∈ currentList)); simpl.
  - split; [done|]. split; [by left|]. split; [by right|]. done.
  - split; [done|]. split; [by right|]. split.
    + destruct (decide (value = "noun")) as [->|Hother].
      * left. rewrite !(bool_decide_eq_true_2 ("noun" ∈ ["noun"])) by left. simpl.
        split; [done|]. split; [done|].
        destruct (truthy (Web.f_term current)) eqn:Hterm; [done|].
        by destruct (Web.f_term current) as [| | | |[|? ?]| |].
      * right.
        rewrite !(bool_decide_eq_false_2 ("noun" ∈ [value]))
          by (intros ?%list_elem_of_singleton; congruence).
        simpl. split; [|done]. intros [= ->]. done.
    + intros Hlower Hfull _. rewrite Hagain.
      apply nonEmpty_spec in Hfull. rewrite Hfull, Hlower.
      by rewrite bool_decide_eq_true_2.
Qed.
